(** * Smart-Expense-Tracker: store, router and query functions

    A shallow embedding of the JavaScript sources

    - the store module (class [Store]: constructor, getState, setState,
      subscribe, use, batchUpdate), once with callbacks that only touch the
      heap ([Store]) and once with callbacks that call the store while it
      is notifying ([LiveStore]),
    - [js/modules/router.js] (class [Router]: on, notFound, beforeEach,
      afterEach, _parseHash, _handleRouteChange),
    - [js/modules/charts.js], utility part (sortBy, groupBy, calculateStats,
      generateUUID),
    - [js/modules/components.js] (CATEGORIES, applyFilters,
      calculateCategoryTotals) and
    - [js/modules/storage.js] (storage.get, set, remove, clearAll;
      expenseStorage.load, save, _validateExpenses, exportCSV)

    together with the properties their specification states about them.

    JavaScript objects live in an explicit heap, so that aliasing between the
    store's state object and the values handed to callers is visible; numbers
    are IEEE-754 binary64 values (Rocq's primitive floats); host callbacks
    (middleware, subscribers, guards, handlers, hooks) are parameters of the
    development. *)

From Stdlib Require Import ZArith NArith QArith List Ascii String Floats.
From Stdlib Require Uint63.
From stdpp Require Import gmap strings list.

Open Scope string_scope.
Open Scope list_scope.
Open Scope nat_scope.

(** ** JavaScript values, objects and the heap *)

Module JS.

(** Object identity. *)
Definition loc := positive.

(** Identity of a function object: two closures are the same callback exactly
    when they are the same function object. *)
Definition fn := nat.

(** The objects of the realm that a plain object reaches through its
    prototype: [Object.prototype] itself, the function [Object] (its
    [constructor]) and its methods, by name.  They are not cells of the heap
    of this development, and nothing here changes them. *)
Inductive builtin :=
| ObjectPrototype
| ObjectConstructor
| ObjectPrototypeMethod (name : string).

Inductive val :=
| VUndef
| VNull
| VBool (b : bool)
| VNum (x : float)
| VStr (s : string)
| VFun (f : fn)
| VRef (l : loc)
| VBuiltin (b : builtin).

(** A plain object keeps its own properties in insertion order (array-index
    keys, which JavaScript enumerates first, are not treated specially); an
    array keeps its elements. *)
Inductive obj :=
| Obj (props : list (string * val))
| Arr (elems : list val).

Abbreviation heap := (gmap loc obj).

(** [IsCallable]: a function of the host or of the realm. *)
Definition callable (v : val) : bool :=
  match v with
  | VFun _ => true
  | VBuiltin ObjectPrototype => false
  | VBuiltin _ => true
  | _ => false
  end.

Inductive exn :=
| TypeError
| SyntaxError
| URIError
| RangeError
| HostError (v : val).

(** The way a call ends: normally with a value, or abruptly with a thrown
    exception. *)
Inductive completion (A : Type) :=
| Normal (a : A)
| Abrupt (e : exn).
Arguments Normal {A} a.
Arguments Abrupt {A} e.

(** [o[k]] on the own properties of a plain object. *)
Fixpoint prop_lookup (k : string) (ps : list (string * val)) : option val :=
  match ps with
  | [] => None
  | (k', v) :: ps' => if decide (k = k') then Some v else prop_lookup k ps'
  end.

(** [o[k] = v]: overwrite in place, or append a new own property. *)
Fixpoint prop_store (k : string) (v : val) (ps : list (string * val))
  : list (string * val) :=
  match ps with
  | [] => [(k, v)]
  | (k', v') :: ps' =>
      if decide (k = k') then (k, v) :: ps' else (k', v') :: prop_store k v ps'
  end.

(** Reading an own property through a reference; a property that the object
    does not own reads as [undefined] here.  What a plain object inherits
    from [Object.prototype] is in [Get] below. *)
Definition get_prop (h : heap) (l : loc) (k : string) : val :=
  match h !! l with
  | Some (Obj ps) => default VUndef (prop_lookup k ps)
  | _ => VUndef
  end.

(** Writing an own property through a reference. The store only ever writes
    to its state object, which is a plain object; other cells are left alone.
    The one key whose assignment does not make an own property,
    [__proto__], is in [Assign] below. *)
Definition set_prop (h : heap) (l : loc) (k : string) (v : val) : heap :=
  match h !! l with
  | Some (Obj ps) => <[l := Obj (prop_store k v ps)]> h
  | _ => h
  end.

Definition is_object (h : heap) (l : loc) : Prop :=
  ∃ ps, h !! l = Some (Obj ps).

Lemma prop_lookup_store_eq k v ps : prop_lookup k (prop_store k v ps) = Some v.
Proof.
  induction ps as [|[k' v'] ps IH]; simpl.
  - by rewrite decide_True.
  - destruct (decide (k = k')) as [->|Hne]; simpl.
    + by rewrite decide_True.
    + by rewrite decide_False.
Qed.

Lemma prop_lookup_store_ne k k' v ps :
  k ≠ k' → prop_lookup k' (prop_store k v ps) = prop_lookup k' ps.
Proof.
  intros Hne. induction ps as [|[k0 v0] ps IH]; simpl.
  - rewrite decide_False; [done | congruence].
  - destruct (decide (k = k0)) as [->|Hk]; simpl.
    + rewrite !decide_False; [done | congruence | congruence].
    + destruct (decide (k' = k0)); [done | apply IH].
Qed.

Lemma get_set_prop_eq h l k v : is_object h l → get_prop (set_prop h l k v) l k = v.
Proof.
  intros [ps Hps]. unfold get_prop, set_prop. rewrite Hps, lookup_insert_eq.
  by rewrite prop_lookup_store_eq.
Qed.

Lemma get_set_prop_ne h l k k' v :
  k ≠ k' → get_prop (set_prop h l k v) l k' = get_prop h l k'.
Proof.
  intros Hne. unfold get_prop, set_prop.
  destruct (h !! l) as [[ps|es]|] eqn:Hl; rewrite ?Hl; try done.
  rewrite lookup_insert_eq. by rewrite prop_lookup_store_ne.
Qed.

Lemma set_prop_is_object h l l' k v : is_object h l' → is_object (set_prop h l k v) l'.
Proof.
  intros [ps Hps]. unfold set_prop.
  destruct (h !! l) as [[ps0|es]|] eqn:Hl; try by exists ps.
  destruct (decide (l = l')) as [->|Hne].
  - eexists. apply lookup_insert_eq.
  - exists ps. by rewrite lookup_insert_ne.
Qed.

(** *** Property access on a plain object, with what it inherits

    A plain object (an object literal, or what [JSON.parse] builds) has
    [Object.prototype] as its prototype.  These are the names defined there:
    the methods, [constructor], and the accessor [__proto__]. *)
Definition Object_prototype_methods : list string :=
  ["hasOwnProperty"; "isPrototypeOf"; "propertyIsEnumerable"; "toLocaleString";
   "toString"; "valueOf"; "__defineGetter__"; "__defineSetter__";
   "__lookupGetter__"; "__lookupSetter__"].

(** What [o[k]] reads on a plain object that has no own property [k]. *)
Definition inherited (k : string) : val :=
  if decide (k = "__proto__") then VBuiltin ObjectPrototype
  else if decide (k = "constructor") then VBuiltin ObjectConstructor
  else if decide (k ∈ Object_prototype_methods)
       then VBuiltin (ObjectPrototypeMethod k)
       else VUndef.

(** [o[k]]: the own property if there is one, else the inherited one. *)
Definition Get (ps : list (string * val)) (k : string) : val :=
  match prop_lookup k ps with
  | Some v => v
  | None => inherited k
  end.

(** [o[k] = v] on a plain object.  An own property is overwritten.  Without
    one, every key but [__proto__] gets a new own property (the inherited
    methods and [constructor] are writable data properties, so they are
    shadowed); [__proto__] goes to the setter of [Object.prototype], which
    ignores a primitive and replaces the prototype of the object by an object
    or by [null].  An object with another prototype is not a plain object any
    more, and this development does not follow it. *)
Inductive assignment :=
| Assigned (ps : list (string * val))
| ReplacesPrototype.

Definition Assign (ps : list (string * val)) (k : string) (v : val)
  : assignment :=
  match prop_lookup k ps with
  | Some _ => Assigned (prop_store k v ps)
  | None =>
      if decide (k = "__proto__") then
        match v with
        | VUndef | VBool _ | VNum _ | VStr _ => Assigned ps
        | VNull | VFun _ | VRef _ | VBuiltin _ => ReplacesPrototype
        end
      else Assigned (prop_store k v ps)
  end.

(** The key is [__proto__] and the object has no own property of that name:
    the assignment reaches the inherited setter. *)
Definition reaches_proto_setter (ps : list (string * val)) (k : string) : Prop :=
  k = "__proto__" ∧ prop_lookup k ps = None.

#[global] Instance reaches_proto_setter_dec ps k : Decision (reaches_proto_setter ps k).
Proof. unfold reaches_proto_setter. apply _. Defined.

Lemma Assign_stores ps k v :
  ¬ reaches_proto_setter ps k → Assign ps k v = Assigned (prop_store k v ps).
Proof.
  intros Hn. unfold Assign. destruct (prop_lookup k ps) eqn:Hk; [done|].
  rewrite decide_False; [done|]. intros ->. by apply Hn.
Qed.

Lemma Assign_setter ps k v ps' :
  reaches_proto_setter ps k → Assign ps k v = Assigned ps' → ps' = ps.
Proof.
  intros [-> Hk]. unfold Assign. rewrite Hk, decide_True by done.
  destruct v; congruence.
Qed.

Lemma Get_store_eq ps k v : Get (prop_store k v ps) k = v.
Proof. unfold Get. by rewrite prop_lookup_store_eq. Qed.

Lemma Get_store_ne ps k k' v : k ≠ k' → Get (prop_store k v ps) k' = Get ps k'.
Proof. intros Hne. unfold Get. by rewrite prop_lookup_store_ne. Qed.

(** An assignment that is done changes no other key. *)
Lemma Assign_other ps k v ps' k' :
  Assign ps k v = Assigned ps' → k ≠ k' → Get ps' k' = Get ps k'.
Proof.
  intros Ha Hne. destruct (decide (reaches_proto_setter ps k)) as [Hs|Hs].
  - by rewrite (Assign_setter _ _ _ _ Hs Ha).
  - rewrite Assign_stores in Ha by done. injection Ha as <-.
    by apply Get_store_ne.
Qed.

(** An assignment that makes or overwrites an own property reads back. *)
Lemma Assign_reads_back ps k v ps' :
  Assign ps k v = Assigned ps' → ¬ reaches_proto_setter ps k → Get ps' k = v.
Proof.
  intros Ha Hs. rewrite Assign_stores in Ha by done. injection Ha as <-.
  apply Get_store_eq.
Qed.

(** Where nothing is inherited under the key, the own properties decide. *)
Lemma Get_own ps k : inherited k = VUndef → Get ps k = default VUndef (prop_lookup k ps).
Proof. intros Hk. unfold Get. by destruct (prop_lookup k ps). Qed.

Lemma inherited_proto k : inherited k = VUndef → k ≠ "__proto__".
Proof. intros Hk ->. by vm_compute in Hk. Qed.

End JS.

(** ** JSON.stringify and JSON.parse *)

Module JSON.
Import JS.

(** A JSON text, as the tree it denotes. *)
Inductive json :=
| JNull
| JBool (b : bool)
| JNum (x : float)
| JStr (s : string)
| JArr (items : jitems)
| JObj (members : jmembers)
with jitems :=
| INil
| ICons (j : json) (js : jitems)
with jmembers :=
| MNil
| MCons (k : string) (j : json) (ms : jmembers).

Scheme json_mut := Induction for json Sort Prop
with jitems_mut := Induction for jitems Sort Prop
with jmembers_mut := Induction for jmembers Sort Prop.
Combined Scheme json_mutind from json_mut, jitems_mut, jmembers_mut.

(** What evaluating a model function gives: a value, a thrown exception, a
    read through a reference that no cell stands for (JavaScript has no such
    references; the case marks heaps that are not JavaScript heaps), an
    exhausted recursion budget, or the point where [JSON.stringify] calls
    function [f] as the [toJSON] method of [this]: from there on it is that
    function, code of the host, that decides what is written, what is thrown
    and what becomes of the heap, and the model follows it no further. *)
Inductive result (A : Type) :=
| Done (a : A)
| Throws (e : exn)
| Unallocated
| OutOfFuel
| Calls (f : val) (this : val).
Arguments Done {A} a.
Arguments Throws {A} e.
Arguments Unallocated {A}.
Arguments OutOfFuel {A}.
Arguments Calls {A} f this.

(** A number in a JSON text: NaN and the infinities are written [null], and
    minus zero is written [0]. *)
Definition number_to_json (x : float) : json :=
  match classify x with
  | NaN | PInf | NInf => JNull
  | NZero => JNum 0%float
  | _ => JNum x
  end.

(** The own properties of an object, in order; a property whose value
    serializes to nothing ([undefined], a function) is left out. *)
Fixpoint serialize_props (ser : val → result (option json))
    (ps : list (string * val)) : result jmembers :=
  match ps with
  | [] => Done MNil
  | (k, v) :: ps' =>
      match ser v with
      | Done None => serialize_props ser ps'
      | Done (Some j) =>
          match serialize_props ser ps' with
          | Done ms => Done (MCons k j ms)
          | Throws e => Throws e
          | Unallocated => Unallocated
          | OutOfFuel => OutOfFuel
          | Calls f this => Calls f this
          end
      | Throws e => Throws e
      | Unallocated => Unallocated
      | OutOfFuel => OutOfFuel
      | Calls f this => Calls f this
      end
  end.

(** The elements of an array, in order; an element that serializes to
    nothing is written [null]. *)
Fixpoint serialize_elems (ser : val → result (option json))
    (es : list val) : result jitems :=
  match es with
  | [] => Done INil
  | v :: es' =>
      match ser v with
      | Done o =>
          match serialize_elems ser es' with
          | Done js => Done (ICons (default JNull o) js)
          | Throws e => Throws e
          | Unallocated => Unallocated
          | OutOfFuel => OutOfFuel
          | Calls f this => Calls f this
          end
      | Throws e => Throws e
      | Unallocated => Unallocated
      | OutOfFuel => OutOfFuel
      | Calls f this => Calls f this
      end
  end.

(** The [toJSON] member of an object, when it is callable.  A plain object
    has it as an own property or not at all ([Object.prototype] has none), and
    an array of this development has no named properties. *)
Definition toJSON_of (o : obj) : option val :=
  match o with
  | Obj ps =>
      match prop_lookup "toJSON" ps with
      | Some f => if callable f then Some f else None
      | None => None
      end
  | Arr _ => None
  end.

(** SerializeJSONProperty.  An object with a callable [toJSON] is replaced by
    what that function returns; otherwise [stack] holds the objects being
    serialized, and meeting one of them again is the TypeError "cyclic object
    value".  A function is written as nothing, and [Object.prototype], which
    has no enumerable property, as the empty object. *)
Fixpoint serialize (fuel : nat) (h : heap) (stack : list loc) (v : val)
  : result (option json) :=
  match v with
  | VUndef | VFun _ => Done None
  | VBuiltin b => if callable (VBuiltin b) then Done None else Done (Some (JObj MNil))
  | VNull => Done (Some JNull)
  | VBool b => Done (Some (JBool b))
  | VNum x => Done (Some (number_to_json x))
  | VStr s => Done (Some (JStr s))
  | VRef l =>
      match h !! l with
      | None => Unallocated
      | Some o =>
          match toJSON_of o with
          | Some f => Calls f (VRef l)
          | None =>
              if decide (l ∈ stack) then Throws TypeError
              else match fuel with
                   | 0 => OutOfFuel
                   | S fuel' =>
                       let ser := serialize fuel' h (l :: stack) in
                       match o with
                       | Obj ps =>
                           match serialize_props ser ps with
                           | Done ms => Done (Some (JObj ms))
                           | Throws e => Throws e
                           | Unallocated => Unallocated
                           | OutOfFuel => OutOfFuel
                           | Calls f this => Calls f this
                           end
                       | Arr es =>
                           match serialize_elems ser es with
                           | Done js => Done (Some (JArr js))
                           | Throws e => Throws e
                           | Unallocated => Unallocated
                           | OutOfFuel => OutOfFuel
                           | Calls f this => Calls f this
                           end
                       end
                   end
          end
      end
  end.

(** [JSON.stringify(v)].  The nesting of a serialization is bounded by the
    number of cells of the heap, since no object is entered twice on one
    path. *)
Definition stringify (h : heap) (v : val) : result (option json) :=
  serialize (size h) h [] v.

Lemma serialize_ref fuel h stack l :
  serialize fuel h stack (VRef l) =
  match h !! l with
  | None => Unallocated
  | Some o =>
      match toJSON_of o with
      | Some f => Calls f (VRef l)
      | None =>
          if decide (l ∈ stack) then Throws TypeError
          else match fuel with
               | 0 => OutOfFuel
               | S fuel' =>
                   match o with
                   | Obj ps =>
                       match serialize_props (serialize fuel' h (l :: stack)) ps with
                       | Done ms => Done (Some (JObj ms))
                       | Throws e => Throws e
                       | Unallocated => Unallocated
                       | OutOfFuel => OutOfFuel
                       | Calls f this => Calls f this
                       end
                   | Arr es =>
                       match serialize_elems (serialize fuel' h (l :: stack)) es with
                       | Done js => Done (Some (JArr js))
                       | Throws e => Throws e
                       | Unallocated => Unallocated
                       | OutOfFuel => OutOfFuel
                       | Calls f this => Calls f this
                       end
                   end
               end
      end
  end.
Proof. by destruct fuel. Qed.

(** [JSON.parse]: every array and object of the text becomes a new cell. *)
Fixpoint parse (j : json) (h : heap) : heap * val :=
  match j with
  | JNull => (h, VNull)
  | JBool b => (h, VBool b)
  | JNum x => (h, VNum x)
  | JStr s => (h, VStr s)
  | JArr js =>
      let '(h1, es) := parse_items js h in
      let l := fresh (dom h1) in
      (<[l := Arr es]> h1, VRef l)
  | JObj ms =>
      let '(h1, ps) := parse_members ms h [] in
      let l := fresh (dom h1) in
      (<[l := Obj ps]> h1, VRef l)
  end
with parse_items (js : jitems) (h : heap) : heap * list val :=
  match js with
  | INil => (h, [])
  | ICons j js' =>
      let '(h1, v) := parse j h in
      let '(h2, vs) := parse_items js' h1 in
      (h2, v :: vs)
  end
with parse_members (ms : jmembers) (h : heap) (acc : list (string * val))
  : heap * list (string * val) :=
  match ms with
  | MNil => (h, acc)
  | MCons k j ms' =>
      let '(h1, v) := parse j h in
      parse_members ms' h1 (prop_store k v acc)
  end.

(** The values a cell holds. *)
Definition obj_vals (o : obj) : list val :=
  match o with
  | Obj ps => ps.*2
  | Arr es => es
  end.

(** [reach h v l]: cell [l] can be reached from value [v] by following
    references. *)
Inductive reach (h : heap) : val → loc → Prop :=
| reach_here l : reach h (VRef l) l
| reach_step l o v l' :
    h !! l = Some o → v ∈ obj_vals o → reach h v l' → reach h (VRef l) l'.

(** Two heaps that hold the same cells at the locations of [D]. *)
Definition agree (D : gset loc) (h h' : heap) : Prop :=
  ∀ l, l ∈ D → h' !! l = h !! l.

(** A value that does not refer into [D]. *)
Definition outside (D : gset loc) (v : val) : Prop :=
  match v with
  | VRef l => l ∉ D
  | _ => True
  end.

(** The cells outside [D] do not refer into [D]. *)
Definition sealed (D : gset loc) (h : heap) : Prop :=
  ∀ l o, l ∉ D → h !! l = Some o → Forall (outside D) (obj_vals o).


(** No reference of the heap is dangling. *)
Definition closed (h : heap) : Prop :=
  ∀ l o l', h !! l = Some o → VRef l' ∈ obj_vals o → is_Some (h !! l').

(** The keys of the members of an object of a JSON text. *)
Fixpoint mkeys (ms : jmembers) : list string :=
  match ms with
  | MNil => []
  | MCons k _ ms' => k :: mkeys ms'
  end.

Fixpoint mapp (ms1 ms2 : jmembers) : jmembers :=
  match ms1 with
  | MNil => ms2
  | MCons k j ms' => MCons k j (mapp ms' ms2)
  end.

Fixpoint jsize (j : json) : nat :=
  match j with
  | JArr js => S (isize js)
  | JObj ms => S (msize ms)
  | _ => 1
  end
with isize (js : jitems) : nat :=
  match js with
  | INil => 0
  | ICons j js' => jsize j + isize js'
  end
with msize (ms : jmembers) : nat :=
  match ms with
  | MNil => 0
  | MCons _ j ms' => jsize j + msize ms'
  end.

(** [represents h v j]: in heap [h], value [v] is the JSON data [j]: null, a
    boolean, a finite number other than minus zero, a string, or a reference
    to an array or to a plain object with distinct keys that holds such data
    only. *)
Fixpoint represents (h : heap) (v : val) (j : json) : Prop :=
  match j with
  | JNull => v = VNull
  | JBool b => v = VBool b
  | JNum x => v = VNum x ∧ number_to_json x = JNum x
  | JStr s => v = VStr s
  | JArr js =>
      ∃ l es, v = VRef l ∧ h !! l = Some (Arr es) ∧ represents_items h es js
  | JObj ms =>
      ∃ l ps, v = VRef l ∧ h !! l = Some (Obj ps) ∧ NoDup ps.*1 ∧
              represents_members h ps ms
  end
with represents_items (h : heap) (es : list val) (js : jitems) : Prop :=
  match js with
  | INil => es = []
  | ICons j js' =>
      ∃ v es', es = v :: es' ∧ represents h v j ∧ represents_items h es' js'
  end
with represents_members (h : heap) (ps : list (string * val)) (ms : jmembers)
  : Prop :=
  match ms with
  | MNil => ps = []
  | MCons k j ms' =>
      ∃ v ps', ps = (k, v) :: ps' ∧ represents h v j ∧ represents_members h ps' ms'
  end.

(** The JSON texts [JSON.stringify] writes: numbers are finite and not minus
    zero, and the keys of an object are distinct. *)
Fixpoint normal (j : json) : Prop :=
  match j with
  | JNum x => number_to_json x = JNum x
  | JArr js => normal_items js
  | JObj ms => NoDup (mkeys ms) ∧ normal_members ms
  | _ => True
  end
with normal_items (js : jitems) : Prop :=
  match js with
  | INil => True
  | ICons j js' => normal j ∧ normal_items js'
  end
with normal_members (ms : jmembers) : Prop :=
  match ms with
  | MNil => True
  | MCons _ j ms' => normal j ∧ normal_members ms'
  end.


(** *** Serialization reads only the cells it reaches *)




(** *** The recursion budget is never exhausted *)

Lemma serialize_props_fuel (ser : val → result (option json)) ps :
  (∀ v, ser v ≠ OutOfFuel) → serialize_props ser ps ≠ OutOfFuel.
Proof.
  intros Hser. induction ps as [|[k v] ps IH]; simpl; [done|].
  specialize (Hser v). destruct (ser v) as [[j|]|e| | |f0 t0]; try done.
  by destruct (serialize_props ser ps).
Qed.

Lemma serialize_elems_fuel (ser : val → result (option json)) es :
  (∀ v, ser v ≠ OutOfFuel) → serialize_elems ser es ≠ OutOfFuel.
Proof.
  intros Hser. induction es as [|v es IH]; simpl; [done|].
  specialize (Hser v). destruct (ser v) as [o|e| | |f0 t0]; try done.
  by destruct (serialize_elems ser es).
Qed.

Lemma stack_bound (h : heap) (stack : list loc) :
  NoDup stack → (∀ l, l ∈ stack → l ∈ dom h) → length stack ≤ size h.
Proof.
  intros Hnd Hsub. rewrite <- size_dom, <- (size_list_to_set (C := gset loc)) by done.
  apply subseteq_size. intros l Hl. apply Hsub. by apply elem_of_list_to_set in Hl.
Qed.

Lemma serialize_fuel fuel h stack v :
  NoDup stack → (∀ l, l ∈ stack → l ∈ dom h) → size h ≤ length stack + fuel →
  serialize fuel h stack v ≠ OutOfFuel.
Proof.
  revert stack v. induction fuel as [|fuel IH]; intros stack v Hnd Hsub Hsize;
    destruct v as [| | | | | |l|b]; try done; try (by destruct b).
  - rewrite serialize_ref. destruct (h !! l) as [o|] eqn:Hl; [|done].
    destruct (toJSON_of o); [done|].
    destruct (decide (l ∈ stack)) as [|Hout]; [done|].
    assert (length (l :: stack) ≤ size h); [|simpl in *; lia].
    apply stack_bound; [by apply NoDup_cons|].
    intros l' [->|Hl']%elem_of_cons; [apply elem_of_dom; by eexists | by apply Hsub].
  - rewrite serialize_ref. destruct (h !! l) as [o|] eqn:Hl; [|done].
    destruct (toJSON_of o); [done|].
    destruct (decide (l ∈ stack)) as [|Hout]; [done|].
    assert (Hrec : ∀ v, serialize fuel h (l :: stack) v ≠ OutOfFuel).
    { intros v. apply IH; [by apply NoDup_cons| |simpl; lia].
      intros l' [->|Hl']%elem_of_cons; [apply elem_of_dom; by eexists | by apply Hsub]. }
    destruct o as [ps|es].
    + pose proof (serialize_props_fuel _ ps Hrec). by destruct (serialize_props _ ps).
    + pose proof (serialize_elems_fuel _ es Hrec). by destruct (serialize_elems _ es).
Qed.

(** [JSON.stringify] always ends. *)
Lemma stringify_total h v : stringify h v ≠ OutOfFuel.
Proof.
  apply serialize_fuel; [apply NoDup_nil_2 | by intros l ?%elem_of_nil | simpl; lia].
Qed.

(** *** Parsing allocates, and touches nothing that exists *)

Lemma agree_dom (h h' : heap) : agree (dom h) h h' → dom h ⊆ dom h'.
Proof.
  intros Hag l Hl. apply elem_of_dom. rewrite (Hag l Hl). by apply elem_of_dom.
Qed.

Lemma agree_trans (h h1 h2 : heap) :
  agree (dom h) h h1 → agree (dom h1) h1 h2 → agree (dom h) h h2.
Proof.
  intros H1 H2 l Hl. rewrite H2, H1; [done|done|]. by apply (agree_dom h h1).
Qed.

Lemma agree_alloc (h : heap) o : agree (dom h) h (<[fresh (dom h) := o]> h).
Proof.
  intros l Hl. apply lookup_insert_ne. intros <-. by apply (is_fresh (dom h)).
Qed.

Lemma sealed_alloc D (h : heap) o :
  D ⊆ dom h → sealed D h → Forall (outside D) (obj_vals o) →
  sealed D (<[fresh (dom h) := o]> h).
Proof.
  intros HD Hs Ho l o' Hl. destruct (decide (fresh (dom h) = l)) as [<-|Hne].
  - rewrite lookup_insert_eq. by intros [= <-].
  - rewrite lookup_insert_ne by done. by apply Hs.
Qed.

Lemma outside_fresh D (h : heap) : D ⊆ dom h → outside D (VRef (fresh (dom h))).
Proof. intros HD Hin. apply (is_fresh (dom h)). by apply HD. Qed.

Lemma prop_store_outside D k v ps :
  outside D v → Forall (outside D) ps.*2 → Forall (outside D) (prop_store k v ps).*2.
Proof.
  intros Hv. induction ps as [|[k' v'] ps IH]; simpl; intros Hps.
  - by apply Forall_cons.
  - apply Forall_cons in Hps as [Hv' Hps].
    destruct (decide (k = k')); simpl; apply Forall_cons; auto.
Qed.

Lemma parse_spec :
  (∀ j h D h1 v, D ⊆ dom h → sealed D h → parse j h = (h1, v) →
     agree (dom h) h h1 ∧ outside D v ∧ sealed D h1) ∧
  (∀ js h D h1 vs, D ⊆ dom h → sealed D h → parse_items js h = (h1, vs) →
     agree (dom h) h h1 ∧ Forall (outside D) vs ∧ sealed D h1) ∧
  (∀ ms h D acc h1 ps, D ⊆ dom h → sealed D h → Forall (outside D) acc.*2 →
     parse_members ms h acc = (h1, ps) →
     agree (dom h) h h1 ∧ Forall (outside D) ps.*2 ∧ sealed D h1).
Proof.
  apply json_mutind.
  - intros h D h1 v _ Hs [= <- <-]. done.
  - intros b h D h1 v _ Hs [= <- <-]. done.
  - intros x h D h1 v _ Hs [= <- <-]. done.
  - intros x h D h1 v _ Hs [= <- <-]. done.
  - intros js IH h D h1 v HD Hs. simpl.
    destruct (parse_items js h) as [h' es] eqn:Hjs. intros [= <- <-].
    destruct (IH _ _ _ _ HD Hs Hjs) as (Hag & Hes & Hs').
    assert (HD' : D ⊆ dom h') by (etrans; [done | by apply agree_dom]).
    split_and!.
    + eapply agree_trans; [done | apply agree_alloc].
    + by apply outside_fresh.
    + by apply sealed_alloc.
  - intros ms IH h D h1 v HD Hs. simpl.
    destruct (parse_members ms h []) as [h' ps] eqn:Hms. intros [= <- <-].
    destruct (IH _ _ [] _ _ HD Hs (Forall_nil_2 _) Hms) as (Hag & Hps & Hs').
    assert (HD' : D ⊆ dom h') by (etrans; [done | by apply agree_dom]).
    split_and!.
    + eapply agree_trans; [done | apply agree_alloc].
    + by apply outside_fresh.
    + by apply sealed_alloc.
  - intros h D h1 vs _ Hs [= <- <-]. done.
  - intros j IHj js IHjs h D h1 vs HD Hs. simpl.
    destruct (parse j h) as [h' v] eqn:Hj.
    destruct (parse_items js h') as [h'' vs'] eqn:Hjs. intros [= <- <-].
    destruct (IHj _ _ _ _ HD Hs Hj) as (Hag & Hv & Hs').
    assert (HD' : D ⊆ dom h') by (etrans; [done | by apply agree_dom]).
    destruct (IHjs _ _ _ _ HD' Hs' Hjs) as (Hag' & Hvs & Hs'').
    split_and!; [by eapply agree_trans | by apply Forall_cons | done].
  - intros h D acc h1 ps _ Hs Hacc [= <- <-]. done.
  - intros k j IHj ms IHms h D acc h1 ps HD Hs Hacc. simpl.
    destruct (parse j h) as [h' v] eqn:Hj. intros Hms.
    destruct (IHj _ _ _ _ HD Hs Hj) as (Hag & Hv & Hs').
    assert (HD' : D ⊆ dom h') by (etrans; [done | by apply agree_dom]).
    destruct (IHms _ _ _ _ _ HD' Hs' (prop_store_outside _ k _ _ Hv Hacc) Hms)
      as (Hag' & Hps & Hs'').
    split_and!; [by eapply agree_trans | done | done].
Qed.



(** *** JSON data is serialized to itself *)

Lemma represents_inj h :
  (∀ j v j', represents h v j → represents h v j' → j = j') ∧
  (∀ js es js', represents_items h es js → represents_items h es js' → js = js') ∧
  (∀ ms ps ms', represents_members h ps ms → represents_members h ps ms' → ms = ms').
Proof.
  apply json_mutind.
  - intros v [] H1 H2; simpl in *; subst; try done;
      try (by destruct H2); by destruct H2 as (? & ? & ? & _).
  - intros b v [] H1 H2; simpl in *; subst; try done;
      try (by destruct H2); try (by destruct H2 as (? & ? & ? & _)). congruence.
  - intros x v [] [-> Hx] H2; simpl in *; try done;
      try (by destruct H2 as (? & ? & ? & _)). destruct H2 as [[= ->] _]. done.
  - intros x v [] H1 H2; simpl in *; subst; try done;
      try (by destruct H2); try (by destruct H2 as (? & ? & ? & _)). congruence.
  - intros js IH v [] (l & es & -> & Hl & Hes) H2; simpl in *; try done;
      try (by destruct H2).
    + destruct H2 as (l' & es' & [= <-] & Hl' & Hes'). f_equal.
      rewrite Hl in Hl'. injection Hl' as <-. by eapply IH.
    + destruct H2 as (l' & ps' & [= <-] & Hl' & _). congruence.
  - intros ms IH v [] (l & ps & -> & Hl & Hnd & Hps) H2; simpl in *; try done;
      try (by destruct H2).
    + destruct H2 as (l' & es' & [= <-] & Hl' & _). congruence.
    + destruct H2 as (l' & ps' & [= <-] & Hl' & _ & Hps'). f_equal.
      rewrite Hl in Hl'. injection Hl' as <-. by eapply IH.
  - intros es [] -> H2; simpl in *; [done|]. by destruct H2 as (? & ? & ? & _).
  - intros j IHj js IHjs es [|j' js'] (v & es' & -> & Hv & Hes) H2; simpl in *; [done|].
    destruct H2 as (v' & es'' & [= <- <-] & Hv' & Hes').
    f_equal; [by eapply IHj | by eapply IHjs].
  - intros ps [] -> H2; simpl in *; [done|]. by destruct H2 as (? & ? & ? & _).
  - intros k j IHj ms IHms ps [|k' j' ms'] (v & ps' & -> & Hv & Hps) H2;
      simpl in *; [done|].
    destruct H2 as (v' & ps'' & [= <- <- <-] & Hv' & Hps').
    f_equal; [by eapply IHj | by eapply IHms].
Qed.

Lemma jsize_pos j : 0 < jsize j.
Proof. destruct j; simpl; lia. Qed.

(** JSON data holds no function, so no [toJSON] method. *)
Lemma represents_not_callable h v j : represents h v j → callable v = false.
Proof.
  destruct j; simpl; try (by intros ->); try (by intros [-> _]).
  - by intros (l & es & -> & _).
  - by intros (l & ps & -> & _).
Qed.

Lemma represents_members_value h ps ms k v :
  represents_members h ps ms → prop_lookup k ps = Some v → ∃ j, represents h v j.
Proof.
  revert ps. induction ms as [|k' j ms IH]; intros ps; simpl.
  - by intros ->.
  - intros (v' & ps' & -> & Hv' & Hms). simpl.
    destruct (decide (k = k')); [intros [= <-]; by eauto | by apply IH].
Qed.

Lemma represents_members_toJSON h ps ms :
  represents_members h ps ms → toJSON_of (Obj ps) = None.
Proof.
  intros Hms. unfold toJSON_of.
  destruct (prop_lookup "toJSON" ps) as [f|] eqn:Hf; [|done].
  destruct (represents_members_value _ _ _ _ _ Hms Hf) as [j Hj].
  by rewrite (represents_not_callable _ _ _ Hj).
Qed.

(** With the objects of [stack] all properly containing the data at hand,
    serialization of JSON data meets no cycle. *)
Lemma serialize_represents h :
  (∀ j v fuel stack, represents h v j →
     (∀ l, l ∈ stack → ∃ j', represents h (VRef l) j' ∧ jsize j < jsize j') →
     serialize fuel h stack v = OutOfFuel ∨
     serialize fuel h stack v = Done (Some j)) ∧
  (∀ js es fuel stack, represents_items h es js →
     (∀ l, l ∈ stack → ∃ j', represents h (VRef l) j' ∧ isize js < jsize j') →
     serialize_elems (serialize fuel h stack) es = OutOfFuel ∨
     serialize_elems (serialize fuel h stack) es = Done js) ∧
  (∀ ms ps fuel stack, represents_members h ps ms →
     (∀ l, l ∈ stack → ∃ j', represents h (VRef l) j' ∧ msize ms < jsize j') →
     serialize_props (serialize fuel h stack) ps = OutOfFuel ∨
     serialize_props (serialize fuel h stack) ps = Done ms).
Proof.
  apply json_mutind.
  - intros v fuel stack -> _. right. by destruct fuel.
  - intros b v fuel stack -> _. right. by destruct fuel.
  - intros x v fuel stack [-> Hx] _. right. destruct fuel; simpl; by rewrite Hx.
  - intros x v fuel stack -> _. right. by destruct fuel.
  - intros js IH v fuel stack (l & es & -> & Hl & Hes) Hstack.
    assert (Hout : l ∉ stack).
    { intros Hin. destruct (Hstack l Hin) as (j' & Hj' & Hlt).
      assert (j' = JArr js); [|subst; lia].
      eapply represents_inj; [done|]. simpl. eauto. }
    rewrite serialize_ref, Hl. simpl. rewrite decide_False by done.
    destruct fuel as [|fuel]; [by left|].
    destruct (IH es fuel (l :: stack) Hes) as [-> | ->]; [|by left|by right].
    intros l' [->|Hl']%elem_of_cons.
    + exists (JArr js). split; [simpl; eauto | simpl; lia].
    + destruct (Hstack l' Hl') as (j' & Hj' & Hlt). exists j'. simpl in Hlt.
      split; [done | lia].
  - intros ms IH v fuel stack (l & ps & -> & Hl & Hnd & Hps) Hstack.
    assert (Hout : l ∉ stack).
    { intros Hin. destruct (Hstack l Hin) as (j' & Hj' & Hlt).
      assert (j' = JObj ms); [|subst; lia].
      eapply represents_inj; [done|]. simpl. eauto 6. }
    rewrite serialize_ref, Hl, (represents_members_toJSON _ _ _ Hps).
    rewrite decide_False by done.
    destruct fuel as [|fuel]; [by left|].
    destruct (IH ps fuel (l :: stack) Hps) as [-> | ->]; [|by left|by right].
    intros l' [->|Hl']%elem_of_cons.
    + exists (JObj ms). split; [simpl; eauto 6 | simpl; lia].
    + destruct (Hstack l' Hl') as (j' & Hj' & Hlt). exists j'. simpl in Hlt.
      split; [done | lia].
  - intros es fuel stack -> _. by right.
  - intros j IHj js IHjs es fuel stack (v & es' & -> & Hv & Hes) Hstack. simpl.
    destruct (IHj v fuel stack Hv) as [-> | ->]; [|by left|].
    { intros l Hl. destruct (Hstack l Hl) as (j' & Hj' & Hlt). exists j'.
      simpl in Hlt. split; [done | lia]. }
    destruct (IHjs es' fuel stack Hes) as [-> | ->]; [|by left|by right].
    intros l Hl. destruct (Hstack l Hl) as (j' & Hj' & Hlt). exists j'.
    simpl in Hlt. split; [done | lia].
  - intros ps fuel stack -> _. by right.
  - intros k j IHj ms IHms ps fuel stack (v & ps' & -> & Hv & Hps) Hstack. simpl.
    destruct (IHj v fuel stack Hv) as [-> | ->]; [|by left|].
    { intros l Hl. destruct (Hstack l Hl) as (j' & Hj' & Hlt). exists j'.
      simpl in Hlt. split; [done | lia]. }
    destruct (IHms ps' fuel stack Hps) as [-> | ->]; [|by left|by right].
    intros l Hl. destruct (Hstack l Hl) as (j' & Hj' & Hlt). exists j'.
    simpl in Hlt. split; [done | lia].
Qed.

(** [JSON.stringify] of JSON data gives that data. *)
Lemma stringify_represents h v j : represents h v j → stringify h v = Done (Some j).
Proof.
  intros Hv. destruct (proj1 (serialize_represents h) j v (size h) [] Hv) as [Hf|Hd].
  - by intros l ?%elem_of_nil.
  - by apply stringify_total in Hf.
  - done.
Qed.

(** *** Parsing a text builds the data it denotes *)

Lemma represents_agree h h' :
  agree (dom h) h h' →
  (∀ j v, represents h v j → represents h' v j) ∧
  (∀ js es, represents_items h es js → represents_items h' es js) ∧
  (∀ ms ps, represents_members h ps ms → represents_members h' ps ms).
Proof.
  intros Hag. apply json_mutind; simpl; try done.
  - intros js IH v (l & es & -> & Hl & Hes). exists l, es. split_and!; [done| |auto].
    rewrite Hag; [done|]. apply elem_of_dom. by eexists.
  - intros ms IH v (l & ps & -> & Hl & Hnd & Hps). exists l, ps.
    split_and!; [done| |done|auto].
    rewrite Hag; [done|]. apply elem_of_dom. by eexists.
  - intros j IHj js IHjs es (v & es' & -> & Hv & Hes). exists v, es'. auto.
  - intros k j IHj ms IHms ps (v & ps' & -> & Hv & Hps). exists v, ps'. auto.
Qed.

Lemma sealed_empty (h : heap) : sealed ∅ h.
Proof.
  intros l o _ _. apply Forall_forall. intros v _.
  destruct v; simpl; first [done | apply not_elem_of_empty].
Qed.

Lemma parse_agree j h h1 v : parse j h = (h1, v) → agree (dom h) h h1.
Proof.
  intros Hp. eapply (proj1 parse_spec j h ∅); [apply empty_subseteq | apply sealed_empty | done].
Qed.

Lemma prop_store_fresh k v ps : k ∉ ps.*1 → prop_store k v ps = ps ++ [(k, v)].
Proof.
  induction ps as [|[k' v'] ps IH]; simpl; [done|].
  intros [Hne Hk]%not_elem_of_cons. rewrite decide_False by done. by rewrite IH.
Qed.

Lemma represents_members_snoc h ps ms k v j :
  represents_members h ps ms → represents h v j →
  represents_members h (ps ++ [(k, v)]) (mapp ms (MCons k j MNil)).
Proof.
  revert ps. induction ms as [|k' j' ms IH]; simpl; intros ps Hps Hv.
  - subst. simpl. by exists v, [].
  - destruct Hps as (v' & ps' & -> & Hv' & Hps'). exists v', (ps' ++ [(k, v)]).
    split_and!; [done|done|by apply IH].
Qed.

Lemma mapp_snoc ms1 k j ms2 :
  mapp (mapp ms1 (MCons k j MNil)) ms2 = mapp ms1 (MCons k j ms2).
Proof. induction ms1 as [|k' j' ms1 IH]; simpl; [done | by rewrite IH]. Qed.

Lemma represents_members_keys h ps ms : represents_members h ps ms → ps.*1 = mkeys ms.
Proof.
  revert ps. induction ms as [|k j ms IH]; simpl; intros ps Hps; [by subst|].
  destruct Hps as (v & ps' & -> & _ & Hps'). simpl. f_equal. by apply IH.
Qed.

Lemma parse_represents :
  (∀ j h h1 v, normal j → parse j h = (h1, v) → represents h1 v j) ∧
  (∀ js h h1 vs, normal_items js → parse_items js h = (h1, vs) →
     represents_items h1 vs js) ∧
  (∀ ms h acc macc h1 ps, normal_members ms → NoDup (acc.*1 ++ mkeys ms) →
     represents_members h acc macc → parse_members ms h acc = (h1, ps) →
     represents_members h1 ps (mapp macc ms)).
Proof.
  apply json_mutind.
  - by intros h h1 v _ [= <- <-].
  - by intros b h h1 v _ [= <- <-].
  - by intros x h h1 v Hx [= <- <-].
  - by intros x h h1 v _ [= <- <-].
  - intros js IH h h1 v Hn. simpl.
    destruct (parse_items js h) as [h' es] eqn:Hjs. intros [= <- <-].
    exists (fresh (dom h')), es. rewrite lookup_insert_eq. split_and!; [done|done|].
    eapply (represents_agree h'); [apply agree_alloc | by eapply IH].
  - intros ms IH h h1 v [Hnd Hn]. simpl.
    destruct (parse_members ms h []) as [h' ps] eqn:Hms. intros [= <- <-].
    assert (Hps : represents_members h' ps ms).
    { apply (IH h [] MNil h' ps); done. }
    exists (fresh (dom h')), ps. rewrite lookup_insert_eq. split_and!; [done|done| |].
    + by rewrite (represents_members_keys _ _ _ Hps).
    + eapply (represents_agree h'); [apply agree_alloc | done].
  - by intros h h1 vs _ [= <- <-].
  - intros j IHj js IHjs h h1 vs [Hnj Hnjs]. simpl.
    destruct (parse j h) as [h' v] eqn:Hj.
    destruct (parse_items js h') as [h'' vs'] eqn:Hjs. intros [= <- <-].
    exists v, vs'. split_and!; [done| |by eapply IHjs].
    eapply (represents_agree h'); [by eapply (proj1 (proj2 parse_spec) js h' ∅);
      [apply empty_subseteq | apply sealed_empty | done] | by eapply IHj].
  - intros h acc macc h1 ps _ _ Hacc [= <- <-]. simpl.
    clear -Hacc. revert acc Hacc. induction macc as [|k j macc IH]; simpl; [done|].
    intros acc (v & ps' & -> & Hv & Hps). exists v, ps'. auto.
  - intros k j IHj ms IHms h acc macc h1 ps [Hnj Hnms] Hnd Hacc. simpl.
    destruct (parse j h) as [h' v] eqn:Hj. intros Hms.
    simpl in Hnd. apply NoDup_app in Hnd as (Hnd1 & Hdisj & Hnd2).
    apply NoDup_cons in Hnd2 as [Hk Hnd2].
    assert (Hfresh : k ∉ acc.*1).
    { intros Hin. apply (Hdisj k Hin). by left. }
    rewrite prop_store_fresh in Hms by done.
    rewrite <- mapp_snoc. eapply IHms; [done| | |done].
    + rewrite fmap_app. simpl. rewrite <- app_assoc. simpl.
      apply NoDup_app. split_and!; [done| |by apply NoDup_cons].
      intros k' Hk'. by apply Hdisj.
    + apply represents_members_snoc; [|by eapply IHj].
      eapply (represents_agree h); [by eapply parse_agree | done].
Qed.

Lemma represents_normal h :
  (∀ j v, represents h v j → normal j) ∧
  (∀ js es, represents_items h es js → normal_items js) ∧
  (∀ ms ps, represents_members h ps ms → normal_members ms).
Proof.
  apply json_mutind; simpl; try done.
  - by intros x v [_ Hx].
  - intros js IH v (l & es & _ & _ & Hes). eauto.
  - intros ms IH v (l & ps & _ & _ & Hnd & Hps).
    rewrite <- (represents_members_keys _ _ _ Hps). eauto.
  - intros j IHj js IHjs es (v & es' & _ & Hv & Hes). eauto.
  - intros k j IHj ms IHms ps (v & ps' & _ & Hv & Hps). eauto.
Qed.

(** *** The only exception is the TypeError of a cycle *)





(** *** Heaps without dangling references *)

Lemma serialize_props_allocated (ser : val → result (option json)) ps :
  (∀ v, v ∈ ps.*2 → ser v ≠ Unallocated) → serialize_props ser ps ≠ Unallocated.
Proof.
  induction ps as [|[k v] ps IH]; simpl; intros Hser; [done|].
  pose proof (Hser v (list_elem_of_here _ _)) as Hv.
  assert (Hps : serialize_props ser ps ≠ Unallocated).
  { apply IH. intros v' Hv'. apply Hser. by right. }
  destruct (ser v) as [[j|]|e| | |f0 t0]; try done. by destruct (serialize_props ser ps).
Qed.

Lemma serialize_elems_allocated (ser : val → result (option json)) es :
  (∀ v, v ∈ es → ser v ≠ Unallocated) → serialize_elems ser es ≠ Unallocated.
Proof.
  induction es as [|v es IH]; simpl; intros Hser; [done|].
  pose proof (Hser v (list_elem_of_here _ _)) as Hv.
  assert (Hes : serialize_elems ser es ≠ Unallocated).
  { apply IH. intros v' Hv'. apply Hser. by right. }
  destruct (ser v) as [o|e| | |f0 t0]; try done. by destruct (serialize_elems ser es).
Qed.

Lemma serialize_allocated fuel h stack v :
  closed h → (∀ l, v = VRef l → is_Some (h !! l)) →
  serialize fuel h stack v ≠ Unallocated.
Proof.
  intros Hcl. revert stack v. induction fuel as [|fuel IH]; intros stack v Hv;
    destruct v as [| | | | | |l|b]; try done; try (by destruct b).
  - rewrite serialize_ref. destruct (Hv l eq_refl) as [o Ho]. rewrite Ho.
    destruct (toJSON_of o); [done|]. by destruct (decide (l ∈ stack)).
  - rewrite serialize_ref. destruct (Hv l eq_refl) as [o Ho]. rewrite Ho.
    destruct (toJSON_of o); [done|]. destruct (decide (l ∈ stack)); [done|].
    assert (Hrec : ∀ v, v ∈ obj_vals o → serialize fuel h (l :: stack) v ≠ Unallocated).
    { intros v Hin. apply IH. intros l' ->. by eapply Hcl. }
    destruct o as [ps|es].
    + pose proof (serialize_props_allocated _ ps Hrec). by destruct (serialize_props _ ps).
    + pose proof (serialize_elems_allocated _ es Hrec). by destruct (serialize_elems _ es).
Qed.

(** *** What is written for the members of an object *)

(** The member of an object of a JSON text that a key names. *)
Fixpoint mlookup (k : string) (ms : jmembers) : option json :=
  match ms with
  | MNil => None
  | MCons k' j ms' => if decide (k = k') then Some j else mlookup k ms'
  end.




Lemma serialize_props_keys (ser : val → result (option json)) ps ms :
  serialize_props ser ps = Done ms → mkeys ms `sublist_of` ps.*1.
Proof.
  revert ms. induction ps as [|[k0 v0] ps IH]; intros ms; simpl.
  - by intros [= <-].
  - destruct (ser v0) as [[j0|]|e| | |f0 t0]; try done.
    + destruct (serialize_props ser ps) as [ms'| | | |f0 t0]; try done.
      intros [= <-]. simpl. apply sublist_skip. by apply IH.
    + intros Hms. apply sublist_cons. by apply IH.
Qed.

(** A member whose value is written is written under its key. *)
Lemma serialize_props_lookup (ser : val → result (option json)) ps ms k v j :
  serialize_props ser ps = Done ms →
  prop_lookup k ps = Some v → ser v = Done (Some j) →
  mlookup k ms = Some j.
Proof.
  revert ms. induction ps as [|[k0 v0] ps IH]; intros ms; simpl; [done|].
  destruct (decide (k = k0)) as [->|Hne].
  - intros Hms [= ->] Hv. rewrite Hv in Hms.
    destruct (serialize_props ser ps) as [ms'| | | |f0 t0]; try done.
    injection Hms as <-. simpl. by rewrite decide_True.
  - intros Hms Hk Hv. destruct (ser v0) as [[j0|]|e| | |f0 t0]; try done.
    + destruct (serialize_props ser ps) as [ms'| | | |f0 t0]; try done.
      injection Hms as <-. simpl. rewrite decide_False by done. by apply IH.
    + by apply IH.
Qed.


Lemma parse_members_keeps ms h acc h1 ps k :
  k ∉ mkeys ms → parse_members ms h acc = (h1, ps) →
  prop_lookup k ps = prop_lookup k acc.
Proof.
  revert h acc. induction ms as [|k0 j0 ms IH]; intros h acc; simpl.
  - by intros _ [= <- <-].
  - intros [Hne Hk]%not_elem_of_cons. destruct (parse j0 h) as [h0 v0].
    intros Hp. rewrite (IH _ _ Hk Hp). apply prop_lookup_store_ne. congruence.
Qed.


(** *** Reference cycles *)


Lemma reach_member h l o v l' :
  h !! l = Some o → v ∈ obj_vals o → reach h v l' → reach h (VRef l) l'.
Proof. apply reach_step. Qed.








(** [JSON.stringify] calls a [toJSON] method only of a cell that holds
    one. *)
Lemma serialize_props_calls (ser : val → result (option json)) ps f this :
  serialize_props ser ps = Calls f this → ∃ v, v ∈ ps.*2 ∧ ser v = Calls f this.
Proof.
  induction ps as [|[k0 v0] ps IH]; simpl; [done|].
  destruct (ser v0) as [[j0|]|e| | |f0 t0] eqn:Hv0; try done.
  - destruct (serialize_props ser ps) as [ms'| | | |f1 t1]; try done.
    intros [= <- <-]. destruct IH as (v & Hin & Hv); [done|].
    exists v. split; [by right | done].
  - intros Hps. destruct (IH Hps) as (v & Hin & Hv). exists v. split; [by right | done].
  - intros [= <- <-]. exists v0. split; [by left | done].
Qed.

Lemma serialize_elems_calls (ser : val → result (option json)) es f this :
  serialize_elems ser es = Calls f this → ∃ v, v ∈ es ∧ ser v = Calls f this.
Proof.
  induction es as [|v0 es IH]; simpl; [done|].
  destruct (ser v0) as [o|e| | |f0 t0] eqn:Hv0; try done.
  - destruct (serialize_elems ser es) as [js'| | | |f1 t1]; try done.
    intros [= <- <-]. destruct IH as (v & Hin & Hv); [done|].
    exists v. split; [by right | done].
  - intros [= <- <-]. exists v0. split; [by left | done].
Qed.

Lemma serialize_calls fuel h stack v f this :
  serialize fuel h stack v = Calls f this →
  ∃ l o, this = VRef l ∧ reach h v l ∧ h !! l = Some o ∧ toJSON_of o = Some f.
Proof.
  revert stack v. induction fuel as [|fuel IH]; intros stack v;
    destruct v as [| | | | | |l|b]; try done; try (by destruct b);
    rewrite serialize_ref; destruct (h !! l) as [o|] eqn:Hl; try done;
    destruct (toJSON_of o) as [f0|] eqn:Hf;
    try (intros [= <- <-]; exists l, o; split_and!; [done | constructor | done | done]);
    (destruct (decide (l ∈ stack)); [done|]); [done|].
  destruct o as [ps|es].
  - destruct (serialize_props _ ps) as [ms|e'| | |f1 t1] eqn:Hps; try done.
    intros [= -> ->]. apply serialize_props_calls in Hps as (v & Hin & Hv).
    destruct (IH _ _ Hv) as (l' & o' & -> & Hr & Hl' & Hf').
    exists l', o'. split_and!; try done. by eapply reach_step.
  - destruct (serialize_elems _ es) as [js|e'| | |f1 t1] eqn:Hes; try done.
    intros [= -> ->]. apply serialize_elems_calls in Hes as (v & Hin & Hv).
    destruct (IH _ _ Hv) as (l' & o' & -> & Hr & Hl' & Hf').
    exists l', o'. split_and!; try done. by eapply reach_step.
Qed.

End JSON.

(** ** The state store (class [Store]) *)

Module Store.
Import JS JSON.

(** What a callback is called with.  Middleware receives the object
    [{key, oldValue, newValue, state}]; a subscriber on a key receives
    [(newValue, oldValue)]; a subscriber on ['*'] receives the state object
    itself and either the key ([setState]) or [Object.keys(updates)]
    ([batchUpdate]). *)
Inductive call_args :=
| MiddlewareArgs (key : string) (oldValue newValue : val) (state : val)
| ListenerArgs (newValue oldValue : val)
| GlobalArgs (state : val) (key : string)
| GlobalBatchArgs (state : val) (keys : list string).

Record event := Call { callee : fn; passed : call_args }.

(** The heap together with the record of the callback invocations made so
    far, oldest first. *)
Record world := World { mem : heap; log : list event }.

(** A JavaScript [Set] of functions: insertion ordered, no duplicates. *)
Definition Set_add (f : fn) (s : list fn) : list fn :=
  if decide (f ∈ s) then s else s ++ [f].

Definition Set_delete (f : fn) (s : list fn) : list fn :=
  filter (λ g, g ≠ f) s.

(** The instance fields set up by the constructor. *)
Record t := Make {
  _state : loc;
  _listeners : gmap string (list fn);
  _middlewares : list fn
}.

(** [constructor(initialState = {})]: the state object is the caller's
    object, not a copy of it. *)
Definition constructor (initialState : loc) : t :=
  {| _state := initialState; _listeners := ∅; _middlewares := [] |}.

(** The closure returned by [subscribe]: it captures [key] and [callback]. *)
Record disposer := Disposer { d_key : string; d_callback : fn }.

(** [subscribe(key, callback)] *)
Definition subscribe (key : string) (callback : fn) (this : t) : t * disposer :=
  let m :=
    if decide (is_Some (_listeners this !! key)) then _listeners this
    else <[key := []]> (_listeners this) in
  ({| _state := _state this;
      _listeners := alter (Set_add callback) key m;
      _middlewares := _middlewares this |},
   Disposer key callback).

(** Calling the closure: [this._listeners.get(key).delete(callback)].  Were
    the key absent from the map, [get] would return [undefined] and the
    method call on it would throw a TypeError. *)
Definition dispose (d : disposer) (this : t) : completion t :=
  match _listeners this !! d_key d with
  | None => Abrupt TypeError
  | Some s =>
      Normal {| _state := _state this;
                _listeners := <[d_key d := Set_delete (d_callback d) s]> (_listeners this);
                _middlewares := _middlewares this |}
  end.

(** [use(middleware)] *)
Definition use (middleware : fn) (this : t) : t :=
  {| _state := _state this;
     _listeners := _listeners this;
     _middlewares := _middlewares this ++ [middleware] |}.


(** The subscribers of a key, in the order [forEach] visits them; none when
    the map has no entry for the key. *)
Definition listeners_of (this : t) (key : string) : list fn :=
  default [] (_listeners this !! key).

Section Host.

(** The host's functions: what running function [f] on given arguments does
    to the heap, and whether it throws.  This is the store for callbacks that
    do not call its methods while it is notifying, and for keys under which
    [Object.prototype] has nothing ([read] and [write] are on own
    properties).  [LiveStore] below is the store without these two
    restrictions; [LiveStore.setState_agrees] and
    [LiveStore.batchUpdate_agrees] show that it is this one where they
    hold. *)
Variable host : fn → call_args → heap → heap * option exn.

Definition M (A : Type) : Type := world → world * completion A.

Definition ret {A} (a : A) : M A := λ w, (w, Normal a).

Definition bind {A B} (m : M A) (k : A → M B) : M B :=
  λ w, match m w with
       | (w', Normal a) => k a w'
       | (w', Abrupt e) => (w', Abrupt e)
       end.

Notation "'let!' x ':=' m 'in' k" := (bind m (λ x, k))
  (at level 10, x name, m at level 100, k at level 200).
Notation "m >> k" := (bind m (λ _, k))
  (at level 100, k at level 200, right associativity).

Definition read (l : loc) (k : string) : M val :=
  λ w, (w, Normal (get_prop (mem w) l k)).

Definition write (l : loc) (k : string) (v : val) : M unit :=
  λ w, (World (set_prop (mem w) l k v) (log w), Normal tt).

(** Calling a function value: the call is recorded, then the host code runs. *)
Definition call (f : fn) (a : call_args) : M unit :=
  λ w, let '(h, r) := host f a (mem w) in
       (World h (log w ++ [Call f a]),
        match r with None => Normal tt | Some e => Abrupt e end).

(** [xs.forEach(body)] *)
Fixpoint forEach {A} (xs : list A) (body : A → M unit) : M unit :=
  match xs with
  | [] => ret tt
  | x :: xs' => body x >> forEach xs' body
  end.

(** [setState(key, value)] *)
Definition setState (this : t) (key : string) (value : val) : M unit :=
  let! oldValue := read (_state this) key in
  write (_state this) key value >>
  forEach (_middlewares this) (λ middleware,
    call middleware (MiddlewareArgs key oldValue value (VRef (_state this)))) >>
  match _listeners this !! key with
  | Some s => forEach s (λ callback, call callback (ListenerArgs value oldValue))
  | None => ret tt
  end >>
  match _listeners this !! "*" with
  | Some s => forEach s (λ callback, call callback (GlobalArgs (VRef (_state this)) key))
  | None => ret tt
  end.

(** [batchUpdate(updates)]; [updates] is given as [Object.entries(updates)]. *)
Definition batchUpdate (this : t) (updates : list (string * val)) : M unit :=
  forEach updates (λ '(key, value), write (_state this) key value) >>
  match _listeners this !! "*" with
  | Some s =>
      forEach s (λ callback,
        call callback (GlobalBatchArgs (VRef (_state this)) (updates.*1)))
  | None => ret tt
  end.

(** Reference behaviour: make the given calls one after the other, stopping at
    the first one that throws. *)
Fixpoint notify (calls : list event) : M unit :=
  match calls with
  | [] => ret tt
  | c :: calls' => call (callee c) (passed c) >> notify calls'
  end.

(** The two ways of writing to the state. *)
Inductive update :=
| USet (key : string) (value : val)
| UBatch (updates : list (string * val)).

Definition do_update (this : t) (u : update) : M unit :=
  match u with
  | USet key value => setState this key value
  | UBatch updates => batchUpdate this updates
  end.

(** A sequence of [setState]/[batchUpdate] calls made by the host, one after
    the other, whether or not a callback threw in an earlier one. *)
Definition do_updates (this : t) (us : list update) (w : world) : world :=
  fold_left (λ w u, (do_update this u w).1) us w.

End Host.

(** Every callback set of a store built by the class's methods is free of
    duplicates. *)
Definition wf (this : t) : Prop :=
  ∀ key s, _listeners this !! key = Some s → NoDup s.

(** How often function [f] was called as a subscriber on a key, that is with
    [(newValue, oldValue)]. *)
Definition is_listener_call (f : fn) (e : event) : bool :=
  match passed e with
  | ListenerArgs _ _ => bool_decide (callee e = f)
  | _ => false
  end.

Definition listener_calls (f : fn) (l : list event) : nat :=
  length (List.filter (is_listener_call f) l).

(** How often [f] was called at all. *)
Definition calls_of (f : fn) (l : list event) : nat :=
  length (List.filter (λ e, bool_decide (callee e = f)) l).

Definition is_global_batch_call (e : event) : bool :=
  match passed e with GlobalBatchArgs _ _ => true | _ => false end.

(** The method calls that change the registries of a store. *)
Inductive method :=
| MSubscribe (key : string) (callback : fn)
| MDispose (d : disposer)
| MUse (middleware : fn).

(** A disposer that throws leaves the store as it was. *)
Definition do_method (m : method) (this : t) : t :=
  match m with
  | MSubscribe key callback => (subscribe key callback this).1
  | MDispose d => match dispose d this with Normal s => s | Abrupt _ => this end
  | MUse f => use f this
  end.

Definition do_methods (ms : list method) (this : t) : t :=
  fold_left (λ s m, do_method m s) ms this.

(** The calls the specification wants from [setState(key, value)], in its
    order: every middleware in registration order, then every subscriber on
    [key] in registration order, then every subscriber on ['*']. *)
Definition setState_calls (this : t) (key : string) (oldValue value : val)
  : list event :=
  map (λ m, Call m (MiddlewareArgs key oldValue value (VRef (_state this))))
      (_middlewares this)
  ++ map (λ f, Call f (ListenerArgs value oldValue)) (listeners_of this key)
  ++ map (λ f, Call f (GlobalArgs (VRef (_state this)) key)) (listeners_of this "*").

(** The calls the specification wants from [batchUpdate(updates)]: every
    subscriber on ['*'], with the state and the list of changed keys. *)
Definition batchUpdate_calls (this : t) (updates : list (string * val))
  : list event :=
  map (λ f, Call f (GlobalBatchArgs (VRef (_state this)) (updates.*1)))
      (listeners_of this "*").

(** The state object's cell after the assignments of [batchUpdate]. *)
Definition assign_all (l : loc) (updates : list (string * val)) (h : heap) : heap :=
  fold_left (λ h '(k, v), set_prop h l k v) updates h.

(** A host in which no callback does anything. *)
Definition quiet_host : fn → call_args → heap → heap * option exn :=
  λ _ _ h, (h, None).

(** A store as the application sets it up: a state object with a theme, two
    middleware, two subscribers on ["theme"], one on ["expenses"] and one on
    ['*']. *)
Definition demo_heap : heap :=
  {[ 1%positive := Obj [("theme", VStr "dark"); ("isLoading", VBool false)] ]}.

Definition demo_store : t :=
  do_methods [MUse 10; MUse 11; MSubscribe "theme" 20; MSubscribe "theme" 21;
              MSubscribe "*" 30; MSubscribe "expenses" 40]
             (constructor 1%positive).

(** *** The state object under assignment *)

Lemma assign_all_cons l k v us h :
  assign_all l ((k, v) :: us) h = assign_all l us (set_prop h l k v).
Proof. done. Qed.

Lemma assign_all_is_object l us h : is_object h l → is_object (assign_all l us h) l.
Proof.
  revert h. induction us as [|[k v] us IH]; intros h Hobj; [done|].
  rewrite assign_all_cons. apply IH. by apply set_prop_is_object.
Qed.

Lemma assign_all_other l us h k :
  k ∉ us.*1 → get_prop (assign_all l us h) l k = get_prop h l k.
Proof.
  revert h. induction us as [|[k0 v0] us IH]; intros h Hk; [done|].
  rewrite assign_all_cons. simpl in Hk. apply not_elem_of_cons in Hk as [Hne Hk].
  rewrite IH by done. apply get_set_prop_ne. congruence.
Qed.

Lemma assign_all_lookup l us h k v :
  NoDup (us.*1) → is_object h l → (k, v) ∈ us →
  get_prop (assign_all l us h) l k = v.
Proof.
  revert h. induction us as [|[k0 v0] us IH]; intros h Hnd Hobj Hin.
  - by apply elem_of_nil in Hin.
  - rewrite assign_all_cons. simpl in Hnd. apply NoDup_cons in Hnd as [Hfresh Hnd].
    apply elem_of_cons in Hin as [[= -> ->]|Hin].
    + rewrite assign_all_other by done. by apply get_set_prop_eq.
    + apply IH; [done | by apply set_prop_is_object | done].
Qed.

(** *** Counting calls *)

Lemma listener_calls_app f l1 l2 :
  listener_calls f (l1 ++ l2) = listener_calls f l1 + listener_calls f l2.
Proof. unfold listener_calls. by rewrite List.filter_app, length_app. Qed.

Lemma calls_of_app f l1 l2 : calls_of f (l1 ++ l2) = calls_of f l1 + calls_of f l2.
Proof. unfold calls_of. by rewrite List.filter_app, length_app. Qed.

Lemma listener_calls_prefix f l1 l2 :
  l1 `prefix_of` l2 → listener_calls f l1 ≤ listener_calls f l2.
Proof. intros [k ->]. rewrite listener_calls_app. lia. Qed.

(** Calls whose arguments are not [(newValue, oldValue)] are not subscriber
    calls. *)
Lemma listener_calls_other f (mk : fn → call_args) (fs : list fn) :
  (∀ g, match mk g with ListenerArgs _ _ => False | _ => True end) →
  listener_calls f (map (λ g, Call g (mk g)) fs) = 0.
Proof.
  intros Hmk. induction fs as [|g fs IH]; [done|].
  unfold listener_calls, is_listener_call in *. simpl.
  specialize (Hmk g). destruct (mk g); done.
Qed.

Lemma listener_calls_listeners f a b (fs : list fn) :
  listener_calls f (map (λ g, Call g (ListenerArgs a b)) fs) =
  length (filter (λ g, g = f) fs).
Proof.
  induction fs as [|g fs IH]; [done|].
  unfold listener_calls, is_listener_call in *. simpl.
  rewrite filter_cons. destruct (decide (g = f)) as [->|Hne].
  - rewrite bool_decide_eq_true_2 by done. simpl. by rewrite IH.
  - rewrite bool_decide_eq_false_2 by done. done.
Qed.

Lemma calls_of_map f (mk : fn → call_args) (fs : list fn) :
  calls_of f (map (λ g, Call g (mk g)) fs) = length (filter (λ g, g = f) fs).
Proof.
  induction fs as [|g fs IH]; [done|].
  unfold calls_of in *. simpl.
  rewrite filter_cons. destruct (decide (g = f)) as [->|Hne].
  - rewrite bool_decide_eq_true_2 by done. simpl. by rewrite IH.
  - rewrite bool_decide_eq_false_2 by done. done.
Qed.

Lemma filter_eq_absent (f : fn) (fs : list fn) :
  f ∉ fs → filter (λ g, g = f) fs = [].
Proof.
  induction fs as [|g fs IH]; [done|].
  intros Hn. apply not_elem_of_cons in Hn as [Hne Hn].
  rewrite filter_cons, decide_False by done. by apply IH.
Qed.

Lemma filter_eq_once (f : fn) (fs : list fn) :
  NoDup fs → f ∈ fs → length (filter (λ g, g = f) fs) = 1.
Proof.
  induction fs as [|g fs IH]; intros Hnd Hin.
  - by apply elem_of_nil in Hin.
  - apply NoDup_cons in Hnd as [Hfresh Hnd]. rewrite filter_cons.
    destruct (decide (g = f)) as [->|Hne].
    + simpl. by rewrite filter_eq_absent.
    + apply elem_of_cons in Hin as [->|Hin]; [done | by apply IH].
Qed.

Lemma listener_calls_setState_calls f this key o v :
  listener_calls f (setState_calls this key o v) =
  length (filter (λ g, g = f) (listeners_of this key)).
Proof.
  unfold setState_calls. rewrite !listener_calls_app.
  rewrite (listener_calls_other f (λ _, MiddlewareArgs _ _ _ _)) by done.
  rewrite (listener_calls_other f (λ _, GlobalArgs _ _)) by done.
  rewrite listener_calls_listeners. lia.
Qed.

(** *** The subscriber registry *)

Lemma Set_add_elem f g s : g ∈ Set_add f s ↔ g = f ∨ g ∈ s.
Proof.
  unfold Set_add. destruct (decide (f ∈ s)) as [Hin|Hout].
  - split; [by right | by intros [->|?]].
  - rewrite elem_of_app, list_elem_of_singleton. tauto.
Qed.

Lemma Set_add_NoDup f s : NoDup s → NoDup (Set_add f s).
Proof.
  intros Hnd. unfold Set_add. destruct (decide (f ∈ s)); [done|].
  apply NoDup_app. split_and!; [done | | apply NoDup_singleton].
  intros g Hg ->%list_elem_of_singleton. done.
Qed.

Lemma Set_add_again f s : Set_add f (Set_add f s) = Set_add f s.
Proof.
  unfold Set_add at 1. rewrite decide_True; [done|]. apply Set_add_elem. by left.
Qed.

Lemma Set_delete_elem f g s : g ∈ Set_delete f s ↔ g ≠ f ∧ g ∈ s.
Proof. unfold Set_delete. by rewrite list_elem_of_filter. Qed.

Lemma Set_delete_NoDup f s : NoDup s → NoDup (Set_delete f s).
Proof. apply NoDup_filter. Qed.

Lemma Set_delete_again f s : Set_delete f (Set_delete f s) = Set_delete f s.
Proof.
  unfold Set_delete. induction s as [|g s IH]; [done|].
  rewrite filter_cons. destruct (decide (g ≠ f)) as [Hne|Heq]; [|done].
  rewrite filter_cons, decide_True by done. by rewrite IH.
Qed.

Lemma subscribe_listeners_eq key callback this :
  listeners_of (subscribe key callback this).1 key =
  Set_add callback (listeners_of this key).
Proof.
  unfold subscribe, listeners_of; simpl. rewrite lookup_alter_eq.
  destruct (decide (is_Some (_listeners this !! key))) as [[s Hs]|Hnone].
  - by rewrite Hs.
  - rewrite lookup_insert_eq. apply eq_None_not_Some in Hnone. by rewrite Hnone.
Qed.

Lemma subscribe_listeners_ne key key' callback this :
  key ≠ key' →
  listeners_of (subscribe key callback this).1 key' = listeners_of this key'.
Proof.
  intros Hne. unfold subscribe, listeners_of; simpl.
  rewrite lookup_alter_ne by done.
  destruct (decide _); [done | by rewrite lookup_insert_ne].
Qed.

Lemma subscribe_has_key key callback this :
  is_Some (_listeners (subscribe key callback this).1 !! key).
Proof.
  unfold subscribe; simpl. rewrite lookup_alter_eq.
  destruct (decide (is_Some (_listeners this !! key))) as [[s Hs]|Hnone].
  - rewrite Hs. by eexists.
  - rewrite lookup_insert_eq. by eexists.
Qed.

Lemma subscribe_wf key callback this : wf this → wf (subscribe key callback this).1.
Proof.
  intros Hwf key' s. unfold subscribe; simpl.
  destruct (decide (key = key')) as [<-|Hne].
  - rewrite lookup_alter_eq.
    destruct (decide (is_Some (_listeners this !! key))) as [[s0 Hs]|Hnone].
    + rewrite Hs. intros [= <-]. apply Set_add_NoDup. by eapply Hwf.
    + rewrite lookup_insert_eq. intros [= <-]. apply Set_add_NoDup, NoDup_nil_2.
  - rewrite lookup_alter_ne by done.
    destruct (decide _); [apply Hwf|]. rewrite lookup_insert_ne by done. apply Hwf.
Qed.

(** Subscribing a pair that is registered already changes nothing. *)
Lemma subscribe_again key callback this :
  (subscribe key callback (subscribe key callback this).1).1 =
  (subscribe key callback this).1.
Proof.
  pose proof (subscribe_has_key key callback this) as Hk.
  pose proof (subscribe_listeners_eq key callback this) as Hl.
  destruct (subscribe key callback this) as [s1 d1]; simpl in *.
  rewrite decide_True by done.
  destruct s1 as [st ls ms]; simpl in *. f_equal.
  apply map_eq. intros k. destruct (decide (key = k)) as [<-|Hne].
  - rewrite lookup_alter_eq. destruct Hk as [s Hs]. rewrite Hs. simpl. f_equal.
    unfold listeners_of in Hl; simpl in Hl. rewrite Hs in Hl. simpl in Hl.
    rewrite Hl. apply Set_add_again.
  - by rewrite lookup_alter_ne.
Qed.

Lemma dispose_normal d this :
  is_Some (_listeners this !! d_key d) → ∃ s, dispose d this = Normal s.
Proof. intros [s Hs]. unfold dispose. rewrite Hs. by eexists. Qed.

Lemma dispose_listeners_eq d this s :
  dispose d this = Normal s →
  listeners_of s (d_key d) = Set_delete (d_callback d) (listeners_of this (d_key d)).
Proof.
  unfold dispose, listeners_of. destruct (_listeners this !! d_key d) as [fs|]; [|done].
  intros [= <-]; simpl. by rewrite lookup_insert_eq.
Qed.

Lemma dispose_listeners_ne d this s key' :
  dispose d this = Normal s → d_key d ≠ key' →
  listeners_of s key' = listeners_of this key'.
Proof.
  unfold dispose, listeners_of. destruct (_listeners this !! d_key d) as [fs|]; [|done].
  intros [= <-] Hne; simpl. by rewrite lookup_insert_ne.
Qed.

Lemma dispose_middlewares d this s :
  dispose d this = Normal s → _middlewares s = _middlewares this ∧ _state s = _state this.
Proof.
  unfold dispose. destruct (_listeners this !! d_key d) as [fs|]; [|done].
  by intros [= <-].
Qed.

(** Disposing once more gives the very same store. *)
Lemma dispose_again d this s : dispose d this = Normal s → dispose d s = Normal s.
Proof.
  unfold dispose. destruct (_listeners this !! d_key d) as [fs|] eqn:Hfs; [|done].
  intros [= <-]; simpl. rewrite lookup_insert_eq. do 2 f_equal.
  rewrite insert_insert_eq. by rewrite Set_delete_again.
Qed.

(** No method of the class removes a key from the listener map. *)
Lemma do_method_has_key m this key :
  is_Some (_listeners this !! key) → is_Some (_listeners (do_method m this) !! key).
Proof.
  intros Hk. destruct m as [k f|d|f]; simpl; [| |done].
  - unfold subscribe; simpl. destruct (decide (k = key)) as [->|Hne].
    + apply subscribe_has_key.
    + rewrite lookup_alter_ne by done.
      destruct (decide _); [done | by rewrite lookup_insert_ne].
  - unfold dispose. destruct (_listeners this !! d_key d) as [fs|] eqn:Hfs; [|done].
    simpl. destruct (decide (d_key d = key)) as [->|Hne].
    + rewrite lookup_insert_eq. by eexists.
    + by rewrite lookup_insert_ne.
Qed.

Lemma do_methods_has_key ms this key :
  is_Some (_listeners this !! key) → is_Some (_listeners (do_methods ms this) !! key).
Proof.
  revert this. induction ms as [|m ms IH]; intros this Hk; [done|].
  simpl. apply IH. by apply do_method_has_key.
Qed.

(** *** Sequencing lemmas *)

Section HostFacts.

Variable host : fn → call_args → heap → heap * option exn.

Lemma forEach_app {A} (xs ys : list A) (body : A → M unit) w :
  forEach (xs ++ ys) body w = bind (forEach xs body) (λ _, forEach ys body) w.
Proof.
  revert w. induction xs as [|x xs IH]; intros w; simpl.
  - done.
  - unfold bind. destruct (body x w) as [w1 [[]|e]]; [|done].
    by rewrite IH.
Qed.

Lemma forEach_call (mk : fn → call_args) (fs : list fn) w :
  forEach fs (λ f, call host f (mk f)) w = notify host (map (λ f, Call f (mk f)) fs) w.
Proof.
  revert w. induction fs as [|f fs IH]; intros w; simpl; [done|].
  unfold bind. destruct (call host f (mk f) w) as [w1 [[]|e]]; [apply IH | done].
Qed.

Lemma notify_app (xs ys : list event) w :
  notify host (xs ++ ys) w = bind (notify host xs) (λ _, notify host ys) w.
Proof.
  revert w. induction xs as [|x xs IH]; intros w; simpl; [done|].
  unfold bind. destruct (call host _ _ w) as [w1 [[]|e]]; [|done].
  by rewrite IH.
Qed.

(** Whatever the callbacks do, the calls recorded by [notify] are an initial
    part of the requested ones, and all of them when nothing was thrown. *)
Lemma notify_log (calls : list event) w w' c :
  notify host calls w = (w', c) →
  ∃ made, log w' = log w ++ made ∧ made `prefix_of` calls ∧
          (c = Normal tt → made = calls).
Proof.
  revert w. induction calls as [|x calls IH]; intros w; simpl.
  - intros [= <- <-]. exists []. by rewrite app_nil_r.
  - unfold bind, call. destruct (host _ _ _) as [h [e|]]; simpl.
    + intros [= <- <-]. exists [x]; simpl. split_and!; [| |done].
      * by destruct x.
      * by exists calls.
    + intros Hn. destruct (IH _ Hn) as (made & Hlog & Hpre & Hall).
      exists (x :: made). simpl in Hlog. split_and!.
      * rewrite Hlog, <- app_assoc. by destruct x.
      * by apply prefix_cons.
      * intros Hc. by rewrite Hall.
Qed.

Lemma forEach_write l (updates : list (string * val)) w :
  forEach updates (λ '(key, value), write l key value) w =
  (World (assign_all l updates (mem w)) (log w), Normal tt).
Proof.
  revert w. induction updates as [|[k v] us IH]; intros w; simpl.
  - by destruct w.
  - unfold bind, write; simpl. by rewrite IH.
Qed.

(** *** setState *)

(** [setState] is: read, assign, then [notify] the calls of
    [setState_calls]. *)
Lemma setState_notify this key value w :
  setState host this key value w =
  notify host (setState_calls this key (get_prop (mem w) (_state this) key) value)
         (World (set_prop (mem w) (_state this) key value) (log w)).
Proof.
  unfold setState, setState_calls, listeners_of.
  set (oldValue := get_prop (mem w) (_state this) key).
  set (assigned := World _ _).
  rewrite notify_app. unfold bind; simpl.
  fold oldValue. fold assigned. rewrite forEach_call.
  destruct (notify host _ assigned) as [w1 [[]|e]]; [|done].
  rewrite notify_app. unfold bind.
  assert (Hglobal : ∀ w2,
    match _listeners this !! "*" with
    | Some s => forEach s (λ callback,
                  call host callback (GlobalArgs (VRef (_state this)) key))
    | None => ret ()
    end w2 =
    notify host (map (λ f, Call f (GlobalArgs (VRef (_state this)) key))
                     (default [] (_listeners this !! "*"))) w2).
  { intros w2. destruct (_listeners this !! "*") as [s'|]; simpl;
      [by rewrite forEach_call | done]. }
  destruct (_listeners this !! key) as [s|]; simpl.
  - rewrite forEach_call.
    destruct (notify host _ w1) as [w2 [[]|e]]; [by rewrite Hglobal | done].
  - by rewrite Hglobal.
Qed.

(** *** batchUpdate *)

Lemma batchUpdate_notify this updates w :
  batchUpdate host this updates w =
  notify host (batchUpdate_calls this updates)
         (World (assign_all (_state this) updates (mem w)) (log w)).
Proof.
  unfold batchUpdate, batchUpdate_calls, listeners_of, bind.
  rewrite forEach_write.
  destruct (_listeners this !! "*") as [s|]; simpl; [by rewrite forEach_call | done].
Qed.

End HostFacts.

(** *** getState *)









(** *** subscribe and its disposer *)

Lemma constructor_wf l : wf (constructor l).
Proof. intros key s. unfold constructor; simpl. by rewrite lookup_empty. Qed.

Lemma do_method_wf m this : wf this → wf (do_method m this).
Proof.
  intros Hwf. destruct m as [k f|d|f]; simpl; [by apply subscribe_wf| |done].
  unfold dispose. destruct (_listeners this !! d_key d) as [fs|] eqn:Hfs; [|done].
  intros key s; simpl. destruct (decide (d_key d = key)) as [<-|Hne].
  - rewrite lookup_insert_eq. intros [= <-]. apply Set_delete_NoDup. by eapply Hwf.
  - rewrite lookup_insert_ne by done. apply Hwf.
Qed.

Lemma do_methods_wf ms this : wf this → wf (do_methods ms this).
Proof.
  revert this. induction ms as [|m ms IH]; intros this Hwf; [done|].
  simpl. apply IH. by apply do_method_wf.
Qed.

Lemma Set_delete_absent f s : f ∉ s → Set_delete f s = s.
Proof.
  unfold Set_delete. induction s as [|g s IH]; [done|].
  intros [Hne Hout]%not_elem_of_cons.
  rewrite filter_cons, decide_True by done. by rewrite IH.
Qed.

(** Disposing of a callback that is not registered changes nothing. *)
Lemma dispose_absent d this :
  is_Some (_listeners this !! d_key d) →
  d_callback d ∉ listeners_of this (d_key d) →
  dispose d this = Normal this.
Proof.
  intros [s Hs] Hout. unfold dispose, listeners_of in *. rewrite Hs in *. simpl in Hout.
  destruct this as [st ls ms]; simpl in *. do 2 f_equal.
  apply insert_id. by rewrite Set_delete_absent.
Qed.

(** Methods other than subscribing the pair again do not register it. *)
Lemma do_method_absent m this key callback :
  m ≠ MSubscribe key callback →
  callback ∉ listeners_of this key →
  callback ∉ listeners_of (do_method m this) key.
Proof.
  intros Hm Hout. destruct m as [k f|d|f]; unfold do_method; [| |done].
  - destruct (decide (k = key)) as [->|Hne].
    + rewrite subscribe_listeners_eq. intros [->|Hin]%Set_add_elem; [done | done].
    + by rewrite subscribe_listeners_ne.
  - destruct (dispose d this) as [s|e] eqn:Hd; [|done].
    destruct (decide (d_key d = key)) as [<-|Hne].
    + rewrite (dispose_listeners_eq _ _ _ Hd). intros [_ Hin]%Set_delete_elem. done.
    + by rewrite (dispose_listeners_ne _ _ _ _ Hd).
Qed.

Lemma do_methods_absent ms this key callback :
  MSubscribe key callback ∉ ms →
  callback ∉ listeners_of this key →
  callback ∉ listeners_of (do_methods ms this) key.
Proof.
  revert this. induction ms as [|m ms IH]; intros this Hms Hout; [done|].
  apply not_elem_of_cons in Hms as [Hm Hms]. simpl.
  apply IH; [done|]. apply do_method_absent; [congruence | done].
Qed.

(** C10. From the subscription on, whatever methods of the store are called
    in between, invoking the disposer returns normally; invoking it again,
    any number of times, returns normally and leaves the store, hence the
    subscriber registry, exactly as the first invocation left it; and so
    does invoking it at any later time, after other method calls (that do
    not subscribe the same pair anew): the store is as it was before that
    invocation. *)
Theorem disposer_idempotent this key callback (between : list method) (n : nat) :
  let s1 := (subscribe key callback this).1 in
  let d := (subscribe key callback this).2 in
  ∃ s', dispose d (do_methods between s1) = Normal s' ∧
        dispose d s' = Normal s' ∧
        Nat.iter n (do_method (MDispose d)) s' = s' ∧
        ∀ later, MSubscribe key callback ∉ later →
                 dispose d (do_methods later s') = Normal (do_methods later s').
Proof.
  intros s1 d.
  destruct (dispose_normal d (do_methods between s1)) as [s' Hs'].
  { apply do_methods_has_key, subscribe_has_key. }
  exists s'. pose proof (dispose_again _ _ _ Hs') as Hagain.
  split_and!; [done|done| |].
  - induction n as [|n IH]; [done|]. simpl. rewrite IH. by rewrite Hagain.
  - intros later Hlater.
    assert (Hkey : is_Some (_listeners s' !! key)).
    { unfold dispose in Hs'. simpl in Hs'.
      destruct (_listeners (do_methods between s1) !! key); [|done].
      injection Hs' as <-. simpl. rewrite lookup_insert_eq. by eexists. }
    apply dispose_absent; simpl.
    + by apply do_methods_has_key.
    + apply do_methods_absent; [done|].
      pose proof (dispose_listeners_eq _ _ _ Hs') as Heq. simpl in Heq.
      rewrite Heq. intros [Hne _]%Set_delete_elem. done.
Qed.

Lemma disposer_idempotent_witness :
  let d := (subscribe "theme" 20 demo_store).2 in
  ∃ s', dispose d demo_store = Normal s' ∧
        dispose d (do_methods [MUse 12; MSubscribe "theme" 22] s') =
        Normal (do_methods [MUse 12; MSubscribe "theme" 22] s').
Proof.
  intros d.
  destruct (disposer_idempotent demo_store "theme" 20 [] 0) as (s' & Hs' & _ & _ & Hlater).
  exists s'. split.
  - rewrite <- Hs'. reflexivity.
  - apply Hlater. intros Hin%list_elem_of_In. simpl in Hin.
    repeat (destruct Hin as [Hin|Hin]; [discriminate|]). done.
Defined.

(** *** Further properties of the store *)

(** How often [f] was called as middleware. *)
Definition is_middleware_call (f : fn) (e : event) : bool :=
  match passed e with
  | MiddlewareArgs _ _ _ _ => bool_decide (callee e = f)
  | _ => false
  end.

Definition middleware_calls (f : fn) (l : list event) : nat :=
  length (List.filter (is_middleware_call f) l).

(** A host in which function [f] throws [e] and every other callback does
    nothing. *)
Definition throwing_host (f : fn) (e : exn) : fn → call_args → heap → heap * option exn :=
  λ g _ h, (h, if decide (g = f) then Some e else None).

Section MoreHostFacts.

Variable host : fn → call_args → heap → heap * option exn.

Lemma notify_cell l calls w :
  (∀ f a h, (host f a h).1 !! l = h !! l) →
  mem (notify host calls w).1 !! l = mem w !! l.
Proof.
  intros Hkeep. revert w. induction calls as [|c calls IH]; intros w; [done|].
  simpl. unfold bind, call.
  pose proof (Hkeep (callee c) (passed c) (mem w)) as Hc.
  destruct (host (callee c) (passed c) (mem w)) as [h [e|]]; simpl in *; [done|].
  by rewrite IH.
Qed.

Lemma get_prop_cell (h h' : heap) l k : h' !! l = h !! l → get_prop h' l k = get_prop h l k.
Proof. intros Heq. unfold get_prop. by rewrite Heq. Qed.

Lemma set_prop_cell (h h' : heap) l k v :
  h' !! l = h !! l → set_prop h' l k v !! l = set_prop h l k v !! l.
Proof.
  intros Heq. unfold set_prop. rewrite Heq.
  destruct (h !! l) as [[ps|es]|] eqn:Hl; rewrite ?lookup_insert_eq; congruence.
Qed.

(** A notification that ends with exception [e] ends at the call that threw
    it. *)
Lemma notify_abrupt calls w w' e :
  notify host calls w = (w', Abrupt e) →
  ∃ before c after h,
    calls = before ++ c :: after ∧ log w' = log w ++ before ++ [c] ∧
    (host (callee c) (passed c) h).2 = Some e.
Proof.
  revert w. induction calls as [|c calls IH]; intros w; simpl; [done|].
  unfold bind, call.
  destruct (host (callee c) (passed c) (mem w)) as [h [e'|]] eqn:Hc; simpl.
  - intros [= <- <-]. exists [], c, calls, (mem w). rewrite Hc. simpl.
    split_and!; [done | by destruct c | done].
  - intros Hn. destruct (IH _ Hn) as (before & c' & after & h' & -> & Hlog & He).
    exists (c :: before), c', after, h'. simpl in Hlog.
    split_and!; [done | | done]. rewrite Hlog, <- !app_assoc. by destruct c.
Qed.

Lemma middleware_calls_app f l1 l2 :
  middleware_calls f (l1 ++ l2) = middleware_calls f l1 + middleware_calls f l2.
Proof. unfold middleware_calls. by rewrite List.filter_app, length_app. Qed.

Lemma middleware_calls_other f (mk : fn → call_args) (fs : list fn) :
  (∀ g, match mk g with MiddlewareArgs _ _ _ _ => False | _ => True end) →
  middleware_calls f (map (λ g, Call g (mk g)) fs) = 0.
Proof.
  intros Hmk. induction fs as [|g fs IH]; [done|].
  unfold middleware_calls, is_middleware_call in *. simpl.
  specialize (Hmk g). destruct (mk g); done.
Qed.



Lemma assign_all_cell l us (h h' : heap) :
  h' !! l = h !! l → assign_all l us h' !! l = assign_all l us h !! l.
Proof.
  revert h h'. induction us as [|[k v] us IH]; intros h h' Heq; [done|].
  rewrite !assign_all_cons. apply IH. by apply set_prop_cell.
Qed.

(** X4. As far as the state goes, [batchUpdate] is the [setState] calls for
    its pairs, in order: when the callbacks leave the state object alone,
    the state object is the same after [batchUpdate(updates)] as after
    calling [setState(key, value)] for each pair of [updates] in turn. *)
Theorem batchUpdate_state_as_setStates this updates w :
  (∀ f a h, (host f a h).1 !! _state this = h !! _state this) →
  mem (batchUpdate host this updates w).1 !! _state this =
  mem (do_updates host this (map (λ kv, USet kv.1 kv.2) updates) w) !! _state this.
Proof.
  intros Hkeep. rewrite batchUpdate_notify, notify_cell by done. simpl.
  revert w. induction updates as [|[k v] us IH]; intros w; [done|].
  rewrite assign_all_cons. simpl. rewrite <- IH.
  apply assign_all_cell. rewrite setState_notify, notify_cell by done. done.
Qed.

End MoreHostFacts.


Lemma batchUpdate_state_as_setStates_witness :
  mem (batchUpdate quiet_host demo_store
         [("theme", VStr "light"); ("isLoading", VBool true)]
         (World demo_heap [])).1 !! 1%positive
  = Some (Obj [("theme", VStr "light"); ("isLoading", VBool true)]).
Proof.
  etrans.
  - apply (batchUpdate_state_as_setStates quiet_host demo_store
             [("theme", VStr "light"); ("isLoading", VBool true)]
             (World demo_heap [])). done.
  - vm_compute. reflexivity.
Defined.

(** X5. Subscribing a callback that is not yet registered for a key puts it
    after the callbacks registered before, and invoking the disposer undoes
    exactly that: every key has the subscribers it had before the
    subscription, in the same order, and the middleware and the state
    object are the same. *)
Theorem subscribe_dispose_roundtrip this key callback :
  callback ∉ listeners_of this key →
  let s1 := (subscribe key callback this).1 in
  let d := (subscribe key callback this).2 in
  listeners_of s1 key = listeners_of this key ++ [callback] ∧
  (∀ k, k ≠ key → listeners_of s1 k = listeners_of this k) ∧
  ∃ s2, dispose d s1 = Normal s2 ∧
        (∀ k, listeners_of s2 k = listeners_of this k) ∧
        _middlewares s2 = _middlewares this ∧ _state s2 = _state this.
Proof.
  intros Hout s1 d.
  assert (Hs1 : listeners_of s1 key = listeners_of this key ++ [callback]).
  { unfold s1. rewrite subscribe_listeners_eq. unfold Set_add.
    by rewrite decide_False. }
  split_and!; [done | |].
  - intros k Hk. by apply subscribe_listeners_ne.
  - destruct (dispose_normal d s1) as [s2 Hs2]; [apply subscribe_has_key|].
    exists s2. split; [done|].
    pose proof (dispose_listeners_eq _ _ _ Hs2) as Heq. simpl in Heq.
    destruct (dispose_middlewares _ _ _ Hs2) as [Hm Hst].
    split_and!; [|done|done].
    intros k. destruct (decide (k = key)) as [->|Hne].
    + rewrite Heq, Hs1. unfold Set_delete. rewrite filter_app, filter_cons.
      rewrite decide_False by (intros Hc; by apply Hc). simpl. rewrite app_nil_r.
      apply (Set_delete_absent callback _ Hout).
    + rewrite (dispose_listeners_ne _ _ _ k Hs2) by (simpl; congruence).
      by apply subscribe_listeners_ne.
Qed.

Lemma subscribe_dispose_roundtrip_witness :
  listeners_of (subscribe "theme" 22 demo_store).1 "theme" = [20; 21; 22].
Proof.
  destruct (subscribe_dispose_roundtrip demo_store "theme" 22) as [Happ _].
  - vm_compute. intros Hin%list_elem_of_In. simpl in Hin.
    repeat (destruct Hin as [Hin|Hin]; [discriminate|]). done.
  - rewrite Happ. vm_compute. reflexivity.
Defined.

End Store.

(** ** The store, with callbacks that call the store *)

(** In [Store] above a callback is a function on the heap.  Here a callback
    is a program that may also call the methods of the store while
    [setState] or [batchUpdate] is notifying: [subscribe], a disposer, [use],
    [setState], [batchUpdate].  The state is read and assigned with what a
    plain object inherits ([Get], [Assign]), and a [Set] of callbacks keeps
    the place of a deleted entry, as the walk of [Set.prototype.forEach]
    sees it. *)

Module LiveStore.
Import JS JSON.

(** The entries of a [Set], in insertion order.  [delete] empties the entry
    and leaves it in its place; [add] appends unless the value is there.
    [forEach] goes by position and passes over the empty entries, so a walk
    in progress meets what is added behind it and misses what is deleted
    before its turn. *)
Abbreviation SetData := (list (option fn)).

Definition Set_add (f : fn) (s : SetData) : SetData :=
  if decide (Some f ∈ s) then s else s ++ [Some f].

Definition Set_delete (f : fn) (s : SetData) : SetData :=
  (λ e, if decide (e = Some f) then None else e) <$> s.

(** The values of the set, in order. *)
Definition members (s : SetData) : list fn := omap id s.

(** The instance fields set up by the constructor. *)
Record t := Make {
  _state : loc;
  _listeners : gmap string SetData;
  _middlewares : list fn
}.

(** [constructor(initialState = {})] *)
Definition constructor (initialState : loc) : t :=
  {| _state := initialState; _listeners := ∅; _middlewares := [] |}.

(** [subscribe(key, callback)] *)
Definition subscribe (key : string) (callback : fn) (this : t)
  : t * Store.disposer :=
  let m :=
    if decide (is_Some (_listeners this !! key)) then _listeners this
    else <[key := []]> (_listeners this) in
  ({| _state := _state this;
      _listeners := alter (Set_add callback) key m;
      _middlewares := _middlewares this |},
   Store.Disposer key callback).

(** Calling the closure: [this._listeners.get(key).delete(callback)]. *)
Definition dispose (d : Store.disposer) (this : t) : completion t :=
  match _listeners this !! Store.d_key d with
  | None => Abrupt TypeError
  | Some s =>
      Normal {| _state := _state this;
                _listeners :=
                  <[Store.d_key d := Set_delete (Store.d_callback d) s]>
                    (_listeners this);
                _middlewares := _middlewares this |}
  end.

(** [use(middleware)] *)
Definition use (middleware : fn) (this : t) : t :=
  {| _state := _state this;
     _listeners := _listeners this;
     _middlewares := _middlewares this ++ [middleware] |}.

(** The subscribers of a key, in order; none when the map has no entry for
    the key. *)
Definition listeners_of (this : t) (key : string) : list fn :=
  members (default [] (_listeners this !! key)).

(** What a callback does when it is called: it returns or throws, after
    calling methods of the store, writing to the heap and looking at it.  The
    code after a method call is given what the call ended with, so it can
    catch what the call threw. *)
Inductive action :=
| ASubscribe (key : string) (callback : fn)
| ADispose (d : Store.disposer)
| AUse (middleware : fn)
| ASetState (key : string) (value : val)
| ABatchUpdate (updates : list (string * val))
| AWrite (f : heap → heap).

Inductive prog :=
| Return
| Throw (e : exn)
| Do (a : action) (next : completion unit → prog)
| Look (next : heap → prog).

(** The store object and the rest of the world. *)
Record config := Config { store : t; world : Store.world }.

(** How a call ends.  Beside returning and throwing: the budget of nested
    calls is used up ([Unfinished]); the state object has been given another
    prototype, or is no plain object of the heap, where this development
    stops following it. *)
Inductive ending :=
| Returned
| Threw (e : exn)
| Unfinished
| ReplacedPrototype
| NotPlainObject.

Definition ending_of (c : completion unit) : ending :=
  match c with
  | Normal _ => Returned
  | Abrupt e => Threw e
  end.

Definition with_mem (h : heap) (c : config) : config :=
  Config (store c) (Store.World h (Store.log (world c))).

(** [this._state[key] = value] *)
Definition assign (key : string) (value : val) (c : config) : config * ending :=
  match Store.mem (world c) !! _state (store c) with
  | Some (Obj ps) =>
      match Assign ps key value with
      | Assigned ps' =>
          (with_mem (<[_state (store c) := Obj ps']> (Store.mem (world c))) c,
           Returned)
      | ReplacesPrototype => (c, ReplacedPrototype)
      end
  | _ => (c, NotPlainObject)
  end.

(** [Object.entries(updates).forEach(([key, value]) => { this._state[key] = value; })] *)
Fixpoint assign_entries (updates : list (string * val)) (c : config)
  : config * ending :=
  match updates with
  | [] => (c, Returned)
  | (key, value) :: updates' =>
      match assign key value c with
      | (c1, Returned) => assign_entries updates' c1
      | r => r
      end
  end.

(** What a method call by a callback does, given the two methods that
    notify. *)
Definition perform
    (setState_ : string → val → config → config * ending)
    (batchUpdate_ : list (string * val) → config → config * ending)
    (a : action) (c : config) : config * ending :=
  match a with
  | ASubscribe key callback =>
      (Config (subscribe key callback (store c)).1 (world c), Returned)
  | ADispose d =>
      match dispose d (store c) with
      | Normal s => (Config s (world c), Returned)
      | Abrupt e => (c, Threw e)
      end
  | AUse middleware => (Config (use middleware (store c)) (world c), Returned)
  | ASetState key value => setState_ key value c
  | ABatchUpdate updates => batchUpdate_ updates c
  | AWrite f => (with_mem (f (Store.mem (world c))) c, Returned)
  end.

(** Running the body of a callback. *)
Fixpoint run (perform_ : action → config → config * ending) (p : prog)
    (c : config) : config * ending :=
  match p with
  | Return => (c, Returned)
  | Throw e => (c, Threw e)
  | Look next => run perform_ (next (Store.mem (world c))) c
  | Do a next =>
      match perform_ a c with
      | (c1, Returned) => run perform_ (next (Normal tt)) c1
      | (c1, Threw e) => run perform_ (next (Abrupt e)) c1
      | r => r
      end
  end.

Section Host.

(** The host's functions: the body of function [f] when called with given
    arguments. *)
Variable host : fn → Store.call_args → prog.

(** The methods that notify.  [fuel] bounds the depth of calls and the length
    of a walk; a call that needs more ends [Unfinished].  [each] is
    [Array.prototype.forEach] on the middleware, whose range is fixed when it
    starts; [walk] is [Set.prototype.forEach] on the callbacks of a key, from
    position [i] of the set as it is now. *)
Fixpoint setState (fuel : nat) (key : string) (value : val) (c : config)
    {struct fuel} : config * ending :=
  match fuel with
  | 0 => (c, Unfinished)
  | S n =>
      match Store.mem (world c) !! _state (store c) with
      | Some (Obj ps) =>
          let oldValue := Get ps key in
          match assign key value c with
          | (c1, Returned) =>
              match each n (_middlewares (store c1))
                      (Store.MiddlewareArgs key oldValue value
                         (VRef (_state (store c1)))) c1 with
              | (c2, Returned) =>
                  match walk n key 0 (Store.ListenerArgs value oldValue) c2 with
                  | (c3, Returned) =>
                      walk n "*" 0
                        (Store.GlobalArgs (VRef (_state (store c3))) key) c3
                  | r => r
                  end
              | r => r
              end
          | r => r
          end
      | _ => (c, NotPlainObject)
      end
  end
with batchUpdate (fuel : nat) (updates : list (string * val)) (c : config)
    {struct fuel} : config * ending :=
  match fuel with
  | 0 => (c, Unfinished)
  | S n =>
      match assign_entries updates c with
      | (c1, Returned) =>
          walk n "*" 0
            (Store.GlobalBatchArgs (VRef (_state (store c1))) (updates.*1)) c1
      | r => r
      end
  end
with each (fuel : nat) (fs : list fn) (a : Store.call_args) (c : config)
    {struct fuel} : config * ending :=
  match fuel with
  | 0 => (c, Unfinished)
  | S n =>
      match fs with
      | [] => (c, Returned)
      | f :: fs' =>
          match call n f a c with
          | (c1, Returned) => each n fs' a c1
          | r => r
          end
      end
  end
with walk (fuel : nat) (key : string) (i : nat) (a : Store.call_args)
    (c : config) {struct fuel} : config * ending :=
  match fuel with
  | 0 => (c, Unfinished)
  | S n =>
      match _listeners (store c) !! key with
      | None => (c, Returned)
      | Some s =>
          match s !! i with
          | None => (c, Returned)
          | Some None => walk n key (S i) a c
          | Some (Some f) =>
              match call n f a c with
              | (c1, Returned) => walk n key (S i) a c1
              | r => r
              end
          end
      end
  end
with call (fuel : nat) (f : fn) (a : Store.call_args) (c : config)
    {struct fuel} : config * ending :=
  match fuel with
  | 0 => (c, Unfinished)
  | S n =>
      run (perform (setState n) (batchUpdate n)) (host f a)
          (Config (store c)
             (Store.World (Store.mem (world c))
                          (Store.log (world c) ++ [Store.Call f a])))
  end.

End Host.

(** *** Callbacks that leave the store alone *)

(** A callback that calls no method of the store: it writes to the heap,
    looks at it, and returns or throws. *)
Fixpoint quiet (p : prog) : Prop :=
  match p with
  | Return | Throw _ => True
  | Look next => ∀ h, quiet (next h)
  | Do (AWrite _) next => quiet (next (Normal tt))
  | Do _ _ => False
  end.

(** What such a callback does to the heap, and what it throws. *)
Fixpoint effect (p : prog) (h : heap) : heap * option exn :=
  match p with
  | Return => (h, None)
  | Throw e => (h, Some e)
  | Look next => effect (next h) h
  | Do (AWrite f) next => effect (next (Normal tt)) (f h)
  | Do _ _ => (h, None)
  end.

Definition lower (host : fn → Store.call_args → prog)
  : fn → Store.call_args → heap → heap * option exn :=
  λ f a h, effect (host f a) h.

(** Every callback set of a store built by the methods of the class is free
    of duplicates. *)
Definition wf (this : t) : Prop :=
  ∀ key s, _listeners this !! key = Some s → NoDup (members s).

(** The calls of [setState(key, value)] when no callback changes the
    registries: the middleware, then the subscribers of [key], then the
    subscribers of ['*']. *)
Definition setState_calls (this : t) (key : string) (oldValue value : val)
  : list Store.event :=
  map (λ m, Store.Call m (Store.MiddlewareArgs key oldValue value (VRef (_state this))))
      (_middlewares this)
  ++ map (λ f, Store.Call f (Store.ListenerArgs value oldValue)) (listeners_of this key)
  ++ map (λ f, Store.Call f (Store.GlobalArgs (VRef (_state this)) key))
         (listeners_of this "*").

Definition batchUpdate_calls (this : t) (updates : list (string * val))
  : list Store.event :=
  map (λ f, Store.Call f (Store.GlobalBatchArgs (VRef (_state this)) (updates.*1)))
      (listeners_of this "*").

(** A budget that is enough for [setState] and [batchUpdate] when no callback
    calls the store. *)
Definition budget (this : t) (key : string) : nat :=
  3 + length (_middlewares this)
    + length (default [] (_listeners this !! key))
    + length (default [] (_listeners this !! "*")).

(** The store of [Store] with the same registrations. *)
Definition erase (this : t) : Store.t :=
  Store.Make (_state this) (members <$> _listeners this) (_middlewares this).

(** The method calls that change the registries of a store. *)
Inductive method :=
| MSubscribe (key : string) (callback : fn)
| MDispose (d : Store.disposer)
| MUse (middleware : fn).

Definition do_method (m : method) (this : t) : t :=
  match m with
  | MSubscribe key callback => (subscribe key callback this).1
  | MDispose d => match dispose d this with Normal s => s | Abrupt _ => this end
  | MUse f => use f this
  end.

Definition do_methods (ms : list method) (this : t) : t :=
  fold_left (λ s m, do_method m s) ms this.

(** The store of [Store.demo_store]: two middleware, two subscribers on
    ["theme"], one on ["expenses"] and one on ['*']. *)
Definition demo_store : t :=
  do_methods [MUse 10; MUse 11; MSubscribe "theme" 20; MSubscribe "theme" 21;
              MSubscribe "*" 30; MSubscribe "expenses" 40]
             (constructor 1%positive).

Definition demo : config := Config demo_store (Store.World Store.demo_heap []).

(** A host in which no callback does anything. *)
Definition quiet_host : fn → Store.call_args → prog := λ _ _, Return.

(** A host in which the first subscriber of ["theme"], function 20, removes
    the second one, function 21, and subscribes function 22. *)
Definition disposing_host : fn → Store.call_args → prog :=
  λ f a,
    match f, a with
    | 20, Store.ListenerArgs _ _ =>
        Do (ADispose (Store.Disposer "theme" 21)) (λ _,
        Do (ASubscribe "theme" 22) (λ _, Return))
    | _, _ => Return
    end.

(** A host in which function 31, a subscriber of ['*'], removes function 30
    and subscribes it again. *)
Definition resubscribing_host : fn → Store.call_args → prog :=
  λ f a,
    match f with
    | 31 =>
        Do (ADispose (Store.Disposer "*" 30)) (λ _,
        Do (ASubscribe "*" 30) (λ _, Return))
    | _ => Return
    end.

(** *** The registry *)

Lemma elem_of_members f s : f ∈ members s ↔ Some f ∈ s.
Proof.
  unfold members. rewrite list_elem_of_omap. split.
  - intros (x & Hx & Heq). simpl in Heq. by subst.
  - intros Hin. by exists (Some f).
Qed.

Lemma members_cons g s : members (Some g :: s) = g :: members s.
Proof. done. Qed.

Lemma members_empty s : members (None :: s) = members s.
Proof. done. Qed.

Lemma Set_delete_cons f e s :
  Set_delete f (e :: s) =
  (if decide (e = Some f) then None else e) :: Set_delete f s.
Proof. done. Qed.

Lemma members_Set_add f s : members (Set_add f s) = Store.Set_add f (members s).
Proof.
  unfold Set_add, Store.Set_add.
  destruct (decide (Some f ∈ s)) as [Hin|Hout].
  - rewrite decide_True; [done | by apply elem_of_members].
  - rewrite decide_False by (by rewrite elem_of_members).
    unfold members. by rewrite omap_app.
Qed.

Lemma members_Set_delete f s :
  members (Set_delete f s) = Store.Set_delete f (members s).
Proof.
  induction s as [|[g|] s IH]; [done| |].
  - rewrite Set_delete_cons, members_cons. unfold Store.Set_delete in *.
    rewrite filter_cons.
    destruct (decide (Some g = Some f)) as [[= ->]|Hne].
    + rewrite decide_False by (intros Hc; by apply Hc). by rewrite members_empty.
    + rewrite decide_True by congruence. by rewrite members_cons, IH.
  - rewrite Set_delete_cons, decide_False by done. by rewrite !members_empty.
Qed.

Lemma live_Set_add_again f s : Set_add f (Set_add f s) = Set_add f s.
Proof.
  unfold Set_add at 1. rewrite decide_True; [done|].
  unfold Set_add. destruct (decide (Some f ∈ s)); [done|].
  apply elem_of_app. right. by apply list_elem_of_singleton.
Qed.

Lemma Set_delete_length f s : length (Set_delete f s) = length s.
Proof. unfold Set_delete. by rewrite length_fmap. Qed.

Lemma listeners_of_erase this key :
  Store.listeners_of (erase this) key = listeners_of this key.
Proof.
  unfold Store.listeners_of, listeners_of, erase; simpl. rewrite lookup_fmap.
  by destruct (_listeners this !! key).
Qed.

Lemma wf_erase this : wf this ↔ Store.wf (erase this).
Proof.
  unfold wf, Store.wf, erase; simpl. split.
  - intros Hwf key s. rewrite lookup_fmap.
    destruct (_listeners this !! key) as [s0|] eqn:Hs; [|done].
    intros [= <-]. by eapply Hwf.
  - intros Hwf key s Hs. apply (Hwf key). by rewrite lookup_fmap, Hs.
Qed.

Lemma erase_subscribe key callback this :
  erase (subscribe key callback this).1 =
  (Store.subscribe key callback (erase this)).1.
Proof.
  unfold erase, subscribe, Store.subscribe; simpl. f_equal.
  apply map_eq. intros k. rewrite lookup_fmap.
  destruct (decide (key = k)) as [<-|Hne].
  - rewrite !lookup_alter_eq.
    destruct (_listeners this !! key) as [s|] eqn:Hs.
    + rewrite decide_True by (by eexists).
      rewrite decide_True by (rewrite lookup_fmap, Hs; by eexists).
      rewrite Hs, lookup_fmap, Hs. simpl. by rewrite members_Set_add.
    + rewrite decide_False by (by intros [? ?]).
      rewrite decide_False by (rewrite lookup_fmap, Hs; by intros [? ?]).
      by rewrite !lookup_insert_eq.
  - rewrite !lookup_alter_ne by done.
    destruct (decide (is_Some (_listeners this !! key)));
      destruct (decide (is_Some ((members <$> _listeners this) !! key)));
      rewrite ?lookup_insert_ne by done; by rewrite ?lookup_fmap.
Qed.

Lemma erase_dispose d this s :
  dispose d this = Normal s → Store.dispose d (erase this) = Normal (erase s).
Proof.
  unfold dispose, Store.dispose, erase; simpl. rewrite lookup_fmap.
  destruct (_listeners this !! Store.d_key d) as [s0|]; [|done].
  intros [= <-]; simpl. do 2 f_equal.
  by rewrite fmap_insert, members_Set_delete.
Qed.

Lemma live_constructor_wf l : wf (constructor l).
Proof. intros key s. unfold constructor; simpl. by rewrite lookup_empty. Qed.

Lemma live_subscribe_wf key callback this : wf this → wf (subscribe key callback this).1.
Proof.
  rewrite !wf_erase, erase_subscribe. apply Store.subscribe_wf.
Qed.

Lemma dispose_wf d this s : dispose d this = Normal s → wf this → wf s.
Proof.
  intros Hd Hwf key s0. unfold dispose in Hd.
  destruct (_listeners this !! Store.d_key d) as [s1|] eqn:Hs1; [|done].
  injection Hd as <-; simpl.
  destruct (decide (Store.d_key d = key)) as [<-|Hne].
  - rewrite lookup_insert_eq. intros [= <-]. rewrite members_Set_delete.
    apply Store.Set_delete_NoDup. by eapply Hwf.
  - rewrite lookup_insert_ne by done. apply Hwf.
Qed.

Lemma live_do_method_wf m this : wf this → wf (do_method m this).
Proof.
  intros Hwf. destruct m as [k f|d|f]; simpl; [by apply live_subscribe_wf| |done].
  destruct (dispose d this) as [s|e] eqn:Hd; [by eapply dispose_wf | done].
Qed.

Lemma live_do_methods_wf ms this : wf this → wf (do_methods ms this).
Proof.
  revert this. induction ms as [|m ms IH]; intros this Hwf; [done|].
  simpl. apply IH. by apply live_do_method_wf.
Qed.

Lemma listeners_NoDup this key : wf this → NoDup (listeners_of this key).
Proof.
  intros Hwf. unfold listeners_of.
  destruct (_listeners this !! key) as [s|] eqn:Hs; [by eapply Hwf | apply NoDup_nil_2].
Qed.

Lemma live_subscribe_listeners_eq key callback this :
  listeners_of (subscribe key callback this).1 key =
  Store.Set_add callback (listeners_of this key).
Proof.
  rewrite <- !listeners_of_erase, erase_subscribe. apply Store.subscribe_listeners_eq.
Qed.

Lemma live_subscribe_has_key key callback this :
  is_Some (_listeners (subscribe key callback this).1 !! key).
Proof.
  unfold subscribe; simpl. rewrite lookup_alter_eq.
  destruct (decide (is_Some (_listeners this !! key))) as [[s Hs]|Hnone].
  - rewrite Hs. by eexists.
  - rewrite lookup_insert_eq. by eexists.
Qed.

(** Subscribing a pair that is registered already changes nothing. *)
Lemma live_subscribe_again key callback this :
  (subscribe key callback (subscribe key callback this).1).1 =
  (subscribe key callback this).1.
Proof.
  pose proof (live_subscribe_has_key key callback this) as Hk.
  assert (Hl : ∃ s, _listeners (subscribe key callback this).1 !! key
                    = Some (Set_add callback s)).
  { unfold subscribe; simpl. rewrite lookup_alter_eq.
    destruct (decide (is_Some (_listeners this !! key))) as [[s Hs]|Hnone].
    - rewrite Hs. by exists s.
    - rewrite lookup_insert_eq. by exists []. }
  destruct (subscribe key callback this) as [s1 d1]; simpl in *.
  unfold subscribe; simpl. rewrite decide_True by done.
  destruct s1 as [st ls ms]; simpl in *. f_equal.
  apply map_eq. intros k. destruct (decide (key = k)) as [<-|Hne].
  - rewrite lookup_alter_eq. destruct Hl as [s Hs]. rewrite Hs. simpl.
    by rewrite live_Set_add_again.
  - by rewrite lookup_alter_ne.
Qed.

(** *** Callbacks that leave the store alone: the calls are those of [Store.notify] *)

Definition lift (c : config) (r : Store.world * completion unit) : config * ending :=
  (Config (store c) r.1, ending_of r.2).

Lemma setState_unfold host fuel key value c :
  setState host fuel key value c =
  match fuel with
  | 0 => (c, Unfinished)
  | S n =>
      match Store.mem (world c) !! _state (store c) with
      | Some (Obj ps) =>
          let oldValue := Get ps key in
          match assign key value c with
          | (c1, Returned) =>
              match each host n (_middlewares (store c1))
                      (Store.MiddlewareArgs key oldValue value
                         (VRef (_state (store c1)))) c1 with
              | (c2, Returned) =>
                  match walk host n key 0 (Store.ListenerArgs value oldValue) c2 with
                  | (c3, Returned) =>
                      walk host n "*" 0
                        (Store.GlobalArgs (VRef (_state (store c3))) key) c3
                  | r => r
                  end
              | r => r
              end
          | r => r
          end
      | _ => (c, NotPlainObject)
      end
  end.
Proof. by destruct fuel. Qed.

Lemma batchUpdate_unfold host fuel updates c :
  batchUpdate host fuel updates c =
  match fuel with
  | 0 => (c, Unfinished)
  | S n =>
      match assign_entries updates c with
      | (c1, Returned) =>
          walk host n "*" 0
            (Store.GlobalBatchArgs (VRef (_state (store c1))) (updates.*1)) c1
      | r => r
      end
  end.
Proof. by destruct fuel. Qed.

Lemma each_unfold host fuel fs a c :
  each host fuel fs a c =
  match fuel with
  | 0 => (c, Unfinished)
  | S n =>
      match fs with
      | [] => (c, Returned)
      | f :: fs' =>
          match call host n f a c with
          | (c1, Returned) => each host n fs' a c1
          | r => r
          end
      end
  end.
Proof. by destruct fuel. Qed.

Lemma walk_unfold host fuel key i a c :
  walk host fuel key i a c =
  match fuel with
  | 0 => (c, Unfinished)
  | S n =>
      match _listeners (store c) !! key with
      | None => (c, Returned)
      | Some s =>
          match s !! i with
          | None => (c, Returned)
          | Some None => walk host n key (S i) a c
          | Some (Some f) =>
              match call host n f a c with
              | (c1, Returned) => walk host n key (S i) a c1
              | r => r
              end
          end
      end
  end.
Proof. by destruct fuel. Qed.

Lemma call_unfold host fuel f a c :
  call host fuel f a c =
  match fuel with
  | 0 => (c, Unfinished)
  | S n =>
      run (perform (setState host n) (batchUpdate host n)) (host f a)
          (Config (store c)
             (Store.World (Store.mem (world c))
                          (Store.log (world c) ++ [Store.Call f a])))
  end.
Proof. by destruct fuel. Qed.

#[local] Arguments setState : simpl never.
#[local] Arguments batchUpdate : simpl never.
#[local] Arguments each : simpl never.
#[local] Arguments walk : simpl never.
#[local] Arguments call : simpl never.

Lemma with_mem_same c : with_mem (Store.mem (world c)) c = c.
Proof. by destruct c as [s [h l]]. Qed.

Lemma run_quiet perform_ p c :
  (∀ f c, perform_ (AWrite f) c = (with_mem (f (Store.mem (world c))) c, Returned)) →
  quiet p →
  run perform_ p c =
  (with_mem (effect p (Store.mem (world c))).1 c,
   match (effect p (Store.mem (world c))).2 with
   | None => Returned
   | Some e => Threw e
   end).
Proof.
  intros Hw. revert c. induction p as [|e|a next IH|next IH]; intros c Hq; simpl.
  - by rewrite with_mem_same.
  - by rewrite with_mem_same.
  - destruct a; try done. rewrite Hw. rewrite IH by done.
    by destruct c as [s [h l]].
  - simpl in Hq. by rewrite IH.
Qed.

Section Quiet.

Variable host : fn → Store.call_args → prog.
Hypothesis Hquiet : ∀ f a, quiet (host f a).

Lemma call_quiet n f a c :
  call host (S n) f a c = lift c (Store.call (lower host) f a (world c)).
Proof.
  rewrite call_unfold. rewrite run_quiet; [|done|apply Hquiet].
  unfold lift, Store.call, lower, with_mem; simpl.
  by destruct (effect (host f a) (Store.mem (world c))) as [h [e|]].
Qed.

Lemma lift_lift c w r : lift (Config (store c) w) r = lift c r.
Proof. done. Qed.

Lemma each_quiet fuel fs a c :
  length fs < fuel →
  each host fuel fs a c =
  lift c (Store.notify (lower host) (map (λ f, Store.Call f a) fs) (world c)).
Proof.
  revert fs c. induction fuel as [|n IH]; intros fs c Hlen; [lia|].
  rewrite each_unfold. destruct fs as [|f fs]; simpl.
  - by destruct c.
  - simpl in Hlen. destruct n as [|n]; [lia|].
    rewrite call_quiet. unfold Store.bind.
    destruct (Store.call (lower host) f a (world c)) as [w1 [[]|e]]; simpl; [|done].
    rewrite IH by lia. done.
Qed.

Lemma walk_quiet fuel key i a c :
  length (default [] (_listeners (store c) !! key)) - i + 2 ≤ fuel →
  walk host fuel key i a c =
  lift c (Store.notify (lower host)
            (map (λ f, Store.Call f a)
                 (members (drop i (default [] (_listeners (store c) !! key)))))
            (world c)).
Proof.
  revert i c. induction fuel as [|n IH]; intros i c Hlen; [lia|].
  rewrite walk_unfold.
  destruct (_listeners (store c) !! key) as [s|] eqn:Hs; simpl in *.
  - destruct (s !! i) as [[f|]|] eqn:Hi; rewrite ?Hi.
    + pose proof (lookup_lt_Some _ _ _ Hi) as Hlt.
      rewrite (drop_S _ _ _ Hi). simpl.
      destruct n as [|n]; [lia|].
      rewrite call_quiet. unfold Store.bind.
      destruct (Store.call (lower host) f a (world c)) as [w1 [[]|e]]; simpl; [|done].
      rewrite IH by (simpl; rewrite Hs; simpl; lia).
      simpl. by rewrite Hs.
    + pose proof (lookup_lt_Some _ _ _ Hi) as Hlt.
      rewrite (drop_S _ _ _ Hi). simpl.
      rewrite IH by (rewrite Hs; simpl; lia). by rewrite Hs.
    + apply lookup_ge_None in Hi. rewrite drop_ge by done. by destruct c.
  - rewrite drop_nil. by destruct c.
Qed.

Lemma setState_quiet fuel key value c ps ps' :
  Store.mem (world c) !! _state (store c) = Some (Obj ps) →
  Assign ps key value = Assigned ps' →
  budget (store c) key ≤ fuel →
  setState host fuel key value c =
  lift c (Store.notify (lower host)
            (setState_calls (store c) key (Get ps key) value)
            (Store.World (<[_state (store c) := Obj ps']> (Store.mem (world c)))
                         (Store.log (world c)))).
Proof.
  intros Hps Ha Hfuel. unfold budget in Hfuel.
  destruct fuel as [|n]; [lia|].
  rewrite setState_unfold, Hps. unfold assign. rewrite Hps, Ha. simpl.
  unfold setState_calls. rewrite Store.notify_app. unfold Store.bind.
  rewrite each_quiet by (simpl; lia). simpl.
  destruct (Store.notify (lower host) (map _ (_middlewares (store c))) _)
    as [w1 [[]|e]]; simpl; [|done].
  rewrite Store.notify_app. unfold Store.bind.
  rewrite walk_quiet by (simpl; lia). simpl. rewrite drop_0. fold (listeners_of (store c) key).
  destruct (Store.notify (lower host) (map _ (listeners_of (store c) key)) w1)
    as [w2 [[]|e]]; simpl; [|done].
  rewrite walk_quiet by (simpl; lia). simpl. by rewrite drop_0.
Qed.

End Quiet.

(** *** The assignments of batchUpdate *)

(** The own properties after assigning the pairs one after the other. *)
Fixpoint assign_all (ps : list (string * val)) (updates : list (string * val))
  : assignment :=
  match updates with
  | [] => Assigned ps
  | (k, v) :: updates' =>
      match Assign ps k v with
      | Assigned ps' => assign_all ps' updates'
      | ReplacesPrototype => ReplacesPrototype
      end
  end.

(** No assignment makes [__proto__] an own property, or removes it. *)
Lemma Assign_own_proto ps k v ps' k' :
  Assign ps k v = Assigned ps' →
  reaches_proto_setter ps' k' ↔ reaches_proto_setter ps k'.
Proof.
  intros Ha. destruct (decide (reaches_proto_setter ps k)) as [Hs|Hs].
  - by rewrite (Assign_setter _ _ _ _ Hs Ha).
  - rewrite Assign_stores in Ha by done. injection Ha as <-.
    unfold reaches_proto_setter in *.
    destruct (decide (k = k')) as [<-|Hne].
    + rewrite prop_lookup_store_eq. split; [by intros [_ ?] | tauto].
    + by rewrite prop_lookup_store_ne.
Qed.

Lemma assign_all_own_proto ps us ps' k :
  assign_all ps us = Assigned ps' →
  reaches_proto_setter ps' k ↔ reaches_proto_setter ps k.
Proof.
  revert ps. induction us as [|[k0 v0] us IH]; intros ps; simpl.
  - by intros [= <-].
  - destruct (Assign ps k0 v0) as [ps1|] eqn:Ha; [|done].
    intros Hall. rewrite (IH _ Hall). by eapply Assign_own_proto.
Qed.

Lemma live_assign_all_other ps us ps' k :
  assign_all ps us = Assigned ps' → k ∉ us.*1 → Get ps' k = Get ps k.
Proof.
  revert ps. induction us as [|[k0 v0] us IH]; intros ps; simpl.
  - by intros [= <-].
  - destruct (Assign ps k0 v0) as [ps1|] eqn:Ha; [|done].
    intros Hall [Hne Hk]%not_elem_of_cons.
    rewrite (IH _ Hall Hk). eapply Assign_other; [done | congruence].
Qed.

Lemma live_assign_all_lookup ps us ps' k v :
  NoDup (us.*1) → assign_all ps us = Assigned ps' → (k, v) ∈ us →
  ¬ reaches_proto_setter ps k → Get ps' k = v.
Proof.
  revert ps. induction us as [|[k0 v0] us IH]; intros ps Hnd; simpl.
  - by intros _ ?%elem_of_nil.
  - simpl in Hnd. apply NoDup_cons in Hnd as [Hfresh Hnd].
    destruct (Assign ps k0 v0) as [ps1|] eqn:Ha; [|done].
    intros Hall [[= -> ->]|Hin]%elem_of_cons Hs.
    + rewrite (live_assign_all_other _ _ _ _ Hall Hfresh).
      by eapply Assign_reads_back.
    + eapply IH; [done|done|done|]. by rewrite (Assign_own_proto _ _ _ _ _ Ha).
Qed.

Lemma assign_all_setter ps us ps' k :
  assign_all ps us = Assigned ps' → reaches_proto_setter ps k →
  Get ps' k = VBuiltin ObjectPrototype.
Proof.
  intros Hall Hs. apply (assign_all_own_proto _ _ _ k Hall) in Hs as [-> Hk].
  unfold Get. by rewrite Hk.
Qed.

Lemma with_mem_with_mem h h' c : with_mem h (with_mem h' c) = with_mem h c.
Proof. done. Qed.

Lemma assign_entries_all us c ps ps' :
  Store.mem (world c) !! _state (store c) = Some (Obj ps) →
  assign_all ps us = Assigned ps' →
  assign_entries us c =
  (with_mem (<[_state (store c) := Obj ps']> (Store.mem (world c))) c, Returned).
Proof.
  revert c ps. induction us as [|[k0 v0] us IH]; intros c ps Hps; simpl.
  - intros [= <-]. by rewrite insert_id, with_mem_same.
  - unfold assign. rewrite Hps.
    destruct (Assign ps k0 v0) as [ps1|] eqn:Ha; [|done].
    intros Hall. erewrite IH; [|simpl; apply lookup_insert_eq|done].
    simpl. by rewrite insert_insert_eq.
Qed.

Section QuietBatch.

Variable host : fn → Store.call_args → prog.
Hypothesis Hquiet : ∀ f a, quiet (host f a).

Lemma batchUpdate_quiet fuel updates c ps ps' :
  Store.mem (world c) !! _state (store c) = Some (Obj ps) →
  assign_all ps updates = Assigned ps' →
  budget (store c) "*" ≤ fuel →
  batchUpdate host fuel updates c =
  lift c (Store.notify (lower host) (batchUpdate_calls (store c) updates)
            (Store.World (<[_state (store c) := Obj ps']> (Store.mem (world c)))
                         (Store.log (world c)))).
Proof.
  intros Hps Hall Hfuel. unfold budget in Hfuel.
  destruct fuel as [|n]; [lia|].
  rewrite batchUpdate_unfold, (assign_entries_all _ _ _ _ Hps Hall).
  rewrite walk_quiet by (done || (simpl; lia)). simpl. by rewrite drop_0.
Qed.

(** Where nothing is inherited under the key, this is [Store.setState] on the
    store with the same registrations. *)
Lemma setState_agrees fuel key value c :
  is_object (Store.mem (world c)) (_state (store c)) →
  inherited key = VUndef →
  budget (store c) key ≤ fuel →
  setState host fuel key value c =
  lift c (Store.setState (lower host) (erase (store c)) key value (world c)).
Proof.
  intros [ps Hps] Hkey Hfuel.
  assert (Hs : ¬ reaches_proto_setter ps key).
  { intros [-> _]. by apply inherited_proto in Hkey. }
  rewrite (setState_quiet host Hquiet fuel key value c ps _ Hps
             (Assign_stores _ _ _ Hs) Hfuel).
  rewrite Store.setState_notify. f_equal. f_equal.
  - unfold Store.setState_calls, setState_calls. rewrite !listeners_of_erase.
    simpl. unfold get_prop. rewrite Hps. by rewrite Get_own.
  - simpl. unfold set_prop. by rewrite Hps.
Qed.

Lemma Store_assign_all_props l us (h : heap) ps :
  h !! l = Some (Obj ps) → "__proto__" ∉ us.*1 →
  ∃ ps', assign_all ps us = Assigned ps' ∧
         Store.assign_all l us h = <[l := Obj ps']> h.
Proof.
  revert h ps. induction us as [|[k0 v0] us IH]; intros h ps Hps.
  - intros _. exists ps. simpl. by rewrite insert_id.
  - rewrite fmap_cons. intros [Hne Hk]%not_elem_of_cons.
    rewrite Store.assign_all_cons. cbn [assign_all].
    rewrite Assign_stores by (intros [-> _]; done).
    destruct (IH (set_prop h l k0 v0) (prop_store k0 v0 ps)) as (ps' & Hall & Hheap);
      [unfold set_prop; rewrite Hps; apply lookup_insert_eq | done |].
    exists ps'. split; [done|]. rewrite Hheap. unfold set_prop. rewrite Hps.
    by rewrite insert_insert_eq.
Qed.

(** And this is [Store.batchUpdate], when no key is [__proto__]. *)
Lemma batchUpdate_agrees fuel updates c :
  is_object (Store.mem (world c)) (_state (store c)) →
  "__proto__" ∉ updates.*1 →
  budget (store c) "*" ≤ fuel →
  batchUpdate host fuel updates c =
  lift c (Store.batchUpdate (lower host) (erase (store c)) updates (world c)).
Proof.
  intros [ps Hps] Hkeys Hfuel.
  destruct (Store_assign_all_props _ _ _ _ Hps Hkeys) as (ps' & Hall & Hheap).
  rewrite (batchUpdate_quiet fuel updates c ps ps' Hps Hall Hfuel).
  rewrite Store.batchUpdate_notify. f_equal. f_equal.
  - unfold Store.batchUpdate_calls, batchUpdate_calls. by rewrite listeners_of_erase.
  - simpl. by rewrite Hheap.
Qed.

End QuietBatch.

Lemma calls_of_setState_calls f this key o v :
  Store.calls_of f (setState_calls this key o v) =
  length (filter (λ g, g = f) (_middlewares this))
  + length (filter (λ g, g = f) (listeners_of this key))
  + length (filter (λ g, g = f) (listeners_of this "*")).
Proof.
  unfold setState_calls. rewrite !Store.calls_of_app.
  rewrite (Store.calls_of_map f (λ _, Store.MiddlewareArgs _ _ _ _)).
  rewrite (Store.calls_of_map f (λ _, Store.ListenerArgs _ _)).
  rewrite (Store.calls_of_map f (λ _, Store.GlobalArgs _ _)). lia.
Qed.

Lemma live_listener_calls_setState_calls f this key o v :
  Store.listener_calls f (setState_calls this key o v) =
  length (filter (λ g, g = f) (listeners_of this key)).
Proof.
  unfold setState_calls. rewrite !Store.listener_calls_app.
  rewrite (Store.listener_calls_other f (λ _, Store.MiddlewareArgs _ _ _ _)) by done.
  rewrite (Store.listener_calls_other f (λ _, Store.GlobalArgs _ _)) by done.
  rewrite Store.listener_calls_listeners. lia.
Qed.

Lemma filter_eq_count (f : fn) (fs : list fn) :
  NoDup fs →
  length (filter (λ g, g = f) fs) = if decide (f ∈ fs) then 1 else 0.
Proof.
  intros Hnd. destruct (decide (f ∈ fs)) as [Hin|Hout].
  - by apply Store.filter_eq_once.
  - by rewrite Store.filter_eq_absent.
Qed.

Lemma lift_inv c r c' e :
  lift c r = (c', e) → store c' = store c ∧ r.1 = world c' ∧ e = ending_of r.2.
Proof. unfold lift. by intros [= <- <-]. Qed.

(** A host in which function [f] throws [e] and every other callback does
    nothing. *)
Definition throwing_host (f : fn) (e : exn) : fn → Store.call_args → prog :=
  λ g _, if decide (g = f) then Throw e else Return.

Lemma quiet_host_quiet f a : quiet (quiet_host f a).
Proof. done. Qed.

Lemma throwing_host_quiet g e f a : quiet (throwing_host g e f a).
Proof. unfold throwing_host. by destruct (decide (f = g)). Qed.

Lemma demo_store_wf : wf demo_store.
Proof. apply live_do_methods_wf, live_constructor_wf. Qed.

(** *** setState *)

(** C1, as the code has it.  Let no callback call a method of the store, let
    the state be a plain object, and let the assignment not replace the
    prototype of the state.  Then [setState(key, value)] reads as the old
    value what [state[key]] reads, an own property or what [Object.prototype]
    has under the key; it assigns, after which [state[key]] reads [value]
    (unless the key is [__proto__] and the state has no own property of that
    name: then nothing is stored) and every other key reads as before; and
    then, starting in the heap in which the assignment is done, it makes the
    calls of [setState_calls] in that order: all middleware in registration
    order with [{key, oldValue, newValue, state}], then the subscribers on
    [key] in registration order with [(newValue, oldValue)], then the
    subscribers on ['*'] with the state object and the key.  It returns or
    throws what a callback threw; the calls made are an initial part of that
    sequence, and the whole of it when it returns; the registrations are
    unchanged. *)
Theorem setState_effect_order host fuel key value c c' r ps ps' :
  (∀ f a, quiet (host f a)) →
  Store.mem (world c) !! _state (store c) = Some (Obj ps) →
  Assign ps key value = Assigned ps' →
  budget (store c) key ≤ fuel →
  setState host fuel key value c = (c', r) →
  let oldValue := Get ps key in
  let assigned :=
    Store.World (<[_state (store c) := Obj ps']> (Store.mem (world c)))
                (Store.log (world c)) in
  let calls := setState_calls (store c) key oldValue value in
  (¬ reaches_proto_setter ps key → Get ps' key = value) ∧
  (reaches_proto_setter ps key → ps' = ps) ∧
  (∀ k, k ≠ key → Get ps' k = Get ps k) ∧
  store c' = store c ∧
  (∃ e, Store.notify (lower host) calls assigned = (world c', e) ∧
        r = ending_of e) ∧
  ∃ made, Store.log (world c') = Store.log (world c) ++ made ∧
          made `prefix_of` calls ∧
          (r = Returned → made = calls).
Proof.
  intros Hquiet Hps Ha Hfuel Hrun oldValue assigned calls.
  rewrite (setState_quiet host Hquiet fuel key value c ps ps' Hps Ha Hfuel) in Hrun.
  fold oldValue assigned calls in Hrun.
  destruct (Store.notify (lower host) calls assigned) as [w' e] eqn:Hn.
  apply lift_inv in Hrun as (Hstore & Hw & Hr). simpl in Hw, Hr. subst w'.
  split_and!.
  - intros Hs. by eapply Assign_reads_back.
  - intros Hs. by eapply Assign_setter.
  - intros k Hk. by eapply Assign_other.
  - done.
  - by exists e.
  - destruct (Store.notify_log _ _ _ _ _ Hn) as (made & Hlog & Hpre & Hall).
    exists made. split_and!; [done|done|].
    intros ->. apply Hall. by destruct e as [[]|].
Qed.

(** X1. [setState] does not undo its assignment: when the callbacks call no
    method of the store and leave the state object alone, then after
    [setState(key, value)], whether it returned or a callback threw, the
    state reads [value] at [key] and what it read before at every other key.
    The one exception is the key [__proto__] when the state has no own
    property of that name: a primitive assigned there is not stored, and the
    state is what it was. *)
Theorem setState_assigns host fuel key value c ps ps' :
  (∀ f a, quiet (host f a)) →
  (∀ f a h, (effect (host f a) h).1 !! _state (store c) = h !! _state (store c)) →
  Store.mem (world c) !! _state (store c) = Some (Obj ps) →
  Assign ps key value = Assigned ps' →
  budget (store c) key ≤ fuel →
  let c' := (setState host fuel key value c).1 in
  Store.mem (world c') !! _state (store c) = Some (Obj ps') ∧
  (¬ reaches_proto_setter ps key → Get ps' key = value) ∧
  (reaches_proto_setter ps key →
     ps' = ps ∧ Get ps' key = VBuiltin ObjectPrototype) ∧
  ∀ k, k ≠ key → Get ps' k = Get ps k.
Proof.
  intros Hquiet Hkeep Hps Ha Hfuel c'. unfold c'.
  rewrite (setState_quiet host Hquiet fuel key value c ps ps' Hps Ha Hfuel).
  simpl. split_and!.
  - rewrite (Store.notify_cell (lower host) (_state (store c))) by done.
    simpl. apply lookup_insert_eq.
  - intros Hs. by eapply Assign_reads_back.
  - intros Hs. rewrite (Assign_setter _ _ _ _ Hs Ha). split; [done|].
    destruct Hs as [-> Hk]. unfold Get. by rewrite Hk.
  - intros k Hk. by eapply Assign_other.
Qed.

(** X2. Nothing in [setState] catches what a callback throws: when no
    callback calls a method of the store and [setState] ends with an
    exception, the callback that threw it is the last one that was called,
    the callbacks that precede it in the order of [setState] were all called,
    and those that follow it were not. *)
Theorem setState_throw_stops host fuel key value c c' e ps ps' :
  (∀ f a, quiet (host f a)) →
  Store.mem (world c) !! _state (store c) = Some (Obj ps) →
  Assign ps key value = Assigned ps' →
  budget (store c) key ≤ fuel →
  setState host fuel key value c = (c', Threw e) →
  ∃ before thrower after h,
    setState_calls (store c) key (Get ps key) value = before ++ thrower :: after ∧
    Store.log (world c') = Store.log (world c) ++ before ++ [thrower] ∧
    (effect (host (Store.callee thrower) (Store.passed thrower)) h).2 = Some e.
Proof.
  intros Hquiet Hps Ha Hfuel Hrun.
  rewrite (setState_quiet host Hquiet fuel key value c ps ps' Hps Ha Hfuel) in Hrun.
  destruct (Store.notify (lower host) _ _) as [w' r] eqn:Hn.
  apply lift_inv in Hrun as (Hstore & Hw & Hr). simpl in Hw, Hr. subst w'.
  destruct r as [[]|e']; [done|]. injection Hr as <-.
  destruct (Store.notify_abrupt _ _ _ _ _ Hn)
    as (before & thrower & after & h & Hcalls & Hlog & He).
  exists before, thrower, after, h. done.
Qed.

(** *** batchUpdate *)

(** C3, as the code has it.  Let no callback call a method of the store, let
    the state be a plain object, let the keys of [updates] be distinct (they
    are the own keys of an object), and let no assignment replace the
    prototype of the state.  Then [batchUpdate(updates)] assigns the pairs:
    afterwards the state reads [v] at [k] for every pair [(k, v)], except
    that a pair with key [__proto__] is not stored when the state has no own
    property of that name, and every key that is not among the updates reads
    as before.  It runs no middleware and no per-key subscriber, and then,
    from the heap in which the assignments are done, calls the subscribers on
    ['*'] with the state object and the list of the changed keys: the calls
    made are calls of that kind only, an initial part of [batchUpdate_calls],
    and when it returns every subscriber on ['*'] has been called exactly
    once. *)
Theorem batchUpdate_wildcard_once host fuel updates c c' r ps ps' :
  (∀ f a, quiet (host f a)) →
  NoDup (updates.*1) → wf (store c) →
  Store.mem (world c) !! _state (store c) = Some (Obj ps) →
  assign_all ps updates = Assigned ps' →
  budget (store c) "*" ≤ fuel →
  batchUpdate host fuel updates c = (c', r) →
  let assigned :=
    Store.World (<[_state (store c) := Obj ps']> (Store.mem (world c)))
                (Store.log (world c)) in
  let calls := batchUpdate_calls (store c) updates in
  (∀ k v, (k, v) ∈ updates → ¬ reaches_proto_setter ps k → Get ps' k = v) ∧
  (∀ k, reaches_proto_setter ps k → Get ps' k = VBuiltin ObjectPrototype) ∧
  (∀ k, k ∉ updates.*1 → Get ps' k = Get ps k) ∧
  store c' = store c ∧
  (∃ e, Store.notify (lower host) calls assigned = (world c', e) ∧
        r = ending_of e) ∧
  ∃ made, Store.log (world c') = Store.log (world c) ++ made ∧
          made `prefix_of` calls ∧
          Forall (λ e, Store.is_global_batch_call e = true) made ∧
          (∀ f, Store.listener_calls f made = 0) ∧
          (∀ f, Store.middleware_calls f made = 0) ∧
          (r = Returned →
           made = calls ∧
           ∀ f, f ∈ listeners_of (store c) "*" → Store.calls_of f made = 1).
Proof.
  intros Hquiet Hkeys Hwf Hps Hall Hfuel Hrun assigned calls.
  rewrite (batchUpdate_quiet host Hquiet fuel updates c ps ps' Hps Hall Hfuel) in Hrun.
  fold assigned calls in Hrun.
  destruct (Store.notify (lower host) calls assigned) as [w' e] eqn:Hn.
  apply lift_inv in Hrun as (Hstore & Hw & Hr). simpl in Hw, Hr. subst w'.
  split_and!.
  - intros k v Hin Hs. by eapply live_assign_all_lookup.
  - intros k Hs. by eapply assign_all_setter.
  - intros k Hk. by eapply live_assign_all_other.
  - done.
  - by exists e.
  - destruct (Store.notify_log _ _ _ _ _ Hn) as (made & Hlog & Hpre & Hmade).
    assert (Hkind : Forall (λ e, Store.is_global_batch_call e = true) calls).
    { unfold calls, batchUpdate_calls. apply Forall_forall. intros x Hx.
      apply list_elem_of_In, in_map_iff in Hx as (g & <- & _). done. }
    exists made. split_and!; [done|done| | | |].
    + destruct Hpre as [rest Hrest]. rewrite Hrest in Hkind.
      by apply Forall_app in Hkind as [? _].
    + intros f. pose proof (Store.listener_calls_prefix f _ _ Hpre) as Hle.
      unfold calls, batchUpdate_calls in Hle.
      rewrite (Store.listener_calls_other f (λ _, Store.GlobalBatchArgs _ _)) in Hle
        by done. lia.
    + intros f. destruct Hpre as [rest Hrest].
      assert (Hz : Store.middleware_calls f calls = 0).
      { unfold calls, batchUpdate_calls.
        by rewrite (Store.middleware_calls_other f (λ _, Store.GlobalBatchArgs _ _)). }
      rewrite Hrest, Store.middleware_calls_app in Hz. lia.
    + intros ->. assert (Hm : made = calls) by (apply Hmade; by destruct e as [[]|]).
      split; [done|]. intros f Hf. rewrite Hm. unfold calls, batchUpdate_calls.
      rewrite (Store.calls_of_map f (λ _, Store.GlobalBatchArgs _ _)).
      apply Store.filter_eq_once; [by apply listeners_NoDup | done].
Qed.

(** *** subscribe and its disposer *)

Lemma live_dispose_listeners_eq d this s :
  dispose d this = Normal s →
  listeners_of s (Store.d_key d) =
  Store.Set_delete (Store.d_callback d) (listeners_of this (Store.d_key d)).
Proof.
  intros Hd. rewrite <- !listeners_of_erase.
  by apply Store.dispose_listeners_eq, erase_dispose.
Qed.

Lemma live_dispose_listeners_ne d this s key' :
  dispose d this = Normal s → Store.d_key d ≠ key' →
  listeners_of s key' = listeners_of this key'.
Proof.
  intros Hd Hne. rewrite <- !listeners_of_erase.
  eapply Store.dispose_listeners_ne; [by apply erase_dispose | done].
Qed.

Lemma live_dispose_middlewares d this s :
  dispose d this = Normal s → _middlewares s = _middlewares this ∧ _state s = _state this.
Proof.
  unfold dispose. destruct (_listeners this !! Store.d_key d) as [fs|]; [|done].
  by intros [= <-].
Qed.

(** C4, as the code has it.  The callbacks of a key are a [Set]: subscribing
    a (key, callback) pair that is registered already changes nothing, so
    the two subscriptions are one registration with two equal disposers.  A
    [setState] on the key in which no callback calls a method of the store,
    and which returns, calls the callback once with
    [(newValue, oldValue)]; in all it calls it once more for each time it is
    registered as middleware, and once more if it is subscribed to ['*'] (so
    twice at least when the key is ['*'] itself).  Either disposer removes
    the registration, after which such a [setState] does not call the
    callback with [(newValue, oldValue)] any more, and calls it only as often
    as it is registered as middleware, plus once if it is subscribed to
    ['*'].  A disposer removes its own pair only: the other callbacks of the
    key keep their order, and the other keys and the middleware are
    untouched. *)
Theorem subscribe_same_pair_once this key callback :
  wf this →
  let s1 := (subscribe key callback this).1 in
  let d1 := (subscribe key callback this).2 in
  let s2 := (subscribe key callback s1).1 in
  let d2 := (subscribe key callback s1).2 in
  s2 = s1 ∧ d2 = d1 ∧
  (∀ host fuel value w c' ps ps',
     (∀ f a, quiet (host f a)) →
     Store.mem w !! _state s2 = Some (Obj ps) →
     Assign ps key value = Assigned ps' →
     budget s2 key ≤ fuel →
     setState host fuel key value (Config s2 w) = (c', Returned) →
     ∃ made, Store.log (world c') = Store.log w ++ made ∧
       Store.listener_calls callback made = 1 ∧
       Store.calls_of callback made =
         length (filter (λ g, g = callback) (_middlewares s2)) + 1
         + (if decide (callback ∈ listeners_of s2 "*") then 1 else 0)) ∧
  ∃ s3, dispose d1 s2 = Normal s3 ∧
        (callback ∉ listeners_of s3 key) ∧
        listeners_of s3 key = filter (λ g, g ≠ callback) (listeners_of s2 key) ∧
        (∀ key', key' ≠ key → listeners_of s3 key' = listeners_of s2 key') ∧
        _middlewares s3 = _middlewares s2 ∧
        (∀ host fuel value w c' r ps ps',
           (∀ f a, quiet (host f a)) →
           Store.mem w !! _state s3 = Some (Obj ps) →
           Assign ps key value = Assigned ps' →
           budget s3 key ≤ fuel →
           setState host fuel key value (Config s3 w) = (c', r) →
           ∃ made, Store.log (world c') = Store.log w ++ made ∧
             Store.listener_calls callback made = 0 ∧
             (r = Returned →
              Store.calls_of callback made =
                length (filter (λ g, g = callback) (_middlewares s3))
                + (if decide (callback ∈ listeners_of s3 "*") then 1 else 0))).
Proof.
  intros Hwf s1 d1 s2 d2.
  assert (Hs2 : s2 = s1) by apply live_subscribe_again.
  assert (Hwf1 : wf s1). { by apply live_subscribe_wf. }
  assert (Hin : callback ∈ listeners_of s1 key).
  { unfold s1. rewrite live_subscribe_listeners_eq. apply Store.Set_add_elem. by left. }
  assert (Hrun : ∀ host fuel value s w c' r ps ps',
            (∀ f a, quiet (host f a)) →
            Store.mem w !! _state s = Some (Obj ps) →
            Assign ps key value = Assigned ps' →
            budget s key ≤ fuel →
            setState host fuel key value (Config s w) = (c', r) →
            ∃ made, Store.log (world c') = Store.log w ++ made ∧
                    made `prefix_of` setState_calls s key (Get ps key) value ∧
                    (r = Returned → made = setState_calls s key (Get ps key) value)).
  { intros host fuel value s w c' r ps ps' Hquiet Hps Ha Hfuel Hset.
    rewrite (setState_quiet host Hquiet fuel key value (Config s w) ps ps' Hps Ha Hfuel)
      in Hset. simpl in Hset.
    destruct (Store.notify (lower host) _ _) as [w' e] eqn:Hn.
    apply lift_inv in Hset as (_ & Hw & Hr). simpl in Hw, Hr. subst w'.
    destruct (Store.notify_log _ _ _ _ _ Hn) as (made & Hlog & Hpre & Hall).
    exists made. split_and!; [done|done|].
    intros ->. apply Hall. by destruct e as [[]|]. }
  split_and!; [done|done| |].
  - intros host fuel value w c' ps ps' Hquiet Hps Ha Hfuel Hset.
    destruct (Hrun _ _ _ _ _ _ _ _ _ Hquiet Hps Ha Hfuel Hset)
      as (made & Hlog & _ & Hall).
    exists made. split; [done|]. rewrite (Hall eq_refl).
    rewrite live_listener_calls_setState_calls, calls_of_setState_calls.
    rewrite Hs2.
    rewrite (Store.filter_eq_once callback (listeners_of s1 key))
      by (done || by apply listeners_NoDup).
    rewrite (filter_eq_count callback (listeners_of s1 "*"))
      by (by apply listeners_NoDup).
    done.
  - assert (Hkey : is_Some (_listeners s2 !! Store.d_key d1)).
    { rewrite Hs2. apply live_subscribe_has_key. }
    destruct Hkey as [s Hs].
    assert (Hd : ∃ s3, dispose d1 s2 = Normal s3).
    { unfold dispose. rewrite Hs. by eexists. }
    destruct Hd as [s3 Hs3]. exists s3.
    pose proof (live_dispose_listeners_eq _ _ _ Hs3) as Heq. simpl in Heq.
    assert (Hwf3 : wf s3). { eapply dispose_wf; [done|]. by rewrite Hs2. }
    assert (Hout : callback ∉ listeners_of s3 key).
    { rewrite Heq. intros [Hne _]%Store.Set_delete_elem. done. }
    split_and!; [done|done|done| | |].
    + intros key' Hne. eapply live_dispose_listeners_ne; [done|]. simpl. congruence.
    + by apply live_dispose_middlewares in Hs3 as [? _].
    + intros host fuel value w c' r ps ps' Hquiet Hps Ha Hfuel Hset.
      destruct (Hrun _ _ _ _ _ _ _ _ _ Hquiet Hps Ha Hfuel Hset)
        as (made & Hlog & Hpre & Hall).
      exists made. split; [done|]. split.
      * pose proof (Store.listener_calls_prefix callback _ _ Hpre) as Hle.
        rewrite live_listener_calls_setState_calls, Store.filter_eq_absent in Hle by done.
        simpl in Hle. lia.
      * intros Hr. rewrite (Hall Hr), calls_of_setState_calls.
        rewrite (Store.filter_eq_absent callback (listeners_of s3 key)) by done.
        rewrite (filter_eq_count callback (listeners_of s3 "*"))
          by (by apply listeners_NoDup).
        simpl. lia.
Qed.

(** *** Examples *)

Lemma setState_effect_order_witness :
  Store.log (world (setState quiet_host 8 "constructor" (VStr "light") demo).1) =
  [ Store.Call 10 (Store.MiddlewareArgs "constructor" (VBuiltin ObjectConstructor)
                     (VStr "light") (VRef 1%positive));
    Store.Call 11 (Store.MiddlewareArgs "constructor" (VBuiltin ObjectConstructor)
                     (VStr "light") (VRef 1%positive));
    Store.Call 30 (Store.GlobalArgs (VRef 1%positive) "constructor") ].
Proof.
  set (r := setState quiet_host 8 "constructor" (VStr "light") demo).
  assert (Hc : r.2 = Returned) by (vm_compute; reflexivity).
  destruct (setState_effect_order quiet_host 8 "constructor" (VStr "light") demo
              r.1 Returned
              [("theme", VStr "dark"); ("isLoading", VBool false)]
              [("theme", VStr "dark"); ("isLoading", VBool false);
               ("constructor", VStr "light")])
    as (_ & _ & _ & _ & _ & made & Hlog & _ & Hall).
  - done.
  - vm_compute. reflexivity.
  - vm_compute. reflexivity.
  - vm_compute. lia.
  - rewrite <- Hc. apply surjective_pairing.
  - rewrite Hlog, (Hall eq_refl). vm_compute. reflexivity.
Defined.

(** C1, as the specification states it, fails when a callback calls the
    store.  Functions 20 and 21 are subscribed to ["theme"], in that order.
    While [setState("theme", "light")] is notifying, function 20 invokes the
    disposer of function 21 and subscribes function 22.  The call returns;
    function 21, registered on the key when [setState] was called, has not
    been invoked, and function 22, which was not, has been. *)
Lemma setState_walks_live_set_counterexample :
  let r := setState disposing_host 20 "theme" (VStr "light") demo in
  r.2 = Returned ∧
  listeners_of demo_store "theme" = [20; 21] ∧
  Store.calls_of 20 (Store.log (world r.1)) = 1 ∧
  Store.calls_of 21 (Store.log (world r.1)) = 0 ∧
  Store.calls_of 22 (Store.log (world r.1)) = 1.
Proof. intros r. split_and!; vm_compute; reflexivity. Qed.

Lemma batchUpdate_wildcard_once_witness :
  Store.log (world (batchUpdate quiet_host 8
                      [("theme", VStr "light"); ("isLoading", VBool true)] demo).1) =
  [ Store.Call 30 (Store.GlobalBatchArgs (VRef 1%positive) ["theme"; "isLoading"]) ].
Proof.
  set (us := [("theme", VStr "light"); ("isLoading", VBool true)]).
  set (r := batchUpdate quiet_host 8 us demo).
  assert (Hc : r.2 = Returned) by (vm_compute; reflexivity).
  destruct (batchUpdate_wildcard_once quiet_host 8 us demo r.1 Returned
              [("theme", VStr "dark"); ("isLoading", VBool false)]
              [("theme", VStr "light"); ("isLoading", VBool true)])
    as (_ & _ & _ & _ & _ & made & Hlog & _ & _ & _ & _ & Hall).
  - done.
  - simpl. apply NoDup_cons. split; [|apply NoDup_singleton].
    intros Hin%list_elem_of_singleton. discriminate.
  - apply demo_store_wf.
  - vm_compute. reflexivity.
  - vm_compute. reflexivity.
  - vm_compute. lia.
  - rewrite <- Hc. apply surjective_pairing.
  - rewrite Hlog. destruct (Hall eq_refl) as [-> _]. vm_compute. reflexivity.
Defined.

(** C3, as the specification states it, fails in two ways.  A pair with the
    key [__proto__] is not assigned to the state: after
    [batchUpdate({["__proto__"]: "light"})] the state has the members it had
    and [state.__proto__] is [Object.prototype], not ["light"].  And a
    subscriber on ['*'] is called twice by one [batchUpdate] when another
    one, called after it, invokes its disposer and subscribes it again:
    here function 31 does that to function 30. *)
Lemma batchUpdate_wildcard_once_counterexample :
  (let r := batchUpdate quiet_host 8 [("__proto__", VStr "light")] demo in
   r.2 = Returned ∧
   Store.mem (world r.1) !! 1%positive =
     Some (Obj [("theme", VStr "dark"); ("isLoading", VBool false)]) ∧
   Get [("theme", VStr "dark"); ("isLoading", VBool false)] "__proto__" =
     VBuiltin ObjectPrototype) ∧
  (let c := Config (do_method (MSubscribe "*" 31) demo_store)
                   (Store.World Store.demo_heap []) in
   let r := batchUpdate resubscribing_host 8 [("theme", VStr "light")] c in
   r.2 = Returned ∧
   listeners_of (store c) "*" = [30; 31] ∧
   Store.calls_of 30 (Store.log (world r.1)) = 2 ∧
   Store.calls_of 31 (Store.log (world r.1)) = 1).
Proof. split; intros; split_and!; vm_compute; reflexivity. Qed.

Lemma subscribe_same_pair_once_witness :
  (subscribe "theme" 20 (subscribe "theme" 20 (constructor 1%positive)).1).1 =
  (subscribe "theme" 20 (constructor 1%positive)).1.
Proof.
  destruct (subscribe_same_pair_once (constructor 1%positive) "theme" 20
              (live_constructor_wf 1%positive)) as (Heq & _).
  exact Heq.
Defined.

(** C4, as the specification states it, fails: after subscribing the pair
    (["theme"], 20) twice and invoking the first disposer, [setState] on
    ["theme"] does not call function 20 at all, where the claim wants one
    call for the second subscription. *)
Lemma independent_registrations_counterexample :
  let s0 := constructor 1%positive in
  let s1 := (subscribe "theme" 20 s0).1 in
  let d1 := (subscribe "theme" 20 s0).2 in
  let s2 := (subscribe "theme" 20 s1).1 in
  ∃ s3, dispose d1 s2 = Normal s3 ∧
        let r := setState quiet_host 8 "theme" (VStr "light")
                   (Config s3 (Store.World Store.demo_heap [])) in
        r.2 = Returned ∧
        Store.calls_of 20 (Store.log (world r.1)) = 0 ∧
        Store.calls_of 20 (Store.log (world r.1)) ≠ 1.
Proof.
  intros s0 s1 d1 s2.
  destruct (dispose d1 s2) as [s3|e] eqn:Hs3; [|by vm_compute in Hs3].
  exists s3. split; [done|].
  assert (Hs3' : Normal s3 = dispose d1 s2) by done.
  vm_compute in Hs3'. injection Hs3' as ->.
  vm_compute. split_and!; [done|done|lia].
Qed.

Lemma setState_assigns_witness :
  Store.mem (world (setState (throwing_host 20 TypeError) 8 "theme"
                      (VStr "light") demo).1) !! 1%positive
  = Some (Obj [("theme", VStr "light"); ("isLoading", VBool false)]).
Proof.
  destruct (setState_assigns (throwing_host 20 TypeError) 8 "theme" (VStr "light")
              demo
              [("theme", VStr "dark"); ("isLoading", VBool false)]
              [("theme", VStr "light"); ("isLoading", VBool false)])
    as [Hcell _].
  - intros f a. apply throwing_host_quiet.
  - intros f a h. unfold throwing_host. by destruct (decide (f = 20)).
  - vm_compute. reflexivity.
  - vm_compute. reflexivity.
  - vm_compute. lia.
  - exact Hcell.
Defined.

Lemma setState_throw_stops_witness :
  ∃ c', setState (throwing_host 20 TypeError) 8 "theme" (VStr "light") demo
          = (c', Threw TypeError) ∧
        Store.log (world c') =
          [ Store.Call 10 (Store.MiddlewareArgs "theme" (VStr "dark") (VStr "light")
                             (VRef 1%positive));
            Store.Call 11 (Store.MiddlewareArgs "theme" (VStr "dark") (VStr "light")
                             (VRef 1%positive));
            Store.Call 20 (Store.ListenerArgs (VStr "light") (VStr "dark")) ].
Proof.
  set (r := setState (throwing_host 20 TypeError) 8 "theme" (VStr "light") demo).
  assert (Hc : r.2 = Threw TypeError) by (vm_compute; reflexivity).
  assert (Hr : r = (r.1, Threw TypeError)).
  { rewrite <- Hc. clearbody r. by destruct r. }
  destruct (setState_throw_stops (throwing_host 20 TypeError) 8 "theme" (VStr "light")
              demo r.1 TypeError
              [("theme", VStr "dark"); ("isLoading", VBool false)]
              [("theme", VStr "light"); ("isLoading", VBool false)])
    as (before & thrower & after & h & _ & _ & _).
  - intros f a. apply throwing_host_quiet.
  - vm_compute. reflexivity.
  - vm_compute. reflexivity.
  - vm_compute. lia.
  - exact Hr.
  - exists r.1. split; [exact Hr|]. vm_compute. reflexivity.
Defined.

End LiveStore.

(** ** The router ([js/modules/router.js]) *)

Module Router.
Import JS.

(** JavaScript strings as sequences of UTF-16 code units. *)
Abbreviation ustring := (list N).

(** The code units of a string literal (one unit per character). *)
Definition u (s : string) : ustring :=
  map N_of_ascii (list_ascii_of_string s).

(** *** decodeURIComponent *)

Definition hex_digit (c : N) : option N :=
  if (48 <=? c)%N && (c <=? 57)%N then Some (c - 48)%N
  else if (65 <=? c)%N && (c <=? 70)%N then Some (c - 55)%N
  else if (97 <=? c)%N && (c <=? 102)%N then Some (c - 87)%N
  else None.

(** The octet written by two hexadecimal digits. *)
Definition ParseHexOctet (a b : N) : option N :=
  match hex_digit a, hex_digit b with
  | Some x, Some y => Some (16 * x + y)%N
  | _, _ => None
  end.

(** The escape sequence [%XY] of a continuation octet. *)
Definition escape (p a b : N) : option N :=
  if (p =? 37)%N then ParseHexOctet a b else None.

(** The number of leading 1 bits of an octet. *)
Definition leading_ones (B : N) : nat :=
  if (B <? 128)%N then 0
  else if (B <? 192)%N then 1
  else if (B <? 224)%N then 2
  else if (B <? 240)%N then 3
  else if (B <? 248)%N then 4
  else 5.

Definition between (lo x hi : N) : bool := (lo <=? x)%N && (x <=? hi)%N.

(** The code point of a well-formed UTF-8 sequence of two to four octets
    (no overlong form, no surrogate, nothing above U+10FFFF). *)
Definition utf8_code_point (octets : list N) : option N :=
  match octets with
  | [b1; b2] =>
      if between 194 b1 223 && between 128 b2 191
      then Some ((b1 - 192) * 64 + (b2 - 128))%N else None
  | [b1; b2; b3] =>
      if (((b1 =? 224)%N && between 160 b2 191)
          || (between 225 b1 236 && between 128 b2 191)
          || ((b1 =? 237)%N && between 128 b2 159)
          || (between 238 b1 239 && between 128 b2 191))
         && between 128 b3 191
      then Some ((b1 - 224) * 4096 + (b2 - 128) * 64 + (b3 - 128))%N else None
  | [b1; b2; b3; b4] =>
      if (((b1 =? 240)%N && between 144 b2 191)
          || (between 241 b1 243 && between 128 b2 191)
          || ((b1 =? 244)%N && between 128 b2 143))
         && between 128 b3 191 && between 128 b4 191
      then Some ((b1 - 240) * 262144 + (b2 - 128) * 4096
                 + (b3 - 128) * 64 + (b4 - 128))%N
      else None
  | _ => None
  end.

Definition UTF16EncodeCodePoint (cp : N) : ustring :=
  if (cp <? 65536)%N then [cp]
  else [(55296 + (cp - 65536) / 1024)%N; (56320 + (cp - 65536) mod 1024)%N].

(** [decodeURIComponent(s)]; [None] stands for the URIError it throws on a
    [%] that is not followed by two hexadecimal digits, or whose octets are
    not the UTF-8 encoding of a code point. *)
Fixpoint Decode (s : ustring) : option ustring :=
  match s with
  | [] => Some []
  | c :: s1 =>
      if negb (c =? 37)%N then cons c <$> Decode s1
      else
        match s1 with
        | a :: b :: s2 =>
            match ParseHexOctet a b with
            | None => None
            | Some B =>
                match leading_ones B with
                | 0 => cons B <$> Decode s2
                | 2 =>
                    match s2 with
                    | p2 :: a2 :: b2 :: s3 =>
                        B2 ← escape p2 a2 b2;
                        V ← utf8_code_point [B; B2];
                        app (UTF16EncodeCodePoint V) <$> Decode s3
                    | _ => None
                    end
                | 3 =>
                    match s2 with
                    | p2 :: a2 :: b2 :: p3 :: a3 :: b3 :: s3 =>
                        B2 ← escape p2 a2 b2;
                        B3 ← escape p3 a3 b3;
                        V ← utf8_code_point [B; B2; B3];
                        app (UTF16EncodeCodePoint V) <$> Decode s3
                    | _ => None
                    end
                | 4 =>
                    match s2 with
                    | p2 :: a2 :: b2 :: p3 :: a3 :: b3 :: p4 :: a4 :: b4 :: s3 =>
                        B2 ← escape p2 a2 b2;
                        B3 ← escape p3 a3 b3;
                        B4 ← escape p4 a4 b4;
                        V ← utf8_code_point [B; B2; B3; B4];
                        app (UTF16EncodeCodePoint V) <$> Decode s3
                    | _ => None
                    end
                | _ => None
                end
            end
        | _ => None
        end
  end.

Definition decodeURIComponent (s : ustring) : completion ustring :=
  match Decode s with
  | Some r => Normal r
  | None => Abrupt URIError
  end.

(** *** _parseHash *)

(** [s.split(sep)] for a separator of one code unit: never the empty list. *)
Fixpoint split (sep : N) (s : ustring) : list ustring :=
  match s with
  | [] => [[]]
  | c :: s' =>
      if (c =? sep)%N then [] :: split sep s'
      else match split sep s' with
           | piece :: pieces => (c :: piece) :: pieces
           | [] => [[c]]
           end
  end.

(** The [params] object: own properties in the order of their first
    assignment.  (JavaScript enumerates the keys that are array indices
    before the others; what is proved below is about membership and lookup,
    not about the order.) *)
Abbreviation params := (list (ustring * ustring)).

Fixpoint params_get (k : ustring) (ps : params) : option ustring :=
  match ps with
  | [] => None
  | (k', v) :: ps' => if decide (k = k') then Some v else params_get k ps'
  end.

Fixpoint params_store (k v : ustring) (ps : params) : params :=
  match ps with
  | [] => [(k, v)]
  | (k', v') :: ps' =>
      if decide (k = k') then (k, v) :: ps' else (k', v') :: params_store k v ps'
  end.

(** [params[k] = v] on an object literal: assigning a string to [__proto__]
    goes to the inherited setter, which ignores it. *)
Definition params_assign (k v : ustring) (ps : params) : params :=
  if decide (k = u "__proto__") then ps else params_store k v ps.

(** The body of the [forEach]: one [key=value] pair. *)
Definition add_pair (ps : params) (item : ustring) : completion params :=
  let parts := split 61 item in
  let key := default [] (parts !! 0) in
  let value := parts !! 1 in
  match decodeURIComponent key with
  | Abrupt e => Abrupt e
  | Normal k =>
      match decodeURIComponent (default [] value) with
      | Abrupt e => Abrupt e
      | Normal v => Normal (params_assign k v ps)
      end
  end.

Fixpoint add_pairs (ps : params) (pairs : list ustring) : completion params :=
  match pairs with
  | [] => Normal ps
  | item :: pairs' =>
      match add_pair ps item with
      | Normal ps' => add_pairs ps' pairs'
      | Abrupt e => Abrupt e
      end
  end.

(** [_parseHash()], given the value of [window.location.hash]. *)
Definition _parseHash (location_hash : ustring) : completion (ustring * params) :=
  let hash :=
    match drop 1 location_hash with
    | [] => u "dashboard"
    | h => h
    end in
  let parts := split 63 hash in
  let path := default [] (parts !! 0) in
  match parts !! 1 with
  | None | Some [] => Normal (path, [])
  | Some queryString =>
      match add_pairs [] (split 38 queryString) with
      | Normal ps => Normal (path, ps)
      | Abrupt e => Abrupt e
      end
  end.

(** *** The route table and _handleRouteChange *)

Record t := Make {
  _routes : gmap ustring fn;
  _currentRoute : option ustring;     (* [null] until the first transition *)
  _beforeHooks : list fn;
  _afterHooks : list fn;
  _notFoundHandler : option fn
}.

Definition constructor : t :=
  {| _routes := ∅; _currentRoute := None; _beforeHooks := [];
     _afterHooks := []; _notFoundHandler := None |}.

Definition on (path : ustring) (handler : fn) (this : t) : t :=
  {| _routes := <[path := handler]> (_routes this);
     _currentRoute := _currentRoute this;
     _beforeHooks := _beforeHooks this;
     _afterHooks := _afterHooks this;
     _notFoundHandler := _notFoundHandler this |}.

Definition notFound (handler : fn) (this : t) : t :=
  {| _routes := _routes this;
     _currentRoute := _currentRoute this;
     _beforeHooks := _beforeHooks this;
     _afterHooks := _afterHooks this;
     _notFoundHandler := Some handler |}.

Definition beforeEach (hook : fn) (this : t) : t :=
  {| _routes := _routes this;
     _currentRoute := _currentRoute this;
     _beforeHooks := _beforeHooks this ++ [hook];
     _afterHooks := _afterHooks this;
     _notFoundHandler := _notFoundHandler this |}.

Definition afterEach (hook : fn) (this : t) : t :=
  {| _routes := _routes this;
     _currentRoute := _currentRoute this;
     _beforeHooks := _beforeHooks this;
     _afterHooks := _afterHooks this ++ [hook];
     _notFoundHandler := _notFoundHandler this |}.

Definition set_currentRoute (path : ustring) (this : t) : t :=
  {| _routes := _routes this;
     _currentRoute := Some path;
     _beforeHooks := _beforeHooks this;
     _afterHooks := _afterHooks this;
     _notFoundHandler := _notFoundHandler this |}.

(** What the router calls host functions with. *)
Inductive call_args :=
| GuardArgs (to : ustring) (from : option ustring)
| HandlerArgs (ps : params)
| NotFoundArgs (path : ustring)
| AfterArgs (to : ustring) (from : option ustring).

(** What a transition does to the outside: the calls it makes, each with the
    value the awaited call gave (or the exception it threw), and the update
    of the navigation links. *)
Inductive event :=
| Called (f : fn) (a : call_args) (r : completion val)
| NavLinks (path : ustring).

(** [result === false] *)
Definition is_false (v : val) : bool :=
  match v with
  | VBool false => true
  | _ => false
  end.

Section Host.

(** The state of the host (the page, the store, ...), what awaiting a call of
    a host function does to it and gives back, and what marking the active
    link does to it.  Whatever other tasks run while a call is awaited is
    part of what that call does to the host; they do not register routes or
    hooks, and the model follows one transition. *)
Variable W : Type.
Variable host : fn → call_args → W → W * completion val.
Variable mark_links : ustring → W → W.

Record world := World { page : W; log : list event }.

(** [await f(...)] *)
Definition call (f : fn) (a : call_args) (w : world) : world * completion val :=
  let '(p, r) := host f a (page w) in
  (World p (log w ++ [Called f a r]), r).

(** [_updateNavLinks(path)] *)
Definition _updateNavLinks (path : ustring) (w : world) : world :=
  World (mark_links path (page w)) (log w ++ [NavLinks path]).

(** The loop over the before-hooks: [Normal false] when a hook cancelled. *)
Fixpoint run_beforeHooks (hooks : list fn) (path : ustring)
    (previousRoute : option ustring) (w : world) : world * completion bool :=
  match hooks with
  | [] => (w, Normal true)
  | hook :: hooks' =>
      match call hook (GuardArgs path previousRoute) w with
      | (w', Normal result) =>
          if is_false result then (w', Normal false)
          else run_beforeHooks hooks' path previousRoute w'
      | (w', Abrupt e) => (w', Abrupt e)
      end
  end.

(** The loop over the after-hooks. *)
Fixpoint run_afterHooks (hooks : list fn) (path : ustring)
    (previousRoute : option ustring) (w : world) : world * completion unit :=
  match hooks with
  | [] => (w, Normal tt)
  | hook :: hooks' =>
      match call hook (AfterArgs path previousRoute) w with
      | (w', Normal _) => run_afterHooks hooks' path previousRoute w'
      | (w', Abrupt e) => (w', Abrupt e)
      end
  end.

(** [_handleRouteChange()], given the value of [window.location.hash]. *)
Definition _handleRouteChange (this : t) (location_hash : ustring) (w : world)
  : t * world * completion unit :=
  match _parseHash location_hash with
  | Abrupt e => (this, w, Abrupt e)
  | Normal (path, ps) =>
      let previousRoute := _currentRoute this in
      match run_beforeHooks (_beforeHooks this) path previousRoute w with
      | (w1, Abrupt e) => (this, w1, Abrupt e)
      | (w1, Normal false) => (this, w1, Normal tt)
      | (w1, Normal true) =>
          let this' := set_currentRoute path this in
          let '(w2, r) :=
            match _routes this !! path with
            | Some handler => call handler (HandlerArgs ps) w1
            | None =>
                match _notFoundHandler this with
                | Some handler => call handler (NotFoundArgs path) w1
                | None => (w1, Normal VUndef)
                end
            end in
          match r with
          | Abrupt e => (this', w2, Abrupt e)
          | Normal _ =>
              let w3 := _updateNavLinks path w2 in
              let '(w4, r') := run_afterHooks (_afterHooks this) path previousRoute w3 in
              (this', w4, r')
          end
      end
  end.

End Host.

(** A before-hook call that returned [false]. *)
Definition cancels (e : event) : bool :=
  match e with
  | Called _ (GuardArgs _ _) (Normal v) => is_false v
  | _ => false
  end.

Definition is_guard_call (e : event) : bool :=
  match e with
  | Called _ (GuardArgs _ _) _ => true
  | _ => false
  end.

Definition callee (e : event) : option fn :=
  match e with
  | Called f _ _ => Some f
  | NavLinks _ => None
  end.

(** The raw [key=value] pairs of the query string of a fragment, as
    [_parseHash] cuts them out before decoding. *)
Definition raw_hash (location_hash : ustring) : ustring :=
  match drop 1 location_hash with
  | [] => u "dashboard"
  | h => h
  end.

Definition raw_query (location_hash : ustring) : ustring :=
  default [] (split 63 (raw_hash location_hash) !! 1).

Definition raw_pair (item : ustring) : ustring * ustring :=
  (default [] (split 61 item !! 0), default [] (split 61 item !! 1)).

Definition raw_pairs (location_hash : ustring) : list (ustring * ustring) :=
  match raw_query location_hash with
  | [] => []
  | q => raw_pair <$> split 38 q
  end.

(** A pair one of whose sides [decodeURIComponent] rejects. *)
Definition malformed (kv : ustring * ustring) : Prop :=
  Decode kv.1 = None ∨ Decode kv.2 = None.

(** A router as the application sets it up, with one more guard (function 5)
    that the demonstration host lets return [false]. *)
Definition demo_router : t :=
  afterEach 7 (beforeEach 6 (beforeEach 5 (beforeEach 4
    (notFound 3 (on (u "settings") 2 (on (u "dashboard") 1 constructor)))))).

Definition demo_host (f : fn) (a : call_args) (p : unit) : unit * completion val :=
  (p, Normal (if decide (f = 5) then VBool false else VBool true)).

(** *** Facts about parsing *)

Lemma Decode_plain s : 37%N ∉ s → Decode s = Some s.
Proof.
  induction s as [|c s IH]; [done|]. intros [Hc Hs]%not_elem_of_cons. simpl.
  destruct (N.eqb_spec c 37) as [->|_]; [done|]. simpl. by rewrite IH.
Qed.

Lemma split_nonempty sep s : split sep s ≠ [].
Proof.
  destruct s as [|c s]; simpl; [done|].
  destruct (c =? sep)%N; [done|]. by destruct (split sep s).
Qed.

Lemma split_elem sep s piece x : piece ∈ split sep s → x ∈ piece → x ∈ s.
Proof.
  revert piece. induction s as [|c s IH]; simpl; intros piece Hp Hx.
  - apply list_elem_of_singleton in Hp as ->. done.
  - destruct (c =? sep)%N.
    + apply elem_of_cons in Hp as [->|Hp]; [by apply elem_of_nil in Hx|].
      right. by eapply IH.
    + destruct (split sep s) as [|p0 ps] eqn:Hs; [by apply split_nonempty in Hs|].
      apply elem_of_cons in Hp as [->|Hp].
      * apply elem_of_cons in Hx as [->|Hx]; [by left|]. right.
        apply (IH p0); [by left | done].
      * right. apply (IH piece); [by right | done].
Qed.

Lemma lookup_default_elem (l : list ustring) i x :
  x ∈ default [] (l !! i) → ∃ piece, piece ∈ l ∧ x ∈ piece.
Proof.
  destruct (l !! i) as [piece|] eqn:Hi; simpl; [|by intros ?%elem_of_nil].
  intros Hx. exists piece. split; [by eapply list_elem_of_lookup_2 | done].
Qed.

(** The forEach body, in terms of the raw pair. *)
Lemma add_pair_raw ps item :
  add_pair ps item =
  match Decode (raw_pair item).1, Decode (raw_pair item).2 with
  | Some k, Some v => Normal (params_assign k v ps)
  | _, _ => Abrupt URIError
  end.
Proof.
  unfold add_pair, raw_pair, decodeURIComponent; simpl.
  destruct (Decode (default [] (split 61 item !! 0))); [|done].
  by destruct (Decode (default [] (split 61 item !! 1))).
Qed.

Lemma add_pairs_throws ps items e : add_pairs ps items = Abrupt e → e = URIError.
Proof.
  revert ps. induction items as [|item items IH]; intros ps; simpl; [done|].
  rewrite add_pair_raw.
  destruct (Decode (raw_pair item).1); [|congruence].
  destruct (Decode (raw_pair item).2); [|congruence]. apply IH.
Qed.

Lemma add_pairs_abrupt ps items :
  (∃ e, add_pairs ps items = Abrupt e) ↔ Exists malformed (raw_pair <$> items).
Proof.
  revert ps. induction items as [|item items IH]; intros ps; simpl.
  - split; [by intros [e ?] | by intros ?%Exists_nil].
  - rewrite add_pair_raw, Exists_cons. unfold malformed at 1.
    destruct (Decode (raw_pair item).1) as [k|]; [|split; eauto].
    destruct (Decode (raw_pair item).2) as [v|]; [|split; eauto].
    rewrite IH. split; [by right | by intros [[?|?]|?]].
Qed.

Lemma _parseHash_unfold location_hash :
  _parseHash location_hash =
  match raw_query location_hash with
  | [] => Normal (default [] (split 63 (raw_hash location_hash) !! 0), [])
  | q =>
      match add_pairs [] (split 38 q) with
      | Normal ps => Normal (default [] (split 63 (raw_hash location_hash) !! 0), ps)
      | Abrupt e => Abrupt e
      end
  end.
Proof.
  unfold _parseHash, raw_query. fold (raw_hash location_hash).
  by destruct (split 63 (raw_hash location_hash) !! 1) as [[|c q]|].
Qed.

(** C6, as the code has it.  Parsing a fragment returns [(path, params)] or
    throws a URIError, nothing else; it throws exactly when
    [decodeURIComponent] rejects the key or the value of one of the raw
    pairs of the query string, so never on a fragment without a per cent
    sign; and a pair without [=value] whose key decodes is entered with the
    empty string as its value. *)
Theorem parseHash_only_URIError location_hash :
  (∀ e, _parseHash location_hash = Abrupt e → e = URIError) ∧
  ((∃ e, _parseHash location_hash = Abrupt e) ↔
   Exists malformed (raw_pairs location_hash)) ∧
  (37%N ∉ location_hash →
   ∃ path ps, _parseHash location_hash = Normal (path, ps)) ∧
  (∀ ps item k, 61%N ∉ item → Decode item = Some k →
     add_pair ps item = Normal (params_assign k [] ps)).
Proof.
  assert (Habrupt : (∃ e, _parseHash location_hash = Abrupt e) ↔
                    Exists malformed (raw_pairs location_hash)).
  { rewrite _parseHash_unfold. unfold raw_pairs.
    destruct (raw_query location_hash) as [|c q].
    - split; [by intros [e ?] | by intros ?%Exists_nil].
    - rewrite <- add_pairs_abrupt with (ps := []).
      destruct (add_pairs [] (split 38 (c :: q))) as [ps|e]; split; eauto;
        by intros [e' ?]. }
  split_and!; [|done| |].
  - intros e. rewrite _parseHash_unfold.
    destruct (raw_query location_hash) as [|c q]; [done|].
    destruct (add_pairs [] (split 38 (c :: q))) as [ps|e'] eqn:Hps; [done|].
    intros [= <-]. by eapply add_pairs_throws.
  - intros Hplain.
    destruct (_parseHash location_hash) as [[path ps]|e] eqn:Hp; [by eauto|].
    exfalso. assert (Hex : ∃ e0, Abrupt (A := ustring * params) e = Abrupt e0) by eauto.
    apply Habrupt in Hex. unfold raw_pairs in Hex.
    assert (Hhash : 37%N ∉ raw_hash location_hash).
    { unfold raw_hash. destruct (drop 1 location_hash) as [|c h] eqn:Hd.
      - vm_compute. intros Hin. repeat (apply elem_of_cons in Hin as [Hin|Hin]; [done|]).
        by apply elem_of_nil in Hin.
      - rewrite <- Hd. intros Hin. apply Hplain.
        destruct location_hash; [done|]. by right. }
    assert (Hq : 37%N ∉ raw_query location_hash).
    { unfold raw_query. intros (piece & Hpiece & Hin)%lookup_default_elem.
      apply Hhash. by eapply split_elem. }
    destruct (raw_query location_hash) as [|c q]; [by apply Exists_nil in Hex|].
    apply Exists_exists in Hex as (kv & Hkv & Hbad).
    apply list_elem_of_fmap in Hkv as (item & -> & Hitem).
    assert (Hitem' : 37%N ∉ item).
    { intros Hin. apply Hq. by eapply split_elem. }
    assert (Hside : ∀ i, 37%N ∉ default [] (split 61 item !! i)).
    { intros i (piece & Hpiece & Hin)%lookup_default_elem.
      apply Hitem'. by eapply split_elem. }
    destruct Hbad as [Hbad|Hbad]; simpl in Hbad;
      rewrite Decode_plain in Hbad by apply Hside; done.
  - intros ps item k Hno Hk. rewrite add_pair_raw. unfold raw_pair; simpl.
    assert (Hsplit : split 61 item = [item]).
    { clear Hk. induction item as [|c item IH]; [done|].
      apply not_elem_of_cons in Hno as [Hc Hno]. simpl.
      destruct (N.eqb_spec c 61) as [->|_]; [done|]. by rewrite IH. }
    rewrite Hsplit. simpl. by rewrite Hk.
Qed.

Lemma parseHash_only_URIError_witness :
  _parseHash (u "#settings?tab=budget&compact") =
  Normal (u "settings", [(u "tab", u "budget"); (u "compact", [])]).
Proof.
  destruct (parseHash_only_URIError (u "#settings?tab=budget&compact"))
    as (_ & _ & Hplain & _).
  destruct Hplain as (path & ps & Hp).
  - vm_compute. intros Hin.
    repeat (apply elem_of_cons in Hin as [Hin|Hin]; [discriminate|]).
    by apply elem_of_nil in Hin.
  - rewrite Hp. vm_compute in Hp. by injection Hp as <- <-.
Defined.

(** C6, as the specification states it, fails: a query string with a per
    cent sign that is not followed by two hexadecimal digits makes
    [decodeURIComponent], and with it [_parseHash], throw a URIError. *)
Lemma parseHash_never_raises_counterexample :
  _parseHash (u "#dashboard?q=100%") = Abrupt URIError.
Proof. vm_compute. reflexivity. Qed.

(** *** Facts about transitions *)

Section HostFacts.

Variable W : Type.
Variable host : fn → call_args → W → W * completion val.
Variable mark_links : ustring → W → W.

Lemma call_log f a w w' r :
  call W host f a w = (w', r) → log W w' = log W w ++ [Called f a r].
Proof. unfold call. destruct (host f a _) as [p r']. by intros [= <- <-]. Qed.

(** The before-loop calls hooks in order, as guards only; when it reports a
    cancellation the last call made returned [false] and no earlier one
    did, and otherwise no call returned [false]. *)
Lemma run_beforeHooks_log hooks path prev w w' r :
  run_beforeHooks W host hooks path prev w = (w', r) →
  ∃ evs, log W w' = log W w ++ evs ∧
         Forall (λ e, is_guard_call e = true) evs ∧
         (callee <$> evs) `prefix_of` (Some <$> hooks) ∧
         match r with
         | Normal false =>
             ∃ before last, evs = before ++ [last] ∧ cancels last = true ∧
                            Forall (λ e, cancels e = false) before
         | _ => Forall (λ e, cancels e = false) evs
         end.
Proof.
  revert w. induction hooks as [|hook hooks IH]; intros w; simpl.
  - intros [= <- <-]. exists []. rewrite app_nil_r. split_and!; done.
  - destruct (call W host hook (GuardArgs path prev) w) as [w1 [v|e]] eqn:Hc.
    + pose proof (call_log _ _ _ _ _ Hc) as Hlog.
      destruct (is_false v) eqn:Hv.
      * intros [= <- <-]. exists [Called hook (GuardArgs path prev) (Normal v)].
        split_and!; [done | by repeat constructor | by apply prefix_cons, prefix_nil |].
        exists [], (Called hook (GuardArgs path prev) (Normal v)). done.
      * intros Hrun. destruct (IH _ Hrun) as (evs & Hlog' & Hg & Hpre & Hr).
        exists (Called hook (GuardArgs path prev) (Normal v) :: evs).
        split_and!.
        -- rewrite Hlog', Hlog, <- app_assoc. done.
        -- by apply Forall_cons.
        -- simpl. by apply prefix_cons.
        -- destruct r as [[|]|e].
           ++ by apply Forall_cons.
           ++ destruct Hr as (before & last & -> & Hlast & Hbefore).
              exists (Called hook (GuardArgs path prev) (Normal v) :: before), last.
              split_and!; [done | done | by apply Forall_cons].
           ++ by apply Forall_cons.
    + pose proof (call_log _ _ _ _ _ Hc) as Hlog.
      intros [= <- <-]. exists [Called hook (GuardArgs path prev) (Abrupt e)].
      split_and!; [done | by repeat constructor | by apply prefix_cons, prefix_nil |].
      by repeat constructor.
Qed.

Lemma run_afterHooks_log hooks path prev w w' r :
  run_afterHooks W host hooks path prev w = (w', r) →
  ∃ evs, log W w' = log W w ++ evs ∧ Forall (λ e, cancels e = false) evs.
Proof.
  revert w. induction hooks as [|hook hooks IH]; intros w; simpl.
  - intros [= <- <-]. exists []. by rewrite app_nil_r.
  - destruct (call W host hook (AfterArgs path prev) w) as [w1 [v|e]] eqn:Hc;
      pose proof (call_log _ _ _ _ _ Hc) as Hlog.
    + intros Hrun. destruct (IH _ Hrun) as (evs & Hlog' & Hno).
      exists (Called hook (AfterArgs path prev) (Normal v) :: evs). split.
      * rewrite Hlog', Hlog, <- app_assoc. done.
      * by apply Forall_cons.
    + intros [= <- <-]. exists [Called hook (AfterArgs path prev) (Abrupt e)].
      split; [done | by repeat constructor].
Qed.

(** The handler, or the not-found handler, or nothing. *)
Lemma dispatch_log (this : t) path ps w w2 r :
  match _routes this !! path with
  | Some handler => call W host handler (HandlerArgs ps) w
  | None =>
      match _notFoundHandler this with
      | Some handler => call W host handler (NotFoundArgs path) w
      | None => (w, Normal VUndef)
      end
  end = (w2, r) →
  ∃ evs, log W w2 = log W w ++ evs ∧ Forall (λ e, cancels e = false) evs.
Proof.
  destruct (_routes this !! path) as [handler|].
  - intros Hc. apply call_log in Hc. eexists. split; [done | by repeat constructor].
  - destruct (_notFoundHandler this) as [handler|].
    + intros Hc. apply call_log in Hc. eexists. split; [done | by repeat constructor].
    + intros [= <- <-]. exists []. by rewrite app_nil_r.
Qed.

(** C5. When in a transition a before-hook returns [false], the transition
    ends there: the router, and so its current route, is unchanged; the call
    that returned [false] is the last thing that happened; everything that
    happened before it is a call of an earlier before-hook, in registration
    order, none of which returned [false]; so no later guard, no route
    handler, no not-found handler, no update of the navigation links and no
    after-hook ran. *)
Theorem guard_false_aborts_transition this location_hash w this' w' c new :
  _handleRouteChange W host mark_links this location_hash w = (this', w', c) →
  log W w' = log W w ++ new →
  (∃ e, e ∈ new ∧ cancels e = true) →
  this' = this ∧ _currentRoute this' = _currentRoute this ∧ c = Normal tt ∧
  Forall (λ e, is_guard_call e = true) new ∧
  (callee <$> new) `prefix_of` (Some <$> _beforeHooks this) ∧
  ∃ before last, new = before ++ [last] ∧ cancels last = true ∧
                 Forall (λ e, cancels e = false) before.
Proof.
  unfold _handleRouteChange.
  destruct (_parseHash location_hash) as [[path ps]|e].
  2:{ intros [= <- <- <-] Hlog (e' & Hin & _).
      apply (f_equal length) in Hlog. rewrite length_app in Hlog.
      destruct new; [by apply elem_of_nil in Hin | simpl in Hlog; lia]. }
  destruct (run_beforeHooks W host (_beforeHooks this) path (_currentRoute this) w)
    as [w1 r] eqn:Hb.
  destruct (run_beforeHooks_log _ _ _ _ _ _ Hb) as (evs & Hlog1 & Hg & Hpre & Hr).
  assert (Hnone : ∀ l : list event,
            Forall (λ e, cancels e = false) l → ¬ ∃ e, e ∈ l ∧ cancels e = true).
  { intros l Hl (e' & Hin & Hc). rewrite Forall_forall in Hl.
    specialize (Hl e' Hin). congruence. }
  destruct r as [[|]|e].
  - (* all guards passed: nothing that follows returns [false] as a guard *)
    destruct (match _routes this !! path with Some _ => _ | None => _ end)
      as [w2 r2] eqn:Hd.
    destruct (dispatch_log _ _ _ _ _ _ Hd) as (evs2 & Hlog2 & Hno2).
    destruct r2 as [v|e].
    + destruct (run_afterHooks W host (_afterHooks this) path (_currentRoute this)
                  (_updateNavLinks W mark_links path w2)) as [w4 r4] eqn:Ha.
      destruct (run_afterHooks_log _ _ _ _ _ _ Ha) as (evs4 & Hlog4 & Hno4).
      intros [= <- <- <-] Hlog Hex. exfalso.
      simpl in Hlog4. rewrite Hlog4, Hlog2, Hlog1, <- !app_assoc in Hlog.
      apply app_inv_head in Hlog. subst new.
      revert Hex. apply Hnone. repeat (apply Forall_app; split); try done.
      by repeat constructor.
    + intros [= <- <- <-] Hlog Hex. exfalso.
      rewrite Hlog2, Hlog1, <- !app_assoc in Hlog.
      apply app_inv_head in Hlog. subst new.
      revert Hex. apply Hnone. by apply Forall_app.
  - (* a guard cancelled *)
    intros [= <- <- <-] Hlog _. rewrite Hlog1 in Hlog.
    apply app_inv_head in Hlog. subst new. split_and!; done.
  - (* a guard threw *)
    intros [= <- <- <-] Hlog Hex. exfalso. rewrite Hlog1 in Hlog.
    apply app_inv_head in Hlog. subst new. revert Hex. by apply Hnone.
Qed.

End HostFacts.

Lemma guard_false_aborts_transition_witness :
  let r := _handleRouteChange unit demo_host (λ _ p, p) demo_router
             (u "#settings?tab=budget") (World unit tt []) in
  r.1.1 = demo_router ∧
  log unit r.1.2 =
    [ Called 4 (GuardArgs (u "settings") None) (Normal (VBool true));
      Called 5 (GuardArgs (u "settings") None) (Normal (VBool false)) ].
Proof.
  intros r.
  destruct (guard_false_aborts_transition unit demo_host (λ _ p, p) demo_router
              (u "#settings?tab=budget") (World unit tt []) r.1.1 r.1.2 r.2
              (log unit r.1.2))
    as (Hsame & _).
  - change (r = (r.1.1, r.1.2, r.2)). clearbody r. by destruct r as [[? ?] ?].
  - reflexivity.
  - exists (Called 5 (GuardArgs (u "settings") None) (Normal (VBool false))).
    split; [|reflexivity]. vm_compute. apply list_elem_of_In. right. by left.
  - split; [exact Hsame|]. vm_compute. reflexivity.
Defined.

(** *** Further properties of the router *)











Section MoreHostFacts.

Variable W : Type.
Variable host : fn → call_args → W → W * completion val.
Variable mark_links : ustring → W → W.












End MoreHostFacts.



(** *** Further facts about parsing *)

Lemma split_no_sep sep s piece : piece ∈ split sep s → sep ∉ piece.
Proof.
  revert piece. induction s as [|c s IH]; simpl; intros piece Hp.
  - apply list_elem_of_singleton in Hp as ->. apply not_elem_of_nil.
  - destruct (N.eqb_spec c sep) as [->|Hne].
    + apply elem_of_cons in Hp as [->|Hp]; [apply not_elem_of_nil | by apply IH].
    + destruct (split sep s) as [|p0 pieces] eqn:Hs; [by apply split_nonempty in Hs|].
      apply elem_of_cons in Hp as [->|Hp].
      * apply not_elem_of_cons. split; [congruence|]. apply IH. by left.
      * apply IH. by right.
Qed.

Lemma params_store_keys k v ps k' :
  k' ∈ (params_store k v ps).*1 ↔ k' = k ∨ k' ∈ ps.*1.
Proof.
  induction ps as [|[k0 v0] ps IH]; simpl.
  - rewrite list_elem_of_singleton. split; [by left | intros [?|[]%elem_of_nil]; done].
  - destruct (decide (k = k0)) as [->|Hne]; simpl.
    + rewrite !elem_of_cons. tauto.
    + rewrite !elem_of_cons, IH. tauto.
Qed.

Lemma params_store_NoDup k v ps : NoDup ps.*1 → NoDup (params_store k v ps).*1.
Proof.
  induction ps as [|[k0 v0] ps IH]; simpl; intros Hnd.
  - apply NoDup_singleton.
  - apply NoDup_cons in Hnd as [Hout Hnd].
    destruct (decide (k = k0)) as [->|Hne]; simpl.
    + by apply NoDup_cons.
    + apply NoDup_cons. split; [|by apply IH].
      rewrite params_store_keys. intros [?|?]; [congruence|done].
Qed.

Lemma params_store_elem k v ps kv :
  kv ∈ params_store k v ps → kv = (k, v) ∨ kv ∈ ps.
Proof.
  induction ps as [|[k0 v0] ps IH]; simpl.
  - intros ->%list_elem_of_singleton. by left.
  - destruct (decide (k = k0)) as [->|Hne].
    + intros [->|Hin]%elem_of_cons; [by left | right; by right].
    + intros [->|Hin]%elem_of_cons; [right; by left|].
      destruct (IH Hin) as [->|?]; [by left | right; by right].
Qed.

Lemma params_get_store_eq k v ps : params_get k (params_store k v ps) = Some v.
Proof.
  induction ps as [|[k0 v0] ps IH]; simpl.
  - by rewrite decide_True.
  - destruct (decide (k = k0)) as [->|Hne]; simpl.
    + by rewrite decide_True.
    + by rewrite decide_False.
Qed.

Lemma params_get_store_ne k k' v ps :
  k' ≠ k → params_get k' (params_store k v ps) = params_get k' ps.
Proof.
  intros Hne. induction ps as [|[k0 v0] ps IH]; simpl.
  - by rewrite decide_False.
  - destruct (decide (k = k0)) as [->|Hne0]; simpl.
    + by rewrite !decide_False.
    + destruct (decide (k' = k0)); done.
Qed.

(** The keys a run of the [forEach] leaves are distinct own properties, none
    of them [__proto__], and every entry comes from one of the pairs. *)
Lemma add_pairs_inv ps items ps' :
  add_pairs ps items = Normal ps' →
  NoDup ps.*1 → (u "__proto__") ∉ ps.*1 →
  NoDup ps'.*1 ∧ ((u "__proto__") ∉ ps'.*1) ∧
  ∀ k v, (k, v) ∈ ps' →
    (k, v) ∈ ps ∨
    ∃ item, item ∈ items ∧ Decode (raw_pair item).1 = Some k ∧
            Decode (raw_pair item).2 = Some v.
Proof.
  revert ps. induction items as [|item items IH]; intros ps; simpl.
  - intros [= <-] Hnd Hproto. split_and!; [done | done | by left].
  - rewrite add_pair_raw.
    destruct (Decode (raw_pair item).1) as [k|] eqn:Hk; [|done].
    destruct (Decode (raw_pair item).2) as [v|] eqn:Hv; [|done].
    intros Hrun Hnd Hproto.
    destruct (IH _ Hrun) as (Hnd' & Hproto' & Hfrom).
    + unfold params_assign. destruct (decide (k = u "__proto__")); [done|].
      by apply params_store_NoDup.
    + unfold params_assign. destruct (decide (k = u "__proto__")); [done|].
      rewrite params_store_keys. intros [?|?]; [congruence|done].
    + split_and!; [done | done |]. intros k' v' Hin.
      destruct (Hfrom _ _ Hin) as [Hold|(item' & Hitem' & Hd)].
      * unfold params_assign in Hold. destruct (decide (k = u "__proto__")).
        -- by left.
        -- apply params_store_elem in Hold as [[= -> ->]|Hold]; [|by left].
           right. exists item. split; [by left | done].
      * right. exists item'. split; [by right | done].
Qed.

(** A pair whose key no later pair repeats keeps its value. *)
Lemma add_pairs_keeps ps items ps' k v :
  add_pairs ps items = Normal ps' →
  params_get k ps = Some v →
  Forall (λ item, Decode (raw_pair item).1 ≠ Some k) items →
  params_get k ps' = Some v.
Proof.
  revert ps. induction items as [|item items IH]; intros ps; simpl.
  - by intros [= <-].
  - rewrite add_pair_raw.
    destruct (Decode (raw_pair item).1) as [k0|] eqn:Hk; [|done].
    destruct (Decode (raw_pair item).2) as [v0|] eqn:Hv; [|done].
    intros Hrun Hget [Hne Hrest]%Forall_cons. apply (IH _ Hrun); [|done].
    unfold params_assign. destruct (decide (k0 = u "__proto__")); [done|].
    rewrite params_get_store_ne by (intros ->; apply Hne; exact Hk). done.
Qed.

Lemma add_pairs_app ps items1 items2 ps' :
  add_pairs ps (items1 ++ items2) = Normal ps' →
  ∃ ps1, add_pairs ps items1 = Normal ps1 ∧ add_pairs ps1 items2 = Normal ps'.
Proof.
  revert ps. induction items1 as [|item items1 IH]; intros ps; simpl; [by eauto|].
  destruct (add_pair ps item) as [ps0|e]; [apply IH | done].
Qed.

(** X8. What [_parseHash] returns: the path has no question mark in it; the
    parameters have pairwise different keys, none of them [__proto__]; and
    every parameter is the decoded key and value of one of the raw pairs of
    the query string. *)
Theorem parseHash_params_well_formed location_hash path ps :
  _parseHash location_hash = Normal (path, ps) →
  (63%N ∉ path) ∧ NoDup ps.*1 ∧ ((u "__proto__") ∉ ps.*1) ∧
  ∀ k v, (k, v) ∈ ps →
    ∃ kv, kv ∈ raw_pairs location_hash ∧ Decode kv.1 = Some k ∧ Decode kv.2 = Some v.
Proof.
  rewrite _parseHash_unfold. unfold raw_pairs.
  assert (Hpath : 63%N ∉ default [] (split 63 (raw_hash location_hash) !! 0)).
  { destruct (split 63 (raw_hash location_hash) !! 0) as [piece|] eqn:Hp; simpl.
    - apply (split_no_sep 63 (raw_hash location_hash)).
      by eapply list_elem_of_lookup_2.
    - apply not_elem_of_nil. }
  destruct (raw_query location_hash) as [|c q].
  - intros [= <- <-]. split_and!; [done | apply NoDup_nil_2 | apply not_elem_of_nil |].
    by intros k v ?%elem_of_nil.
  - destruct (add_pairs [] (split 38 (c :: q))) as [ps'|e] eqn:Hrun; [|done].
    intros [= <- <-].
    destruct (add_pairs_inv _ _ _ Hrun) as (Hnd & Hproto & Hfrom);
      [apply NoDup_nil_2 | apply not_elem_of_nil |].
    split_and!; [done | done | done |]. intros k v Hin.
    destruct (Hfrom _ _ Hin) as [[]%elem_of_nil|(item & Hitem & Hk & Hv)].
    exists (raw_pair item). split; [|done]. by apply list_elem_of_fmap_2.
Qed.

Lemma parseHash_params_well_formed_witness :
  NoDup (([(u "tab", u "b c"); (u "x", [])] : params).*1).
Proof.
  destruct (parseHash_params_well_formed (u "#settings?tab=a&x&tab=b%20c&__proto__=1")
              (u "settings") [(u "tab", u "b c"); (u "x", [])]) as (_ & Hnd & _).
  - vm_compute. reflexivity.
  - exact Hnd.
Defined.

(** X9. When a key occurs more than once in the query string, the last
    occurrence wins: the parameters hold, at the decoded key of a raw pair
    that no later pair repeats, the decoded value of that pair (the key
    [__proto__] apart, which is never entered). *)
Theorem parseHash_last_pair_wins location_hash path ps before kv after k v :
  _parseHash location_hash = Normal (path, ps) →
  raw_pairs location_hash = before ++ kv :: after →
  Decode kv.1 = Some k → Decode kv.2 = Some v → k ≠ u "__proto__" →
  Forall (λ kv', Decode kv'.1 ≠ Some k) after →
  params_get k ps = Some v.
Proof.
  rewrite _parseHash_unfold. unfold raw_pairs.
  destruct (raw_query location_hash) as [|c q].
  { intros _ Hnil. by destruct before. }
  destruct (add_pairs [] (split 38 (c :: q))) as [ps'|e] eqn:Hrun; [|done].
  intros [= <- <-] Hraw Hk Hv Hproto Hafter.
  apply fmap_app_inv in Hraw as (items1 & items2 & -> & Hitems2 & Hsplit).
  destruct items2 as [|item items2]; [done|]. rewrite fmap_cons in Hitems2.
  injection Hitems2 as Hkv Hafter'. subst kv after.
  rewrite Hsplit in Hrun.
  apply add_pairs_app in Hrun as (ps1 & _ & Hrun). simpl in Hrun.
  rewrite add_pair_raw, Hk, Hv in Hrun.
  apply (add_pairs_keeps _ _ _ _ _ Hrun).
  - unfold params_assign. rewrite decide_False by done. apply params_get_store_eq.
  - rewrite Forall_fmap in Hafter. exact Hafter.
Qed.

Lemma parseHash_last_pair_wins_witness :
  params_get (u "tab") [(u "tab", u "b c"); (u "x", [])] = Some (u "b c").
Proof.
  apply (parseHash_last_pair_wins (u "#settings?tab=a&x&tab=b%20c&__proto__=1")
           (u "settings") [(u "tab", u "b c"); (u "x", [])]
           [(u "tab", u "a"); (u "x", [])] (u "tab", u "b%20c")
           [(u "__proto__", u "1")] (u "tab") (u "b c")).
  - vm_compute. reflexivity.
  - vm_compute. reflexivity.
  - vm_compute. reflexivity.
  - vm_compute. reflexivity.
  - vm_compute. discriminate.
  - repeat constructor. vm_compute. discriminate.
Defined.

End Router.

(** ** Numbers: IEEE-754 binary64 *)

Module Num.

(** [Number.isNaN] *)
Definition isNaN (x : float) : bool :=
  match classify x with
  | NaN => true
  | _ => false
  end.

Definition is_neg_zero (x : float) : bool :=
  match classify x with
  | NZero => true
  | _ => false
  end.

Definition is_pos_zero (x : float) : bool :=
  match classify x with
  | PZero => true
  | _ => false
  end.

(** [Math.min(...xs)]: NaN if an argument is NaN; otherwise the lowest one,
    starting from +Infinity, with minus zero below plus zero. *)
Definition Math_min (xs : list float) : float :=
  if existsb isNaN xs then nan
  else fold_left
         (λ lowest x,
            if is_neg_zero x && is_pos_zero lowest then x
            else if (x <? lowest)%float then x else lowest)
         xs infinity.


(** [Math.max(...xs)]: NaN if an argument is NaN; otherwise the highest one,
    starting from -Infinity, with plus zero above minus zero. *)
Definition Math_max (xs : list float) : float :=
  if existsb isNaN xs then nan
  else fold_left
         (λ highest x,
            if is_pos_zero x && is_neg_zero highest then x
            else if (highest <? x)%float then x else highest)
         xs neg_infinity.

(** The number value of an array length (exact: an array has fewer than
    2^32 elements). *)
Definition of_length (n : nat) : float :=
  of_uint63 (Uint63.of_Z (Z.of_nat n)).

(** The exact rational value of a finite number. *)
Definition to_Q (x : float) : option Q :=
  match Prim2SF x with
  | S754_zero _ => Some 0%Q
  | S754_finite s m e =>
      let v := (inject_Z (Zpos m) * Qpower 2 e)%Q in
      Some (if s then Qopp v else v)
  | _ => None
  end.

(** One step of [Math.min] and of [Math.max]. *)
Definition lower (lowest x : float) : float :=
  if is_neg_zero x && is_pos_zero lowest then x
  else if (x <? lowest)%float then x else lowest.

Definition higher (highest x : float) : float :=
  if is_pos_zero x && is_neg_zero highest then x
  else if (highest <? x)%float then x else highest.

(** *** The order of binary64 numbers *)

Ltac sf_split :=
  repeat match goal with
         | x : spec_float |- _ => destruct x as [[]|[]| |[] ? ?]
         end.

Ltac cmp_split :=
  repeat (simpl in *; change (Pos.compare_cont Eq) with Pos.compare in *;
    match goal with
    | H : context [Z.compare ?a ?b] |- _ => destruct (Z.compare_spec a b); subst
    | |- context [Z.compare ?a ?b] => destruct (Z.compare_spec a b); subst
    | H : context [Pos.compare ?a ?b] |- _ => destruct (Pos.compare_spec a b); subst
    | |- context [Pos.compare ?a ?b] => destruct (Pos.compare_spec a b); subst
    end).

Ltac sf_order :=
  unfold SFltb, SFleb, SFcompare; sf_split; simpl; try done;
  intros; cmp_split; try done; try lia.

Lemma SFleb_trans x y z : SFleb x y = true → SFleb y z = true → SFleb x z = true.
Proof. sf_order. Qed.

Lemma SFltb_leb x y : SFltb x y = true → SFleb x y = true.
Proof. sf_order. Qed.

Lemma SFleb_refl x : x ≠ S754_nan → SFleb x x = true.
Proof. sf_order. Qed.

Lemma SFltb_false x y :
  x ≠ S754_nan → y ≠ S754_nan → SFltb x y = false → SFleb y x = true.
Proof. sf_order. Qed.

Lemma SFleb_zeros s s' : SFleb (S754_zero s) (S754_zero s') = true.
Proof. done. Qed.

Lemma SFleb_infinity x :
  x ≠ S754_nan → SFleb (S754_infinity false) x = true → x = S754_infinity false.
Proof. sf_order. Qed.

Lemma SFleb_neg_infinity x :
  x ≠ S754_nan → SFleb x (S754_infinity true) = true → x = S754_infinity true.
Proof. sf_order. Qed.

Lemma isNaN_false x : isNaN x = false → Prim2SF x ≠ S754_nan.
Proof.
  unfold isNaN. rewrite classify_spec. intros Hc Hx. rewrite Hx in Hc. done.
Qed.

Lemma is_neg_zero_true x : is_neg_zero x = true → Prim2SF x = S754_zero true.
Proof.
  unfold is_neg_zero. rewrite classify_spec. unfold SF64classify, SFclassify.
  destruct (Prim2SF x) as [[]|[]| |[] m e]; try done;
    by destruct (Z.eqb _ _).
Qed.

Lemma is_pos_zero_true x : is_pos_zero x = true → Prim2SF x = S754_zero false.
Proof.
  unfold is_pos_zero. rewrite classify_spec. unfold SF64classify, SFclassify.
  destruct (Prim2SF x) as [[]|[]| |[] m e]; try done;
    by destruct (Z.eqb _ _).
Qed.

Lemma SFltb_irrefl x : SFltb x x = false.
Proof. sf_order. Qed.

Lemma ltb_irrefl x : (x <? x)%float = false.
Proof. rewrite ltb_spec. apply SFltb_irrefl. Qed.

Lemma leb_trans x y z :
  (x <=? y)%float = true → (y <=? z)%float = true → (x <=? z)%float = true.
Proof. rewrite !leb_spec. apply SFleb_trans. Qed.

Lemma leb_refl x : isNaN x = false → (x <=? x)%float = true.
Proof. intros Hx. rewrite leb_spec. by apply SFleb_refl, isNaN_false. Qed.

(** The step of [Math.min] keeps one of its two arguments, one that is not
    above either of them. *)
Lemma lower_spec lowest x :
  isNaN lowest = false → isNaN x = false →
  (lower lowest x = lowest ∨ lower lowest x = x) ∧
  (lower lowest x <=? lowest)%float = true ∧ (lower lowest x <=? x)%float = true.
Proof.
  intros Hl Hx. unfold lower.
  destruct (is_neg_zero x && is_pos_zero lowest) eqn:Hz.
  - apply andb_true_iff in Hz as [Hx0 Hl0]. split; [by right|].
    rewrite !leb_spec, (is_neg_zero_true _ Hx0), (is_pos_zero_true _ Hl0). done.
  - destruct (x <? lowest)%float eqn:Hlt.
    + split; [by right|]. split; [|by apply leb_refl].
      rewrite leb_spec. apply SFltb_leb. by rewrite <- ltb_spec.
    + split; [by left|]. split; [by apply leb_refl|].
      rewrite leb_spec. apply SFltb_false; [by apply isNaN_false..|].
      by rewrite <- ltb_spec.
Qed.

Lemma higher_spec highest x :
  isNaN highest = false → isNaN x = false →
  (higher highest x = highest ∨ higher highest x = x) ∧
  (highest <=? higher highest x)%float = true ∧ (x <=? higher highest x)%float = true.
Proof.
  intros Hh Hx. unfold higher.
  destruct (is_pos_zero x && is_neg_zero highest) eqn:Hz.
  - apply andb_true_iff in Hz as [Hx0 Hh0]. split; [by right|].
    rewrite !leb_spec, (is_pos_zero_true _ Hx0), (is_neg_zero_true _ Hh0). done.
  - destruct (highest <? x)%float eqn:Hlt.
    + split; [by right|]. split; [|by apply leb_refl].
      rewrite leb_spec. apply SFltb_leb. by rewrite <- ltb_spec.
    + split; [by left|]. split; [by apply leb_refl|].
      rewrite leb_spec. apply SFltb_false; [by apply isNaN_false..|].
      by rewrite <- ltb_spec.
Qed.

Lemma fold_lower xs lowest :
  isNaN lowest = false → existsb isNaN xs = false →
  let r := fold_left lower xs lowest in
  isNaN r = false ∧ (r = lowest ∨ r ∈ xs) ∧
  (r <=? lowest)%float = true ∧ ∀ x, x ∈ xs → (r <=? x)%float = true.
Proof.
  revert lowest. induction xs as [|x xs IH]; intros lowest Hl Hxs; simpl.
  - split_and!; [done | by left | by apply leb_refl | by intros x ?%elem_of_nil].
  - simpl in Hxs. apply orb_false_iff in Hxs as [Hx Hxs].
    destruct (lower_spec lowest x Hl Hx) as (Hsel & Hle1 & Hle2).
    assert (Hn : isNaN (lower lowest x) = false) by (by destruct Hsel as [-> | ->]).
    destruct (IH _ Hn Hxs) as (Hr & Hmem & Hle & Hall).
    split_and!; [done | | by eapply leb_trans |].
    + destruct Hmem as [-> | Hin]; [|by right; right].
      destruct Hsel as [-> | ->]; [by left | by right; left].
    + intros y [-> | Hy]%elem_of_cons; [by eapply leb_trans | by apply Hall].
Qed.

Lemma fold_higher xs highest :
  isNaN highest = false → existsb isNaN xs = false →
  let r := fold_left higher xs highest in
  isNaN r = false ∧ (r = highest ∨ r ∈ xs) ∧
  (highest <=? r)%float = true ∧ ∀ x, x ∈ xs → (x <=? r)%float = true.
Proof.
  revert highest. induction xs as [|x xs IH]; intros highest Hh Hxs; simpl.
  - split_and!; [done | by left | by apply leb_refl | by intros x ?%elem_of_nil].
  - simpl in Hxs. apply orb_false_iff in Hxs as [Hx Hxs].
    destruct (higher_spec highest x Hh Hx) as (Hsel & Hle1 & Hle2).
    assert (Hn : isNaN (higher highest x) = false) by (by destruct Hsel as [-> | ->]).
    destruct (IH _ Hn Hxs) as (Hr & Hmem & Hle & Hall).
    split_and!; [done | | by eapply leb_trans |].
    + destruct Hmem as [-> | Hin]; [|by right; right].
      destruct Hsel as [-> | ->]; [by left | by right; left].
    + intros y [-> | Hy]%elem_of_cons; [by eapply leb_trans | by apply Hall].
Qed.

(** [Math.min] of a non-empty list without NaN is one of its elements, and
    none of the elements is below it. *)
Lemma Math_min_spec xs :
  xs ≠ [] → existsb isNaN xs = false →
  Math_min xs ∈ xs ∧ ∀ x, x ∈ xs → (Math_min xs <=? x)%float = true.
Proof.
  intros Hne Hxs. unfold Math_min. rewrite Hxs.
  destruct (fold_lower xs infinity eq_refl Hxs) as (Hr & Hmem & _ & Hall).
  fold lower. split; [|done].
  destruct Hmem as [Hinf | Hin]; [|done]. rewrite Hinf.
  destruct xs as [|x xs]; [done|].
  assert (Hx : x = infinity); [|rewrite <- Hx; by left].
  apply Prim2SF_inj. change (Prim2SF infinity) with (S754_infinity false).
  apply SFleb_infinity.
  - simpl in Hxs. apply orb_false_iff in Hxs as [Hx _]. by apply isNaN_false.
  - change (S754_infinity false) with (Prim2SF infinity).
    rewrite <- leb_spec, <- Hinf. apply Hall. by left.
Qed.

Lemma Math_max_spec xs :
  xs ≠ [] → existsb isNaN xs = false →
  Math_max xs ∈ xs ∧ ∀ x, x ∈ xs → (x <=? Math_max xs)%float = true.
Proof.
  intros Hne Hxs. unfold Math_max. rewrite Hxs.
  destruct (fold_higher xs neg_infinity eq_refl Hxs) as (Hr & Hmem & _ & Hall).
  fold higher. split; [|done].
  destruct Hmem as [Hinf | Hin]; [|done]. rewrite Hinf.
  destruct xs as [|x xs]; [done|].
  assert (Hx : x = neg_infinity); [|rewrite <- Hx; by left].
  apply Prim2SF_inj. change (Prim2SF neg_infinity) with (S754_infinity true).
  apply SFleb_neg_infinity.
  - simpl in Hxs. apply orb_false_iff in Hxs as [Hx _]. by apply isNaN_false.
  - change (S754_infinity true) with (Prim2SF neg_infinity).
    rewrite <- leb_spec, <- Hinf. apply Hall. by left.
Qed.

End Num.

(** ** Filtering, sorting and aggregation ([components.js], [charts.js]) *)

Module Query.
Import JS Num.

(** An expense record; [date] is an ISO-8601 string. *)
Record Expense := {
  id : string;
  amount : float;
  category : string;
  description : string;
  date : string
}.

Record CategoryInfo := { icon : string; name : string }.

Definition CATEGORIES : list (string * CategoryInfo) :=
  [ ("food", {| icon := "🍔"; name := "Food" |});
    ("travel", {| icon := "✈️"; name := "Travel" |});
    ("shopping", {| icon := "🛍️"; name := "Shopping" |});
    ("bills", {| icon := "📄"; name := "Bills" |});
    ("entertainment", {| icon := "🎬"; name := "Entertainment" |});
    ("health", {| icon := "💊"; name := "Health" |});
    ("other", {| icon := "📦"; name := "Other" |}) ].

Definition Object_keys {V} (o : list (string * V)) : list string := o.*1.

(** *** calculateCategoryTotals *)

(** [totals[cat] = 0] for every key of [CATEGORIES]. *)
Definition initial_totals : gmap string float :=
  fold_left (λ totals cat, <[cat := 0%float]> totals) (Object_keys CATEGORIES) ∅.

(** The body of the [forEach]: an expense whose category is not an own
    property of [totals] is passed over. *)
Definition add_expense (totals : gmap string float) (exp : Expense)
  : gmap string float :=
  match totals !! category exp with
  | Some x => <[category exp := (x + amount exp)%float]> totals
  | None => totals
  end.

Definition calculateCategoryTotals (expenses : list Expense) : gmap string float :=
  fold_left add_expense expenses initial_totals.

(** The sum of the amounts of the expenses of one category, accumulated
    from 0 in the order of the list. *)
Definition category_sum (cat : string) (expenses : list Expense) : float :=
  fold_left (λ s exp, if decide (category exp = cat) then (s + amount exp)%float else s)
            expenses 0%float.

(** *** calculateStats *)

Record Stats := {
  sum : float;
  avg : float;
  min : float;
  max : float;
  count : nat
}.

Section Engine.

(** The most arguments the engine passes in one call.  [f(...xs)] pushes one
    argument per element of [xs], and with more elements than that the call
    throws a RangeError before [f] runs.  The number is the engine's: some
    65536, on Node.js somewhat above 120000 with the default stack. *)
Variable arguments_limit : N.

(** [f(...xs)] *)
Definition spread {A} (f : list float → A) (xs : list float) : completion A :=
  if (N.of_nat (length xs) <=? arguments_limit)%N then Normal (f xs)
  else Abrupt RangeError.

(** [calculateStats(numbers)] *)
Definition calculateStats (numbers : list float) : completion Stats :=
  match numbers with
  | [] => Normal {| sum := 0; avg := 0; min := 0; max := 0; count := 0 |}
  | _ =>
      let sum := fold_left (λ a b, (a + b)%float) numbers 0%float in
      let avg := (sum / of_length (length numbers))%float in
      match spread Math_min numbers with
      | Abrupt e => Abrupt e
      | Normal min =>
          match spread Math_max numbers with
          | Abrupt e => Abrupt e
          | Normal max =>
              Normal {| sum := sum; avg := avg; min := min; max := max;
                        count := length numbers |}
          end
      end
  end.

End Engine.

(** The exact sum of the rational values of finite numbers. *)
Fixpoint exact_sum (xs : list float) : option Q :=
  match xs with
  | [] => Some 0%Q
  | x :: xs' =>
      match to_Q x, exact_sum xs' with
      | Some q, Some r => Some (q + r)%Q
      | _, _ => None
      end
  end.

(** *** sortBy and applyFilters *)

(** [a[prop]] *)
Definition get (a : Expense) (prop : string) : val :=
  if decide (prop = "id") then VStr (id a)
  else if decide (prop = "amount") then VNum (amount a)
  else if decide (prop = "category") then VStr (category a)
  else if decide (prop = "description") then VStr (description a)
  else if decide (prop = "date") then VStr (date a)
  else VUndef.

(** [x > y] and [x < y] on two values of the same property: numbers are
    compared as numbers, strings character by character, and a comparison
    with [undefined] is false.  (JavaScript compares UTF-16 code units; the
    characters of a string here are bytes, which is the same order for the
    ids, categories and ISO dates of the application, all below U+0080.) *)
Definition gt (x y : val) : bool :=
  match x, y with
  | VNum a, VNum b => (b <? a)%float
  | VStr a, VStr b => String.ltb b a
  | _, _ => false
  end.

Definition lt (x y : val) : bool := gt y x.

(** [s.split('-')] *)
Fixpoint split_dash (s : string) : list string :=
  match s with
  | EmptyString => [EmptyString]
  | String c s' =>
      if Ascii.eqb c "-" then EmptyString :: split_dash s'
      else match split_dash s' with
           | piece :: pieces => String c piece :: pieces
           | [] => [String c EmptyString]
           end
  end.

(** [s.includes(sub)] *)
Fixpoint includes (s sub : string) : bool :=
  String.prefix sub s
  || match s with
     | EmptyString => false
     | String _ s' => includes s' sub
     end.

Record FilterSpec := {
  searchQuery : option string;
  category_filter : option string;     (* [filters.category] *)
  dateRange : option string;
  sortBy_spec : option string          (* [filters.sortBy] *)
}.

(** A string used as a condition: [undefined] and [''] are falsy. *)
Definition truthy (s : option string) : bool :=
  match s with
  | None | Some EmptyString => false
  | Some _ => true
  end.

Section Platform.

(** What the platform provides: [Array.prototype.sort] with a comparison
    function, the time value of [new Date(s)], [String.prototype.toLowerCase],
    and [getDateRange], whose result depends on the clock and the time zone
    of the host (given here as the time values of [start] and [end]). *)
Variable Array_sort : (Expense → Expense → Z) → list Expense → list Expense.
Variable Date_getTime : string → float.
Variable toLowerCase : string → string.
Variable getDateRange : string → float * float.

(** The comparison function that [sortBy] hands to [sort]. *)
Definition comparator (prop order : string) (a b : Expense) : Z :=
  let valA := get a prop in
  let valB := get b prop in
  let '(valA, valB) :=
    if decide (prop = "date")
    then (VNum (Date_getTime (date a)), VNum (Date_getTime (date b)))
    else (valA, valB) in
  if decide (order = "asc") then (if gt valA valB then 1 else -1)%Z
  else (if lt valA valB then 1 else -1)%Z.

(** [sortBy(arr, prop, order = 'desc')] *)
Definition sortBy (arr : list Expense) (prop : string) (order : option string)
  : list Expense :=
  Array_sort (comparator prop (default "desc" order)) arr.

(** [applyFilters(expenses, filters)] *)
Definition applyFilters (expenses : list Expense) (filters : FilterSpec)
  : list Expense :=
  let result := expenses in
  let result :=
    if truthy (searchQuery filters) then
      let query := toLowerCase (default "" (searchQuery filters)) in
      List.filter (λ exp, includes (toLowerCase (description exp)) query
                          || includes (toLowerCase (category exp)) query) result
    else result in
  let result :=
    if truthy (category_filter filters)
       && negb (bool_decide (category_filter filters = Some "all")) then
      List.filter (λ exp, bool_decide (Some (category exp) = category_filter filters))
                  result
    else result in
  let result :=
    if truthy (dateRange filters)
       && negb (bool_decide (dateRange filters = Some "all")) then
      let '(start, end_) := getDateRange (default "" (dateRange filters)) in
      List.filter (λ exp, let date := Date_getTime (date exp) in
                          (start <=? date)%float && (date <=? end_)%float) result
    else result in
  if truthy (sortBy_spec filters) then
    let parts := split_dash (default "" (sortBy_spec filters)) in
    sortBy result (default "" (parts !! 0)) (parts !! 1)
  else result.

End Platform.

(** *** Array.prototype.sort in V8

    ECMAScript leaves the order that [sort] produces to the implementation
    when the comparison function is not consistent.  This is what V8 (Chrome,
    Node.js) does for an array of fewer than 64 elements: it takes the
    longest run at the start that is ascending, or strictly descending (and
    then reverses it), and inserts the remaining elements one by one by
    binary search. *)

Section V8.

Context {A : Type}.
Variable comparefn : A → A → Z.

(** The rest of the run that starts with [prev]. *)
Fixpoint extend_run (descending : bool) (prev : A) (l : list A) : list A * list A :=
  match l with
  | [] => ([], [])
  | x :: l' =>
      let order := comparefn x prev in
      if (if descending then (order <? 0)%Z else negb (order <? 0)%Z) then
        let '(run, rest) := extend_run descending x l' in (x :: run, rest)
      else ([], l)
  end.

(** CountAndMakeRun: the initial run, made ascending, and what follows it. *)
Definition CountAndMakeRun (l : list A) : list A * list A :=
  match l with
  | x0 :: x1 :: l' =>
      let descending := (comparefn x1 x0 <? 0)%Z in
      let '(run, rest) := extend_run descending x1 l' in
      let run := x0 :: x1 :: run in
      (if descending then rev run else run, rest)
  | _ => (l, [])
  end.

(** The binary search of BinaryInsertionSort for the place of [pivot] in
    [sorted] between [left] and [right]; [steps] bounds the halvings. *)
Fixpoint insertion_point (pivot : A) (sorted : list A) (left right steps : nat)
  : nat :=
  match steps with
  | 0 => left
  | S steps' =>
      if left <? right then
        let mid := left + (right - left) / 2 in
        match sorted !! mid with
        | Some x =>
            if (comparefn pivot x <? 0)%Z
            then insertion_point pivot sorted left mid steps'
            else insertion_point pivot sorted (mid + 1) right steps'
        | None => left
        end
      else left
  end.

Definition insert_pivot (sorted : list A) (pivot : A) : list A :=
  let p := insertion_point pivot sorted 0 (length sorted) (length sorted) in
  take p sorted ++ pivot :: drop p sorted.

Definition v8_sort (l : list A) : list A :=
  let '(run, rest) := CountAndMakeRun l in
  fold_left insert_pivot rest run.

End V8.

(** Some expenses, one of them in a category the application does not
    know. *)
Definition groceries : Expense :=
  {| id := "e1"; amount := 45.5; category := "food";
     description := "Groceries"; date := "2024-05-02T10:00:00.000Z" |}.

Definition lunch : Expense :=
  {| id := "e2"; amount := 25; category := "food";
     description := "Lunch"; date := "2024-05-03T12:30:00.000Z" |}.

Definition present : Expense :=
  {| id := "e3"; amount := 25; category := "gifts";
     description := "Present"; date := "2024-05-03T12:30:00.000Z" |}.

(** *** Category totals *)

Lemma initial_totals_known cat :
  cat ∈ Object_keys CATEGORIES → initial_totals !! cat = Some 0%float.
Proof.
  intros Hin. unfold Object_keys in Hin. simpl in Hin.
  repeat (apply elem_of_cons in Hin as [-> | Hin]; [by vm_compute|]).
  by apply elem_of_nil in Hin.
Qed.

Lemma initial_totals_unknown cat :
  cat ∉ Object_keys CATEGORIES → initial_totals !! cat = None.
Proof.
  intros Hout. unfold Object_keys in Hout. simpl in Hout.
  unfold initial_totals, Object_keys. simpl.
  repeat (apply not_elem_of_cons in Hout as [Hne Hout];
          try rewrite lookup_insert_ne by done).
  repeat (rewrite lookup_insert_ne by (intros <-; set_solver)).
  apply lookup_empty.
Qed.

Lemma fold_add_expense expenses (totals : gmap string float) cat :
  fold_left add_expense expenses totals !! cat =
  match totals !! cat with
  | Some x =>
      Some (fold_left
              (λ s exp, if decide (category exp = cat) then (s + amount exp)%float else s)
              expenses x)
  | None => None
  end.
Proof.
  revert totals. induction expenses as [|exp expenses IH]; intros totals; simpl.
  - by destruct (totals !! cat).
  - rewrite IH. unfold add_expense.
    destruct (decide (category exp = cat)) as [<-|Hne].
    + destruct (totals !! category exp) as [y|] eqn:Hy.
      * by rewrite lookup_insert_eq.
      * by rewrite Hy.
    + destruct (totals !! category exp) as [y|] eqn:Hy; [|done].
      by rewrite lookup_insert_ne.
Qed.

Lemma category_sum_known_only cat expenses :
  cat ∈ Object_keys CATEGORIES →
  category_sum cat (filter (λ exp, category exp ∈ Object_keys CATEGORIES) expenses)
  = category_sum cat expenses.
Proof.
  intros Hcat. unfold category_sum. generalize 0%float.
  induction expenses as [|exp expenses IH]; intros acc; [done|].
  rewrite filter_cons. destruct (decide (category exp ∈ Object_keys CATEGORIES)) as [Hk|Hu].
  - simpl. apply IH.
  - cbn [fold_left]. cbv beta.
    destruct (decide (category exp = cat)) as [Heq|Hne]; [by subst | apply IH].
Qed.

(** C7, as the code has it.  The totals hold exactly the known category keys;
    each is mapped to the sum, accumulated from 0 in list order, of the
    amounts of the expenses of that category, so to 0 when there is none and
    in particular for the empty list; an expense whose category is not a
    known key is passed over: it changes no total, not that of ["other"]
    either. *)
Theorem calculateCategoryTotals_known_keys expenses :
  (∀ cat, cat ∈ Object_keys CATEGORIES →
     calculateCategoryTotals expenses !! cat = Some (category_sum cat expenses)) ∧
  (∀ cat, cat ∉ Object_keys CATEGORIES →
     calculateCategoryTotals expenses !! cat = None) ∧
  (∀ cat, cat ∈ Object_keys CATEGORIES →
     calculateCategoryTotals [] !! cat = Some 0%float) ∧
  calculateCategoryTotals
    (filter (λ exp, category exp ∈ Object_keys CATEGORIES) expenses)
  = calculateCategoryTotals expenses.
Proof.
  assert (Hknown : ∀ es cat, cat ∈ Object_keys CATEGORIES →
            calculateCategoryTotals es !! cat = Some (category_sum cat es)).
  { intros es cat Hcat. unfold calculateCategoryTotals.
    by rewrite fold_add_expense, initial_totals_known. }
  assert (Hunknown : ∀ es cat, cat ∉ Object_keys CATEGORIES →
            calculateCategoryTotals es !! cat = None).
  { intros es cat Hcat. unfold calculateCategoryTotals.
    by rewrite fold_add_expense, initial_totals_unknown. }
  split_and!; [by auto | by auto | by apply initial_totals_known |].
  apply map_eq. intros cat.
  destruct (decide (cat ∈ Object_keys CATEGORIES)) as [Hcat|Hcat].
  - by rewrite !Hknown, category_sum_known_only.
  - by rewrite !Hunknown.
Qed.

Lemma calculateCategoryTotals_known_keys_witness :
  calculateCategoryTotals [groceries; present; lunch] !! "food" = Some 70.5%float ∧
  calculateCategoryTotals [groceries; present; lunch] !! "other" = Some 0%float ∧
  calculateCategoryTotals [groceries; present; lunch] !! "gifts" = None.
Proof.
  destruct (calculateCategoryTotals_known_keys [groceries; present; lunch])
    as (Hknown & Hunknown & _ & _).
  split_and!.
  - rewrite Hknown; [by vm_compute|]. apply list_elem_of_In. simpl. tauto.
  - rewrite Hknown; [by vm_compute|]. apply list_elem_of_In. simpl. tauto.
  - apply Hunknown. intros Hin%list_elem_of_In. simpl in Hin.
    repeat (destruct Hin as [Hin|Hin]; [discriminate|]). done.
Defined.

(** C7, as the specification states it, fails: the amount of an expense in
    the unknown category ["gifts"] is not added to ["other"], which stays
    at 0. *)
Lemma unknown_category_other_counterexample :
  calculateCategoryTotals [present] !! "other" = Some 0%float ∧
  calculateCategoryTotals [present] !! "other" ≠ Some (amount present).
Proof.
  assert (H0 : calculateCategoryTotals [present] !! "other" = Some 0%float)
    by (by vm_compute).
  split; [done|]. rewrite H0. intros Heq.
  assert (H25 : Prim2SF 0 = Prim2SF (amount present)) by congruence.
  vm_compute in H25. discriminate.
Qed.

(** *** Statistics *)

(** C9, as the code has it.  For the empty list all five fields are zero.
    A non-empty list is passed to [Math.min] and [Math.max] one argument per
    element.  When its length is within the number of arguments the engine
    passes in one call, [calculateStats] returns: [count] is the length,
    [sum] is the result of adding the numbers from 0 in list order in
    binary64 arithmetic, [avg] is that sum divided by the length, and, when
    no number is NaN, [min] and [max] are elements of the list with no
    element below, respectively above, them.  For [10, 20, 30] this gives sum
    60, avg 20, min 10, max 30, count 3.  When the list is longer than that,
    [calculateStats] throws a RangeError and returns nothing. *)
Theorem calculateStats_fields (arguments_limit : N) :
  calculateStats arguments_limit [] =
    Normal {| sum := 0; avg := 0; min := 0; max := 0; count := 0 |} ∧
  ((3 ≤ arguments_limit)%N →
   calculateStats arguments_limit [10; 20; 30]%float =
     Normal {| sum := 60; avg := 20; min := 10; max := 30; count := 3 |}) ∧
  ∀ numbers, numbers ≠ [] →
    ((N.of_nat (length numbers) ≤ arguments_limit)%N →
     ∃ s, calculateStats arguments_limit numbers = Normal s ∧
       count s = length numbers ∧
       sum s = fold_left (λ a b, (a + b)%float) numbers 0%float ∧
       avg s = (sum s / of_length (length numbers))%float ∧
       (existsb isNaN numbers = false →
        min s ∈ numbers ∧ max s ∈ numbers ∧
        ∀ x, x ∈ numbers → (min s <=? x)%float = true ∧ (x <=? max s)%float = true)) ∧
    ((arguments_limit < N.of_nat (length numbers))%N →
     calculateStats arguments_limit numbers = Abrupt RangeError).
Proof.
  split_and!; [done | |].
  - intros Hlimit. unfold calculateStats, spread.
    assert (Hle : (N.of_nat (length [10; 20; 30]%float) <=? arguments_limit)%N = true)
      by (apply N.leb_le; simpl; lia).
    rewrite Hle. by vm_compute.
  - intros numbers Hne. split.
    + intros Hlen%N.leb_le. destruct numbers as [|x xs]; [done|].
      unfold calculateStats, spread. rewrite Hlen. eexists. split; [done|].
      split_and!; [done | done | done |].
      intros Hnan. cbn [min max].
      destruct (Math_min_spec (x :: xs) Hne Hnan) as [Hmin Hle].
      destruct (Math_max_spec (x :: xs) Hne Hnan) as [Hmax Hge].
      split_and!; [done | done |]. intros y Hy. split; [by apply Hle | by apply Hge].
    + intros Hlen%N.leb_gt. destruct numbers as [|x xs]; [done|].
      unfold calculateStats, spread. by rewrite Hlen.
Qed.

Lemma calculateStats_fields_witness :
  ∃ s, calculateStats 65536 [45.5; 120; 35.5]%float = Normal s ∧
       count s = 3 ∧ sum s = 201%float ∧ avg s = 67%float ∧
       min s = 35.5%float ∧ max s = 120%float ∧
       (min s <=? 45.5)%float = true.
Proof.
  destruct (calculateStats_fields 65536) as (_ & _ & Hgen).
  destruct (Hgen [45.5; 120; 35.5]%float) as [Hret _]; [done|].
  destruct Hret as (s & Hs & Hcount & Hsum & Havg & Hminmax); [simpl; lia|].
  destruct Hminmax as (_ & _ & Hall); [by vm_compute|].
  destruct (Hall 45.5%float) as [Hle _]; [by left|].
  exists s. split; [exact Hs|].
  assert (Hs' : Normal s = calculateStats 65536 [45.5; 120; 35.5]%float) by done.
  vm_compute in Hs'. injection Hs' as ->.
  split_and!; [exact Hcount | by vm_compute | by vm_compute | by vm_compute
              | by vm_compute | exact Hle].
Defined.

(** C9, as the specification states it, fails in two ways.  Numbers are
    binary64 values, and the sum of 0.1 and 0.2 (the numbers nearest to
    them) that [calculateStats] returns, 0.30000000000000004, is not the
    exact sum of the two numbers.  And on an engine that passes 65536
    arguments at most, [calculateStats] returns nothing for a list of 65537
    numbers: it throws a RangeError. *)
Lemma calculateStats_exact_sum_counterexample :
  (let numbers := [0x1.999999999999ap-4; 0x1.999999999999ap-3]%float in
   ∃ s returned exact,
     calculateStats 65536 numbers = Normal s ∧
     to_Q (sum s) = Some returned ∧
     exact_sum numbers = Some exact ∧
     ¬ (returned == exact)%Q) ∧
  calculateStats 65536 (repeat 1%float (N.to_nat 65537)) = Abrupt RangeError.
Proof.
  split.
  - intros numbers. eexists _, _, _. split_and!.
    + vm_compute. reflexivity.
    + vm_compute. reflexivity.
    + vm_compute. reflexivity.
    + intros Heq. vm_compute in Heq. discriminate.
  - vm_compute. reflexivity.
Qed.

(** *** Sorting *)

Lemma insertion_point_S {A} (comparefn : A → A → Z) pivot sorted left right steps :
  insertion_point comparefn pivot sorted left right (S steps) =
  if left <? right then
    match sorted !! (left + (right - left) / 2) with
    | Some x =>
        if (comparefn pivot x <? 0)%Z
        then insertion_point comparefn pivot sorted left
               (left + (right - left) / 2) steps
        else insertion_point comparefn pivot sorted
               (left + (right - left) / 2 + 1) right steps
    | None => left
    end
  else left.
Proof. done. Qed.

(** The budget of the binary search is never used up: one more step changes
    nothing. *)
Lemma insertion_point_steps {A} (comparefn : A → A → Z) pivot sorted left right steps :
  right - left ≤ steps →
  insertion_point comparefn pivot sorted left right (S steps) =
  insertion_point comparefn pivot sorted left right steps.
Proof.
  revert left right. induction steps as [|steps IH]; intros left right Hle.
  - rewrite insertion_point_S. destruct (Nat.ltb_spec left right); [lia | done].
  - rewrite (insertion_point_S _ _ _ left right (S steps)),
      (insertion_point_S _ _ _ left right steps).
    destruct (Nat.ltb_spec left right) as [Hlt|]; [|done].
    pose proof (Nat.div_mod_eq (right - left) 2) as Hdiv.
    pose proof (Nat.mod_upper_bound (right - left) 2) as Hmod.
    destruct (sorted !! (left + (right - left) / 2)); [|done].
    destruct (comparefn pivot a <? 0)%Z; apply IH; lia.
Qed.

(** On two records [sort] is handed, V8 asks the comparison function about
    the second against the first, and swaps them when the answer is
    negative. *)
Lemma v8_sort_pair {A} (comparefn : A → A → Z) a b :
  (comparefn b a < 0)%Z → v8_sort comparefn [a; b] = [b; a].
Proof.
  intros Hneg. unfold v8_sort, CountAndMakeRun. simpl.
  destruct (Z.ltb_spec (comparefn b a) 0); [done | lia].
Qed.

(** The comparison function never answers 0: for two records with the same
    amount, or with the same date, it answers -1 whichever comes first. *)
Lemma comparator_tie_amount Date_getTime order a b :
  amount a = amount b →
  comparator Date_getTime "amount" order a b = (-1)%Z.
Proof.
  intros Heq. unfold comparator, lt. simpl. rewrite Heq.
  rewrite ltb_irrefl. by destruct (decide (order = "asc")).
Qed.

Lemma comparator_tie_date Date_getTime order a b :
  date a = date b →
  comparator Date_getTime "date" order a b = (-1)%Z.
Proof.
  intros Heq. unfold comparator, lt. simpl. rewrite Heq.
  rewrite ltb_irrefl. by destruct (decide (order = "asc")).
Qed.

Lemma comparator_never_zero Date_getTime prop order a b :
  comparator Date_getTime prop order a b ≠ 0%Z.
Proof.
  unfold comparator, lt.
  destruct (decide (prop = "date")); destruct (decide (order = "asc"));
    by destruct (gt _ _).
Qed.

(** C8 fails on the code.  The comparison function of [sortBy] never answers
    0, not even for a record and itself, so it is not a consistent comparison
    function and [sort] is not told of any tie.  [lunch] and [present] have
    the same amount and the same date.  Sorted by amount, or by date (the
    default of the application), the comparison function answers -1 for the
    two in either order, and V8 returns them in the reverse of their original
    order. *)
Theorem applyFilters_reverses_ties Date_getTime toLowerCase getDateRange :
  let no_filter sort :=
    {| searchQuery := Some ""; category_filter := Some "all";
       dateRange := Some "all"; sortBy_spec := Some sort |} in
  let apply := applyFilters v8_sort Date_getTime toLowerCase getDateRange in
  (∀ prop order a b, comparator Date_getTime prop order a b ≠ 0%Z) ∧
  comparator Date_getTime "amount" "desc" lunch present = (-1)%Z ∧
  comparator Date_getTime "amount" "desc" present lunch = (-1)%Z ∧
  apply [lunch; present] (no_filter "amount-desc") = [present; lunch] ∧
  apply [lunch; present] (no_filter "amount-asc") = [present; lunch] ∧
  apply [lunch; present] (no_filter "date-desc") = [present; lunch] ∧
  apply [lunch; present] (no_filter "date-asc") = [present; lunch].
Proof.
  intros no_filter apply. split_and!.
  - intros prop order a b. apply comparator_never_zero.
  - by apply comparator_tie_amount.
  - by apply comparator_tie_amount.
  - unfold apply, applyFilters, sortBy. simpl. apply v8_sort_pair.
    by rewrite comparator_tie_amount.
  - unfold apply, applyFilters, sortBy. simpl. apply v8_sort_pair.
    by rewrite comparator_tie_amount.
  - unfold apply, applyFilters, sortBy. simpl. apply v8_sort_pair.
    by rewrite comparator_tie_date.
  - unfold apply, applyFilters, sortBy. simpl. apply v8_sort_pair.
    by rewrite comparator_tie_date.
Qed.

(** *** Further properties of sorting and filtering *)

Lemma extend_run_app {A} (comparefn : A → A → Z) descending prev l run rest :
  extend_run comparefn descending prev l = (run, rest) → run ++ rest = l.
Proof.
  revert prev run rest. induction l as [|x l IH]; intros prev run rest; simpl.
  - by intros [= <- <-].
  - destruct (if descending then _ else _).
    + destruct (extend_run comparefn descending x l) as [run' rest'] eqn:Hr.
      intros [= <- <-]. simpl. by rewrite (IH _ _ _ Hr).
    + by intros [= <- <-].
Qed.

Lemma CountAndMakeRun_perm {A} (comparefn : A → A → Z) l run rest :
  CountAndMakeRun comparefn l = (run, rest) → run ++ rest ≡ₚ l.
Proof.
  destruct l as [|x0 [|x1 l]]; simpl.
  - by intros [= <- <-].
  - by intros [= <- <-].
  - destruct (extend_run comparefn _ x1 l) as [run' rest'] eqn:Hr.
    apply extend_run_app in Hr. intros [= <- <-]. subst l.
    destruct (comparefn x1 x0 <? 0)%Z; [|done].
    change (x0 :: x1 :: run' ++ rest') with ((x0 :: x1 :: run') ++ rest').
    apply Permutation_app_tail. symmetry. apply Permutation_rev.
Qed.

Lemma insert_pivot_perm {A} (comparefn : A → A → Z) sorted pivot :
  insert_pivot comparefn sorted pivot ≡ₚ sorted ++ [pivot].
Proof.
  unfold insert_pivot.
  set (p := insertion_point comparefn pivot sorted 0 (length sorted) (length sorted)).
  rewrite <- (take_drop p sorted) at 3. rewrite <- app_assoc.
  apply Permutation_app_head. rewrite <- Permutation_cons_append. done.
Qed.

Lemma fold_insert_pivot_perm {A} (comparefn : A → A → Z) rest run :
  fold_left (insert_pivot comparefn) rest run ≡ₚ run ++ rest.
Proof.
  revert run. induction rest as [|x rest IH]; intros run; simpl.
  - by rewrite app_nil_r.
  - rewrite IH, insert_pivot_perm, <- app_assoc. done.
Qed.

Lemma v8_sort_perm {A} (comparefn : A → A → Z) l : v8_sort comparefn l ≡ₚ l.
Proof.
  unfold v8_sort. destruct (CountAndMakeRun comparefn l) as [run rest] eqn:Hr.
  rewrite fold_insert_pivot_perm. by eapply CountAndMakeRun_perm.
Qed.

Lemma filter_std_sublist {A} (p : A → bool) (l : list A) : List.filter p l `sublist_of` l.
Proof.
  induction l as [|x l IH]; simpl; [done|].
  destruct (p x); [by apply sublist_skip | by apply sublist_cons].
Qed.

Lemma filter_std_all {A} (p : A → bool) (l : list A) x :
  x ∈ List.filter p l → p x = true.
Proof. intros Hin%list_elem_of_In. by apply List.filter_In in Hin as [_ ?]. Qed.

(** X17. Sorting loses nothing: with the sort of V8, whose result for the
    comparison function of [sortBy] (which never answers 0) the language
    leaves open, [sortBy] returns a rearrangement of the array it is given,
    every expense as often as it was there, for every property and every
    order.  This is for arrays of fewer than 64 elements, which V8 sorts in
    one run by binary insertion, as [v8_sort] does. *)
Theorem sortBy_permutation Date_getTime arr prop order :
  length arr < 64 →
  sortBy v8_sort Date_getTime arr prop order ≡ₚ arr.
Proof. intros _. unfold sortBy. apply v8_sort_perm. Qed.

Lemma sortBy_permutation_witness :
  sortBy v8_sort (λ _, 0%float) [lunch; present; groceries] "amount" (Some "desc")
    ≡ₚ [lunch; present; groceries].
Proof.
  apply (sortBy_permutation (λ _, 0%float) [lunch; present; groceries] "amount" (Some "desc")).
  simpl. lia.
Defined.

(** X18. [applyFilters] only ever selects: with a sort that rearranges, the
    result holds no expense more often than the input does; without a sort
    key the result is the input with some expenses left out, in the order
    of the input; a category other than the empty one and [all] keeps
    expenses of that category only; and with no search text, category
    [all] and date range [all], nothing is left out. *)
Theorem applyFilters_selects Array_sort Date_getTime toLowerCase getDateRange
    expenses filters :
  (∀ comparefn l, Array_sort comparefn l ≡ₚ l) →
  let result :=
    applyFilters Array_sort Date_getTime toLowerCase getDateRange expenses filters in
  result ⊆+ expenses ∧
  (truthy (sortBy_spec filters) = false → result `sublist_of` expenses) ∧
  (∀ c exp, category_filter filters = Some c → c ≠ "" → c ≠ "all" →
            exp ∈ result → category exp = c) ∧
  (truthy (searchQuery filters) = false →
   category_filter filters = Some "all" → dateRange filters = Some "all" →
   result ≡ₚ expenses).
Proof.
  intros Hsort result. unfold result, applyFilters.
  set (r1 := if truthy (searchQuery filters) then _ else expenses).
  set (r2 := if truthy (category_filter filters) && _ then _ else r1).
  set (r3 := if truthy (dateRange filters) && _ then _ else r2).
  assert (H1 : r1 `sublist_of` expenses).
  { unfold r1. destruct (truthy (searchQuery filters)); [apply filter_std_sublist|done]. }
  assert (H2 : r2 `sublist_of` r1).
  { unfold r2. destruct (truthy (category_filter filters) && _);
      [apply filter_std_sublist|done]. }
  assert (H3 : r3 `sublist_of` r2).
  { unfold r3. destruct (truthy (dateRange filters) && _); [|done].
    destruct (getDateRange _). apply filter_std_sublist. }
  assert (H : r3 `sublist_of` expenses) by (by etrans; [|etrans]).
  set (final := if truthy (sortBy_spec filters) then _ else r3).
  assert (Hfinal : final ≡ₚ r3).
  { unfold final. destruct (truthy (sortBy_spec filters)); [apply Hsort|done]. }
  split_and!.
  - rewrite Hfinal. by apply sublist_submseteq.
  - intros Hno. unfold final. by rewrite Hno.
  - intros c exp Hc Hne Hall Hin. rewrite Hfinal in Hin.
    assert (Hin2 : exp ∈ r2) by (by eapply elem_of_sublist).
    unfold r2 in Hin2. rewrite Hc in Hin2.
    assert (Hactive : truthy (Some c) && negb (bool_decide (Some c = Some "all")) = true).
    { rewrite bool_decide_eq_false_2 by congruence. by destruct c. }
    rewrite Hactive in Hin2. apply filter_std_all in Hin2.
    apply bool_decide_eq_true in Hin2. congruence.
  - intros Hq Hc Hd. rewrite Hfinal. unfold r3, r2, r1. rewrite Hq, Hc, Hd. done.
Qed.

Lemma applyFilters_selects_witness :
  applyFilters v8_sort (λ _, 0%float) (λ s, s) (λ _, (0%float, 0%float))
    [groceries; present; lunch]
    {| searchQuery := None; category_filter := Some "food";
       dateRange := None; sortBy_spec := None |}
  `sublist_of` [groceries; present; lunch].
Proof.
  apply (applyFilters_selects v8_sort (λ _, 0%float) (λ s, s) (λ _, (0%float, 0%float))
           [groceries; present; lunch]
           {| searchQuery := None; category_filter := Some "food";
              dateRange := None; sortBy_spec := None |}).
  - intros comparefn l. apply v8_sort_perm.
  - reflexivity.
Defined.

Lemma SFltb_asym x y : SFltb x y = true → SFltb y x = false.
Proof. sf_order. Qed.

Lemma gt_asym x y : gt x y = true → gt y x = false.
Proof.
  destruct x, y; try done; simpl.
  - rewrite !ltb_spec. apply SFltb_asym.
  - unfold String.ltb. rewrite (String.compare_antisym s0 s).
    by destruct (String.compare s s0).
Qed.

(** X19. Apart from ties the comparison function of [sortBy] is sound: when
    the key of one of two expenses is greater than the key of the other,
    swapping the arguments swaps the sign of the answer, and every order
    other than [asc] answers the opposite of [asc]. *)
Theorem comparator_sound_without_ties Date_getTime prop order a b :
  comparator Date_getTime prop "asc" a b = 1%Z ∨
  comparator Date_getTime prop "asc" b a = 1%Z →
  comparator Date_getTime prop order b a = (- comparator Date_getTime prop order a b)%Z ∧
  (order ≠ "asc" →
   comparator Date_getTime prop order a b = (- comparator Date_getTime prop "asc" a b)%Z).
Proof.
  unfold comparator, lt.
  set (va := if decide (prop = "date") then VNum (Date_getTime (date a)) else get a prop).
  set (vb := if decide (prop = "date") then VNum (Date_getTime (date b)) else get b prop).
  assert (Hab : (if decide (prop = "date")
                 then (VNum (Date_getTime (date a)), VNum (Date_getTime (date b)))
                 else (get a prop, get b prop)) = (va, vb)).
  { unfold va, vb. by destruct (decide (prop = "date")). }
  assert (Hba : (if decide (prop = "date")
                 then (VNum (Date_getTime (date b)), VNum (Date_getTime (date a)))
                 else (get b prop, get a prop)) = (vb, va)).
  { unfold va, vb. by destruct (decide (prop = "date")). }
  rewrite Hab, Hba. rewrite decide_True by done.
  intros Hgt.
  assert (Hcases : (gt va vb = true ∧ gt vb va = false) ∨
                   (gt va vb = false ∧ gt vb va = true)).
  { destruct Hgt as [Hgt|Hgt].
    - destruct (gt va vb) eqn:H1; [|done]. left. split; [done|]. by apply gt_asym.
    - destruct (gt vb va) eqn:H1; [|done]. right. split; [|done]. by apply gt_asym. }
  destruct Hcases as [[-> ->]|[-> ->]]; destruct (decide (order = "asc")); done.
Qed.

Lemma comparator_sound_without_ties_witness :
  comparator (λ _, 0%float) "amount" "desc" lunch groceries
  = (- comparator (λ _, 0%float) "amount" "desc" groceries lunch)%Z.
Proof.
  apply (comparator_sound_without_ties (λ _, 0%float) "amount" "desc" groceries lunch).
  left. vm_compute. reflexivity.
Defined.

(** *** groupBy *)

(** The properties every plain object inherits from [Object.prototype]; all
    of them hold a function, but [__proto__], which reads as the prototype
    object. *)
Definition Object_prototype : list string :=
  [ "constructor"; "hasOwnProperty"; "isPrototypeOf"; "propertyIsEnumerable";
    "toLocaleString"; "toString"; "valueOf"; "__proto__";
    "__defineGetter__"; "__defineSetter__"; "__lookupGetter__"; "__lookupSetter__" ].

(** [arr.reduce(f, init)] with a callback that can throw. *)
Fixpoint reduce {A B} (f : B → A → completion B) (arr : list A) (acc : B)
  : completion B :=
  match arr with
  | [] => Normal acc
  | x :: arr' =>
      match f acc x with
      | Normal acc' => reduce f arr' acc'
      | Abrupt e => Abrupt e
      end
  end.

Section GroupBy.

(** [Number.prototype.toString], for a number used as a property key. *)
Variable Number_toString : float → string.

(** [item[prop]] as a property key. *)
Definition key_of (item : Expense) (prop : string) : string :=
  match get item prop with
  | VStr s => s
  | VNum x => Number_toString x
  | _ => "undefined"
  end.

(** The callback of the [reduce].  [groups[key]] reads an own property, the
    array of the group, or else what the object inherits: a name of
    [Object.prototype] reads as a function or an object, which is truthy
    and has no [push], so that [groups[key].push(item)] throws a
    TypeError. *)
Definition group_item (prop : string) (groups : gmap string (list Expense))
    (item : Expense) : completion (gmap string (list Expense)) :=
  let key := key_of item prop in
  match groups !! key with
  | Some group => Normal (<[key := group ++ [item]]> groups)
  | None =>
      if decide (key ∈ Object_prototype) then Abrupt TypeError
      else Normal (<[key := [item]]> groups)
  end.

(** [groupBy(arr, prop)] *)
Definition groupBy (arr : list Expense) (prop : string)
  : completion (gmap string (list Expense)) :=
  reduce (group_item prop) arr ∅.

(** The items with key [k], in order, and the group they make. *)
Definition items_with (prop k : string) (arr : list Expense) : list Expense :=
  filter (λ item, key_of item prop = k) arr.

Definition as_group (l : list Expense) : option (list Expense) :=
  match l with
  | [] => None
  | _ => Some l
  end.

Lemma items_with_snoc prop k arr item :
  items_with prop k (arr ++ [item]) =
  if decide (key_of item prop = k) then items_with prop k arr ++ [item]
  else items_with prop k arr.
Proof.
  unfold items_with. rewrite filter_app, filter_cons, filter_nil.
  destruct (decide (key_of item prop = k)); [done | by rewrite app_nil_r].
Qed.

Lemma reduce_group_item prop arr done groups :
  (∀ k, groups !! k = as_group (items_with prop k done)) →
  Forall (λ item, key_of item prop ∉ Object_prototype) done →
  match reduce (group_item prop) arr groups with
  | Normal groups' =>
      Forall (λ item, key_of item prop ∉ Object_prototype) (done ++ arr) ∧
      ∀ k, groups' !! k = as_group (items_with prop k (done ++ arr))
  | Abrupt e =>
      e = TypeError ∧ Exists (λ item, key_of item prop ∈ Object_prototype) arr
  end.
Proof.
  revert done groups. induction arr as [|item arr IH]; intros done groups Hinv Hok.
  - simpl. by rewrite app_nil_r.
  - change (reduce (group_item prop) (item :: arr) groups)
      with (match group_item prop groups item with
            | Normal acc' => reduce (group_item prop) arr acc'
            | Abrupt e => Abrupt e
            end).
    pose proof (Hinv (key_of item prop)) as Hkey.
    assert (Hnext : ∀ group,
              items_with prop (key_of item prop) done = group →
              key_of item prop ∉ Object_prototype →
              match reduce (group_item prop) arr
                      (<[key_of item prop := group ++ [item]]> groups) with
              | Normal groups' =>
                  Forall (λ item, key_of item prop ∉ Object_prototype)
                    (done ++ item :: arr) ∧
                  ∀ k, groups' !! k = as_group (items_with prop k (done ++ item :: arr))
              | Abrupt e =>
                  e = TypeError ∧
                  Exists (λ item, key_of item prop ∈ Object_prototype) (item :: arr)
              end).
    { intros group Hgroup Hitem.
      pose proof (IH (done ++ [item]) (<[key_of item prop := group ++ [item]]> groups))
        as IH1.
      rewrite <- !app_assoc in IH1. simpl in IH1.
      destruct (reduce (group_item prop) arr _) as [groups'|e].
      - apply IH1; [|apply Forall_app; split; [assumption | by constructor]].
        intros k. destruct (decide (key_of item prop = k)) as [<-|Hne].
        + rewrite lookup_insert_eq, items_with_snoc, decide_True, Hgroup by reflexivity.
          by destruct group.
        + rewrite lookup_insert_ne by assumption. rewrite items_with_snoc.
          rewrite decide_False by assumption. apply Hinv.
      - destruct IH1 as [-> Hex]; [| |split; [reflexivity | by right]].
        + intros k. destruct (decide (key_of item prop = k)) as [<-|Hne].
          * rewrite lookup_insert_eq, items_with_snoc, decide_True, Hgroup by reflexivity.
            by destruct group.
          * rewrite lookup_insert_ne by assumption. rewrite items_with_snoc.
            rewrite decide_False by assumption. apply Hinv.
        + apply Forall_app; split; [assumption | by constructor]. }
    unfold group_item at 1.
    destruct (groups !! key_of item prop) as [group|] eqn:Hg.
    + assert (Hgroup : items_with prop (key_of item prop) done = group).
      { destruct (items_with prop (key_of item prop) done); simpl in Hkey; congruence. }
      apply Hnext; [assumption|].
      destruct group as [|x group].
      { destruct (items_with prop (key_of item prop) done); simpl in Hkey; congruence. }
      assert (Hx : x ∈ items_with prop (key_of item prop) done)
        by (rewrite Hgroup; by left).
      apply list_elem_of_filter in Hx as [Hx Hin].
      rewrite <- Hx. rewrite Forall_forall in Hok. by apply Hok.
    + destruct (decide (key_of item prop ∈ Object_prototype)) as [Hin|Hout].
      * split; [reflexivity | by left].
      * apply (Hnext []); [|assumption].
        destruct (items_with prop (key_of item prop) done); simpl in Hkey; congruence.
Qed.

(** X20. [groupBy] splits an array by the value of a property used as a key:
    each group holds exactly the items with its key, in the order of the
    array, and there is no empty group.  But a key that names a property of
    [Object.prototype] ([constructor], [toString], ...) makes it throw a
    TypeError, and that is the only way it throws. *)
Theorem groupBy_partitions arr prop :
  match groupBy arr prop with
  | Normal groups =>
      Forall (λ item, key_of item prop ∉ Object_prototype) arr ∧
      ∀ k, groups !! k = as_group (items_with prop k arr)
  | Abrupt e =>
      e = TypeError ∧ Exists (λ item, key_of item prop ∈ Object_prototype) arr
  end.
Proof.
  unfold groupBy. apply (reduce_group_item prop arr [] ∅); [|done].
  intros k. by rewrite lookup_empty.
Qed.

End GroupBy.

(** *** generateUUID *)

Definition UUID_template : string := "xxxxxxxx-xxxx-4xxx-yxxx-xxxxxxxxxxxx".

(** The digit for [d], from 0 to 15. *)
Definition hex_char (d : Z) : ascii :=
  nth (Z.to_nat d) (list_ascii_of_string "0123456789abcdef") "f"%char.

(** The digits of [v] to base 16 before [acc]; [fuel] bounds their number. *)
Fixpoint hex_digits (fuel : nat) (v : Z) (acc : string) : string :=
  match fuel with
  | 0 => acc
  | S fuel' =>
      let acc' := String (hex_char (v mod 16)) acc in
      if (v / 16 =? 0)%Z then acc' else hex_digits fuel' (v / 16) acc'
  end.

(** [v.toString(16)] for an integer [v]. *)
Definition toString16 (v : Z) : string :=
  if (v <? 0)%Z then String "-" (hex_digits (Z.to_nat (- v)) (- v) EmptyString)
  else hex_digits (S (Z.to_nat v)) v EmptyString.

Section Random.

(** The value of [Math.random() * 16 | 0] in the [n]-th call of the
    callback. *)
Variable random16 : nat → Z.

(** [template.replace(/[xy]/g, c => ...)]; [n] counts the calls of the
    callback. *)
Fixpoint replace_xy (template : string) (n : nat) : string :=
  match template with
  | EmptyString => EmptyString
  | String c rest =>
      if Ascii.eqb c "x" || Ascii.eqb c "y" then
        let r := random16 n in
        let v := if Ascii.eqb c "x" then r else Z.lor (Z.land r 3) 8 in
        toString16 v ++ replace_xy rest (S n)
      else String c (replace_xy rest n)
  end.

Definition generateUUID : string := replace_xy UUID_template 0.

End Random.

(** The form of a version 4 UUID: lower-case hexadecimal digits in groups of
    8, 4, 4, 4 and 12, the third group starting with [4] and the fourth
    with [8], [9], [a] or [b]. *)
Definition is_hex (c : ascii) : bool :=
  existsb (Ascii.eqb c) (list_ascii_of_string "0123456789abcdef").

Definition is_variant (c : ascii) : bool :=
  existsb (Ascii.eqb c) (list_ascii_of_string "89ab").

Fixpoint has_form (template s : string) : bool :=
  match template, s with
  | EmptyString, EmptyString => true
  | String t template', String c s' =>
      (if Ascii.eqb t "x" then is_hex c
       else if Ascii.eqb t "y" then is_variant c
       else Ascii.eqb t c)
      && has_form template' s'
  | _, _ => false
  end.

Definition is_uuid_v4 (s : string) : bool := has_form UUID_template s.

Lemma toString16_digit v : (0 ≤ v < 16)%Z → toString16 v = String (hex_char v) EmptyString.
Proof.
  intros Hv. unfold toString16. rewrite (proj2 (Z.ltb_ge v 0)) by lia.
  simpl. rewrite Z.mod_small, Z.div_small by lia. done.
Qed.

Lemma hex_char_cases r (P : Z → Prop) :
  (0 ≤ r < 16)%Z →
  P 0%Z → P 1%Z → P 2%Z → P 3%Z → P 4%Z → P 5%Z → P 6%Z → P 7%Z → P 8%Z →
  P 9%Z → P 10%Z → P 11%Z → P 12%Z → P 13%Z → P 14%Z → P 15%Z → P r.
Proof.
  intros Hr. destruct r as [|p|p]; [by intros|
    do 4 (try destruct p as [p|p|]; try lia); by intros | lia].
Qed.

Lemma replace_xy_cons random16 c rest n :
  replace_xy random16 (String c rest) n =
  if Ascii.eqb c "x" || Ascii.eqb c "y" then
    toString16 (if Ascii.eqb c "x" then random16 n
                else Z.lor (Z.land (random16 n) 3) 8)
    +:+ replace_xy random16 rest (S n)
  else String c (replace_xy random16 rest n).
Proof. done. Qed.

Lemma has_form_cons t template c s :
  has_form (String t template) (String c s) =
  (if Ascii.eqb t "x" then is_hex c
   else if Ascii.eqb t "y" then is_variant c
   else Ascii.eqb t c)
  && has_form template s.
Proof. done. Qed.

Lemma append_digit d s : String d EmptyString +:+ s = String d s.
Proof. done. Qed.

Lemma replace_xy_has_form random16 template n :
  (∀ n, (0 ≤ random16 n < 16)%Z) →
  has_form template (replace_xy random16 template n) = true.
Proof.
  intros Hr. revert n. induction template as [|t template IH]; intros n; [done|].
  rewrite replace_xy_cons. destruct (Ascii.eqb t "x") eqn:Hx.
  - rewrite orb_true_l, toString16_digit, append_digit, has_form_cons by apply Hr.
    rewrite Hx, IH, andb_true_r.
    apply (hex_char_cases (random16 n) (λ r, is_hex (hex_char r) = true));
      [apply Hr | vm_compute; reflexivity ..].
  - rewrite orb_false_l. destruct (Ascii.eqb t "y") eqn:Hy.
    + assert (Hv : (8 ≤ Z.lor (Z.land (random16 n) 3) 8 < 12)%Z).
      { apply (hex_char_cases (random16 n)
                 (λ r, (8 ≤ Z.lor (Z.land r 3) 8 < 12)%Z));
          [apply Hr | vm_compute; split; [discriminate | reflexivity] ..]. }
      cbv iota. rewrite toString16_digit, append_digit, has_form_cons by lia.
      rewrite Hx, Hy, IH, andb_true_r.
      set (v := Z.lor _ _) in *.
      assert (Hcases : v = 8%Z ∨ v = 9%Z ∨ v = 10%Z ∨ v = 11%Z) by lia.
      destruct Hcases as [->|[->|[->| ->]]]; vm_compute; reflexivity.
    + by rewrite has_form_cons, Hx, Hy, Ascii.eqb_refl, IH.
Qed.

Lemma has_form_length template s :
  has_form template s = true → String.length s = String.length template.
Proof.
  revert s. induction template as [|t template IH]; intros [|c s]; simpl; try done.
  intros [_ Hs]%andb_true_iff. by rewrite (IH _ Hs).
Qed.

(** X21. [generateUUID] gives a string of the form of a version 4 UUID,
    whatever the random numbers are: 36 characters, hyphens after the
    groups of 8, 4, 4 and 4 hexadecimal digits, the digit [4] at the head
    of the third group and one of [8], [9], [a], [b] at the head of the
    fourth. *)
Theorem generateUUID_is_v4 random16 :
  (∀ n, (0 ≤ random16 n < 16)%Z) →
  is_uuid_v4 (generateUUID random16) = true ∧
  String.length (generateUUID random16) = 36.
Proof.
  intros Hr.
  pose proof (replace_xy_has_form random16 UUID_template 0 Hr) as Hform.
  split; [exact Hform|].
  exact (has_form_length UUID_template (replace_xy random16 UUID_template 0) Hform).
Qed.

Lemma generateUUID_is_v4_witness :
  is_uuid_v4 (generateUUID (λ n, Z.of_nat (n mod 16))) = true ∧
  generateUUID (λ n, Z.of_nat (n mod 16)) = "01234567-89ab-4cde-b012-3456789abcde".
Proof.
  split.
  - apply (generateUUID_is_v4 (λ n, Z.of_nat (n mod 16))).
    intros n. pose proof (Nat.mod_upper_bound n 16). lia.
  - vm_compute. reflexivity.
Defined.

End Query.

(** ** The storage module: localStorage behind JSON *)

Module Storage.
Import JS JSON.

Definition STORAGE_KEYS : list (string * string) :=
  [ ("EXPENSES", "expenseflow_expenses");
    ("SETTINGS", "expenseflow_settings");
    ("BUDGETS", "expenseflow_budgets") ].

Definition EXPENSES : string := "expenseflow_expenses".
Definition SETTINGS : string := "expenseflow_settings".
Definition BUDGETS : string := "expenseflow_budgets".

(** [Object.values(STORAGE_KEYS)] *)
Definition Object_values (o : list (string * string)) : list string := o.*2.

(** An entry of [localStorage] is a string: the text of a JSON tree, or a
    string that is no JSON text, on which [JSON.parse] throws a SyntaxError.
    The texts of one tree are not told apart. *)
Inductive text :=
| Json (j : json)
| NotJson (s : string).

Abbreviation localStorage := (gmap string text).

(** What [setItem] stores for the result of [JSON.stringify]: its text, or
    the string [undefined] when there is none. *)
Definition written (o : option json) : text :=
  match o with
  | Some j => Json j
  | None => NotJson "undefined"
  end.

(** [JSON.parse(item)] *)
Definition JSON_parse (item : text) (h : heap) : heap * completion val :=
  match item with
  | Json j => let '(h', v) := parse j h in (h', Normal v)
  | NotJson _ => (h, Abrupt SyntaxError)
  end.

Record world := World { store : localStorage; mem : heap }.

Section Host.

(** Whether the browser takes a write; [setItem] throws a
    QuotaExceededError when it does not. *)
Variable accepts : localStorage → string → text → bool.

Definition setItem (key : string) (item : text) (ls : localStorage)
  : completion localStorage :=
  if accepts ls key item then Normal (<[key := item]> ls)
  else Abrupt (HostError (VStr "QuotaExceededError")).

(** [storage.get(key, defaultValue)] *)
Definition get (key : string) (defaultValue : val) (w : world) : world * val :=
  match store w !! key with
  | None => (w, defaultValue)
  | Some item =>
      match JSON_parse item (mem w) with
      | (h, Normal v) => (World (store w) h, v)
      | (h, Abrupt _) => (World (store w) h, defaultValue)
      end
  end.

(** [storage.set(key, value)].  What [JSON.stringify] throws by itself is a
    TypeError, and [setItem] throws a QuotaExceededError; both are objects,
    so that [error.name] in the handler reads a name and [set] returns
    [false].  Where [JSON.stringify] calls a [toJSON] function of the value,
    what happens is up to that function, and [set] is not followed
    further. *)
Definition set (key : string) (value : val) (w : world) : result (world * bool) :=
  match stringify (mem w) value with
  | Done o =>
      match setItem key (written o) (store w) with
      | Normal ls => Done (World ls (mem w), true)
      | Abrupt _ => Done (w, false)
      end
  | Throws _ => Done (w, false)
  | Unallocated => Unallocated
  | OutOfFuel => OutOfFuel
  | Calls f o => Calls f o
  end.

(** [storage.remove(key)] *)
Definition remove (key : string) (w : world) : world :=
  World (delete key (store w)) (mem w).

(** [storage.clearAll()] *)
Definition clearAll (w : world) : world :=
  fold_left (λ w key, remove key w) (Object_values STORAGE_KEYS) w.

(** A new array or object. *)
Definition alloc (o : obj) (h : heap) : heap * val :=
  let l := fresh (dom h) in (<[l := o]> h, VRef l).

(** [ToBoolean] *)
Definition ToBoolean (v : val) : bool :=
  match v with
  | VUndef | VNull => false
  | VBool b => b
  | VNum x => negb (PrimFloat.eqb x 0 || negb (PrimFloat.eqb x x))
  | VStr s => negb (String.eqb s EmptyString)
  | VFun _ | VRef _ | VBuiltin _ => true
  end.

(** [exp.k] for the keys that [_validateExpenses] reads ([id], [amount],
    [category], [date]): none of them is a name of [Object.prototype], of an
    array or of a function, so only an own property of a plain object is
    found. *)
Definition field (h : heap) (exp : val) (k : string) : val :=
  match exp with
  | VRef l => get_prop h l k
  | _ => VUndef
  end.

Definition is_string (v : val) : bool :=
  match v with
  | VStr _ => true
  | _ => false
  end.

Definition is_number (v : val) : bool :=
  match v with
  | VNum _ => true
  | _ => false
  end.

(** The predicate of the [filter] in [_validateExpenses]. *)
Definition valid_expense (h : heap) (exp : val) : bool :=
  ToBoolean exp && is_string (field h exp "id") && is_number (field h exp "amount")
  && is_string (field h exp "category") && is_string (field h exp "date").

(** [expenseStorage._validateExpenses(expenses)] *)
Definition _validateExpenses (expenses : val) (h : heap) : heap * val :=
  match expenses with
  | VRef l =>
      match h !! l with
      | Some (Arr es) => alloc (Arr (List.filter (valid_expense h) es)) h
      | _ => alloc (Arr []) h
      end
  | _ => alloc (Arr []) h
  end.

(** [expenseStorage.load()] *)
Definition load (w : world) : world * val :=
  let '(h0, d) := alloc (Arr []) (mem w) in
  let '(w1, expenses) := get EXPENSES d (World (store w) h0) in
  let '(h2, r) := _validateExpenses expenses (mem w1) in
  (World (store w1) h2, r).

(** [expenseStorage.save(expenses)] *)
Definition save (expenses : val) (w : world) : result world :=
  match set EXPENSES expenses w with
  | Done (w', _) => Done w'
  | Throws e => Throws e
  | Unallocated => Unallocated
  | OutOfFuel => OutOfFuel
  | Calls f o => Calls f o
  end.

End Host.

(** A browser that takes every write, and one that is full. *)
Definition roomy (ls : localStorage) (key : string) (item : text) : bool := true.
Definition full (ls : localStorage) (key : string) (item : text) : bool := false.

(** A heap with one expense (cell 1) in an array (cell 2), and an object
    that refers to itself (cell 3). *)
Definition demo_heap : heap :=
  <[3%positive := Obj [("self", VRef 3%positive)]]>
  (<[2%positive := Arr [VRef 1%positive]]>
  (<[1%positive := Obj [("id", VStr "a1"); ("amount", VNum 12%float);
                        ("category", VStr "food"); ("description", VStr "lunch");
                        ("date", VStr "2024-01-15")]]> ∅)).

Definition demo_expense : json :=
  JObj (MCons "id" (JStr "a1") (MCons "amount" (JNum 12%float)
       (MCons "category" (JStr "food") (MCons "description" (JStr "lunch")
       (MCons "date" (JStr "2024-01-15") MNil))))).

Section HostFacts.

Variable accepts : localStorage → string → text → bool.

(** X10. Writing JSON data and reading it back gives a copy of it: when
    [value] is JSON data and the browser takes the write, [set(key, value)]
    returns [true], stores the text of the value under [key] and leaves the
    heap alone; a [get(key, ...)] that follows returns a value that is the
    same JSON data, whatever the default, without changing a cell that
    existed or the storage. *)
Theorem set_get_roundtrip key value j w :
  represents (mem w) value j →
  accepts (store w) key (Json j) = true →
  ∃ w1, set accepts key value w = Done (w1, true) ∧
        mem w1 = mem w ∧ store w1 = <[key := Json j]> (store w) ∧
        ∀ d, ∃ w2 v, get key d w1 = (w2, v) ∧ represents (mem w2) v j ∧
                     agree (dom (mem w)) (mem w) (mem w2) ∧ store w2 = store w1.
Proof.
  intros Hrep Hacc. unfold set, setItem.
  rewrite (stringify_represents _ _ _ Hrep). simpl. rewrite Hacc.
  eexists. split_and!; [done | done | done |]. intros d. unfold get. simpl.
  rewrite lookup_insert_eq. simpl.
  destruct (parse j (mem w)) as [h v] eqn:Hp.
  exists (World (<[key := Json j]> (store w)) h), v. simpl.
  split_and!; [done | | by eapply parse_agree | done].
  apply (proj1 parse_represents j (mem w)); [|done].
  by apply (proj1 (represents_normal (mem w)) j value).
Qed.

(** X11. [set] reports success for a value that has no JSON text
    ([undefined], a function): the string [undefined] is stored, and a
    [get] that follows returns the default. *)
Theorem set_undefined_reads_default key value w :
  (value = VUndef ∨ ∃ f, value = VFun f) →
  accepts (store w) key (NotJson "undefined") = true →
  ∃ w1, set accepts key value w = Done (w1, true) ∧
        ∀ d, get key d w1 = (w1, d).
Proof.
  intros Hv Hacc. unfold set, setItem.
  assert (Hs : stringify (mem w) value = Done None).
  { destruct Hv as [->|[f ->]]; unfold stringify; by destruct (size (mem w)). }
  rewrite Hs. simpl. rewrite Hacc. eexists. split; [done|].
  intros d. unfold get. simpl. by rewrite lookup_insert_eq.
Qed.

(** X12. [set] does not throw by itself: on a heap without dangling
    references, either [JSON.stringify] calls a [toJSON] function, which it
    does only for a cell that can be reached from the value and that holds a
    callable [toJSON], or [set] returns a boolean, whatever the value (a
    cyclic one, too) and whatever the browser does with the write.  So it
    returns a boolean whenever no cell that can be reached from the value
    holds a callable [toJSON].  When it returns [false] nothing has changed;
    when it returns [true] the entry of [key] is new and nothing else has
    changed. *)
Theorem set_returns_boolean key value w :
  closed (mem w) → (∀ l, value = VRef l → is_Some (mem w !! l)) →
  let returns :=
    ∃ w1 b, set accepts key value w = Done (w1, b) ∧
            if b then mem w1 = mem w ∧ ∃ item, store w1 = <[key := item]> (store w)
            else w1 = w in
  (returns ∨
   ∃ f l o, set accepts key value w = Calls f (VRef l) ∧
            reach (mem w) value l ∧ mem w !! l = Some o ∧ toJSON_of o = Some f) ∧
  ((∀ l o, reach (mem w) value l → mem w !! l = Some o → toJSON_of o = None) →
   returns).
Proof.
  intros Hcl Hv returns.
  assert (Hkinds : returns ∨
    ∃ f l o, set accepts key value w = Calls f (VRef l) ∧
             reach (mem w) value l ∧ mem w !! l = Some o ∧ toJSON_of o = Some f).
  { unfold returns, set, setItem.
    pose proof (stringify_total (mem w) value) as Hfuel.
    pose proof (serialize_allocated (size (mem w)) (mem w) [] value Hcl Hv) as Halloc.
    pose proof (serialize_calls (size (mem w)) (mem w) [] value) as Hcalls.
    fold (stringify (mem w) value) in Halloc, Hcalls.
    destruct (stringify (mem w) value) as [o|e| | |f0 t0]; [| |done|done|].
    - left. destruct (accepts (store w) key (written o)).
      + eexists _, true. split; [done|]. simpl. by eauto.
      + by exists w, false.
    - left. by exists w, false.
    - right. destruct (Hcalls f0 t0 eq_refl) as (l & o & -> & Hr & Hl & Hf).
      by exists f0, l, o. }
  split; [done|]. intros Hnone.
  destruct Hkinds as [Hret|(f & l & o & _ & Hr & Hl & Hf)]; [done|].
  rewrite (Hnone l o Hr Hl) in Hf. done.
Qed.

Lemma clearAll_store w :
  store (clearAll w) = delete BUDGETS (delete SETTINGS (delete EXPENSES (store w))).
Proof. done. Qed.

(** X13. [clearAll] removes the three entries of the application and no
    other: afterwards [get] returns the default for each of the three keys,
    and every other entry of [localStorage] is what it was. *)
Theorem clearAll_removes_app_keys w key :
  mem (clearAll w) = mem w ∧
  (key ∈ Object_values STORAGE_KEYS →
   store (clearAll w) !! key = None ∧ ∀ d, get key d (clearAll w) = (clearAll w, d)) ∧
  (key ∉ Object_values STORAGE_KEYS → store (clearAll w) !! key = store w !! key).
Proof.
  split; [done|]. rewrite clearAll_store. split.
  - intros Hin.
    assert (Hnone : delete BUDGETS (delete SETTINGS (delete EXPENSES (store w))) !! key
                    = None).
    { apply list_elem_of_In in Hin. simpl in Hin.
      destruct Hin as [<-|[<-|[<-|[]]]].
      - rewrite !lookup_delete_ne by done. apply lookup_delete_eq.
      - rewrite lookup_delete_ne by done. apply lookup_delete_eq.
      - apply lookup_delete_eq. }
    split; [done|]. intros d. unfold get. rewrite clearAll_store. by rewrite Hnone.
  - intros Hout. rewrite !lookup_delete_ne; [done | | |];
      intros <-; apply Hout; apply list_elem_of_In; simpl; tauto.
Qed.

End HostFacts.

(** *** Validation and loading of the expenses *)

(** The JSON text of an expense as the application writes it: an object with
    strings at [id], [category] and [date] and a number at [amount]. *)
Definition expense_shaped (j : json) : bool :=
  match j with
  | JObj ms =>
      match mlookup "id" ms, mlookup "amount" ms, mlookup "category" ms,
            mlookup "date" ms with
      | Some (JStr _), Some (JNum _), Some (JStr _), Some (JStr _) => true
      | _, _, _, _ => false
      end
  | _ => false
  end.

Fixpoint all_items (p : json → bool) (js : jitems) : bool :=
  match js with
  | INil => true
  | ICons j js' => p j && all_items p js'
  end.

Lemma valid_expense_alloc (h : heap) l es exp :
  h !! l = None → valid_expense (<[l := Arr es]> h) exp = valid_expense h exp.
Proof.
  intros Hl. unfold valid_expense.
  assert (Hfield : ∀ k, field (<[l := Arr es]> h) exp k = field h exp k).
  { intros k. destruct exp as [| | | | | |l0|b0]; try done. simpl. unfold get_prop.
    destruct (decide (l = l0)) as [<-|Hne].
    - by rewrite lookup_insert_eq, Hl.
    - by rewrite lookup_insert_ne. }
  by rewrite !Hfield.
Qed.

Lemma filter_valid_alloc (h : heap) l es es0 :
  h !! l = None →
  List.filter (valid_expense (<[l := Arr es]> h)) es0 = List.filter (valid_expense h) es0.
Proof.
  intros Hl. induction es0 as [|e es0 IH]; [done|]. simpl.
  by rewrite valid_expense_alloc, IH.
Qed.

Lemma filter_filter_same {A} (p : A → bool) (xs : list A) :
  List.filter p (List.filter p xs) = List.filter p xs.
Proof.
  induction xs as [|x xs IH]; [done|]. simpl.
  destruct (p x) eqn:Hp; [|done]. simpl. by rewrite Hp, IH.
Qed.

Lemma filter_all_true {A} (p : A → bool) (xs : list A) :
  Forall (λ x, p x = true) (List.filter p xs).
Proof.
  induction xs as [|x xs IH]; [done|]. simpl.
  destruct (p x) eqn:Hp; [by apply Forall_cons | done].
Qed.

Lemma fresh_None (h : heap) : h !! fresh (dom h) = None.
Proof. apply not_elem_of_dom. apply is_fresh. Qed.

(** What [_validateExpenses] returns: a new array with the elements of the
    input, when that is an array, that pass the test. *)
Lemma _validateExpenses_unfold expenses h :
  _validateExpenses expenses h =
  alloc (Arr (match expenses with
              | VRef l =>
                  match h !! l with
                  | Some (Arr es) => List.filter (valid_expense h) es
                  | _ => []
                  end
              | _ => []
              end)) h.
Proof.
  unfold _validateExpenses. destruct expenses as [| | | | | |l|b0]; try done.
  by destruct (h !! l) as [[ps|es]|].
Qed.

(** X14. [_validateExpenses] gives a new array and changes nothing: whatever
    it is given, an array or not, the result is an array that did not exist
    before, all of whose elements pass the test, and every cell that existed
    is as it was; validating the result again gives one more new array with
    the same elements. *)
Theorem validateExpenses_idempotent expenses h h1 r1 h2 r2 :
  _validateExpenses expenses h = (h1, r1) →
  _validateExpenses r1 h1 = (h2, r2) →
  ∃ l1 l2 es,
    r1 = VRef l1 ∧ r2 = VRef l2 ∧ h !! l1 = None ∧ h1 !! l2 = None ∧
    h1 !! l1 = Some (Arr es) ∧ h2 !! l1 = Some (Arr es) ∧ h2 !! l2 = Some (Arr es) ∧
    Forall (λ exp, valid_expense h2 exp = true) es ∧
    agree (dom h) h h1 ∧ agree (dom h1) h1 h2.
Proof.
  rewrite !_validateExpenses_unfold. unfold alloc.
  set (es := match expenses with VRef l => _ | _ => [] end).
  intros [= <- <-]. rewrite lookup_insert_eq.
  assert (Hes : List.filter (valid_expense (<[fresh (dom h) := Arr es]> h)) es = es).
  { rewrite filter_valid_alloc by apply fresh_None. unfold es.
    destruct expenses as [| | | | | |l|b0]; try done.
    destruct (h !! l) as [[ps|es0]|]; try done. apply filter_filter_same. }
  rewrite Hes. intros [= <- <-].
  exists (fresh (dom h)), (fresh (dom (<[fresh (dom h) := Arr es]> h))), es.
  split_and!; try done.
  - apply fresh_None.
  - apply fresh_None.
  - apply lookup_insert_eq.
  - rewrite lookup_insert_ne; [apply lookup_insert_eq|].
    intros Heq. pose proof (fresh_None (<[fresh (dom h) := Arr es]> h)) as Hf.
    rewrite Heq, lookup_insert_eq in Hf. done.
  - apply lookup_insert_eq.
  - rewrite <- Hes at 1. rewrite Forall_forall. intros exp Hin.
    rewrite valid_expense_alloc by apply fresh_None.
    revert exp Hin. rewrite <- Forall_forall. apply filter_all_true.
  - apply agree_alloc.
  - apply agree_alloc.
Qed.

Lemma validateExpenses_idempotent_witness :
  ∃ h1 h2, _validateExpenses (VStr "corrupt") demo_heap = (h1, VRef 4%positive) ∧
           _validateExpenses (VRef 4%positive) h1 = (h2, VRef 5%positive) ∧
           h2 !! 5%positive = Some (Arr []).
Proof.
  set (r1 := _validateExpenses (VStr "corrupt") demo_heap).
  set (r2 := _validateExpenses r1.2 r1.1).
  destruct (validateExpenses_idempotent (VStr "corrupt") demo_heap r1.1 r1.2 r2.1 r2.2)
    as (l1 & l2 & es & _).
  - exact (surjective_pairing r1).
  - exact (surjective_pairing r2).
  - exists r1.1, r2.1. vm_compute. split_and!; reflexivity.
Defined.

Section LoadFacts.

Variable accepts : localStorage → string → text → bool.

(** X15. [load] always gives an array of records that pass the test,
    whatever [localStorage] holds under the key of the expenses: nothing, a
    string that is no JSON text, the text of something that is no array, or
    an array with other things in it.  The array is new, and neither the
    storage nor a cell that existed is changed. *)
Theorem load_gives_valid_array w w' r :
  load w = (w', r) →
  ∃ l es, r = VRef l ∧ mem w' !! l = Some (Arr es) ∧ mem w !! l = None ∧
          Forall (λ exp, valid_expense (mem w') exp = true) es ∧
          store w' = store w ∧ agree (dom (mem w)) (mem w) (mem w').
Proof.
  unfold load. unfold alloc at 1.
  set (h0 := <[fresh (dom (mem w)) := Arr []]> (mem w)).
  assert (H0 : agree (dom (mem w)) (mem w) h0) by apply agree_alloc.
  destruct (get EXPENSES (VRef (fresh (dom (mem w)))) (World (store w) h0))
    as [w1 expenses] eqn:Hget.
  assert (H1 : store w1 = store w ∧ agree (dom h0) h0 (mem w1)).
  { unfold get in Hget. simpl in Hget.
    destruct (store w !! EXPENSES) as [[j|s]|].
    - simpl in Hget. destruct (parse j h0) as [h1 v] eqn:Hp.
      injection Hget as <- <-. simpl. split; [done | by eapply parse_agree].
    - simpl in Hget. injection Hget as <- <-. done.
    - injection Hget as <- <-. done. }
  destruct H1 as [Hstore H1].
  rewrite _validateExpenses_unfold. unfold alloc.
  set (es := match expenses with VRef l => _ | _ => [] end).
  intros [= <- <-]. simpl.
  exists (fresh (dom (mem w1))), es. split_and!; try done.
  - apply lookup_insert_eq.
  - apply not_elem_of_dom. intros Hin. apply (is_fresh (dom (mem w1))).
    by apply (agree_dom h0 (mem w1)), (agree_dom (mem w) h0).
  - assert (Hall : Forall (λ exp, valid_expense (mem w1) exp = true) es).
    { unfold es. destruct expenses as [| | | | | |l|b0]; try done.
      destruct (mem w1 !! l) as [[ps|es0]|]; try done. apply filter_all_true. }
    eapply Forall_impl; [exact Hall|]. intros exp Hexp. simpl in Hexp.
    by rewrite valid_expense_alloc by apply fresh_None.
  - eapply agree_trans; [exact H0|]. eapply agree_trans; [exact H1|]. apply agree_alloc.
Qed.

Lemma represents_members_lookup h k ms ps :
  represents_members h ps ms →
  match mlookup k ms with
  | Some j => ∃ v, prop_lookup k ps = Some v ∧ represents h v j
  | None => prop_lookup k ps = None
  end.
Proof.
  revert ps. induction ms as [|k' j ms IH]; intros ps; simpl.
  - by intros ->.
  - intros (v & ps' & -> & Hv & Hms). simpl.
    destruct (decide (k = k')); [by eauto | by apply IH].
Qed.

Lemma expense_shaped_valid h v j :
  represents h v j → expense_shaped j = true → valid_expense h v = true.
Proof.
  destruct j as [| | | | |ms]; try done. simpl.
  intros (l & ps & -> & Hl & _ & Hms) Hshape.
  unfold valid_expense, field, get_prop. rewrite Hl. simpl.
  pose proof (represents_members_lookup h "id" ms ps Hms) as Hid.
  pose proof (represents_members_lookup h "amount" ms ps Hms) as Ham.
  pose proof (represents_members_lookup h "category" ms ps Hms) as Hcat.
  pose proof (represents_members_lookup h "date" ms ps Hms) as Hdate.
  destruct (mlookup "id" ms) as [[]|]; try done.
  destruct (mlookup "amount" ms) as [[]|]; try done.
  destruct (mlookup "category" ms) as [[]|]; try done.
  destruct (mlookup "date" ms) as [[]|]; try done.
  destruct Hid as (? & -> & ->), Ham as (? & -> & -> & _),
           Hcat as (? & -> & ->), Hdate as (? & -> & ->). done.
Qed.

Lemma filter_valid_all h es js :
  represents_items h es js → all_items expense_shaped js = true →
  List.filter (valid_expense h) es = es.
Proof.
  revert es. induction js as [|j js IH]; intros es; simpl.
  - by intros ->.
  - intros (v & es' & -> & Hv & Hes) [Hj Hjs]%andb_true_iff. simpl.
    rewrite (expense_shaped_valid _ _ _ Hv Hj). by rewrite IH.
Qed.

(** X16. Saving the expenses and loading them gives them back: when the
    array of expenses is JSON data, each record with strings at [id],
    [category] and [date] and a number at [amount], and the browser takes
    the write, then [load] after [save] returns a new array that is the same
    JSON data, no record dropped, and no cell that existed is changed. *)
Theorem save_load_roundtrip expenses js w :
  represents (mem w) expenses (JArr js) →
  all_items expense_shaped js = true →
  accepts (store w) EXPENSES (Json (JArr js)) = true →
  ∃ w1 w2 r, save accepts expenses w = Done w1 ∧ load w1 = (w2, r) ∧
             represents (mem w2) r (JArr js) ∧
             (∀ l, r = VRef l → mem w !! l = None) ∧
             agree (dom (mem w)) (mem w) (mem w2).
Proof.
  intros Hrep Hshape Hacc.
  assert (Hnormal : normal (JArr js))
    by apply (proj1 (represents_normal (mem w)) _ _ Hrep).
  unfold save, set, setItem.
  rewrite (stringify_represents _ _ _ Hrep). simpl. rewrite Hacc.
  exists (World (<[EXPENSES := Json (JArr js)]> (store w)) (mem w)).
  unfold load, alloc at 1. simpl.
  set (h0 := <[fresh (dom (mem w)) := Arr []]> (mem w)).
  unfold get. simpl. rewrite lookup_insert_eq. simpl.
  destruct (parse_items js h0) as [h1 es] eqn:Hp. simpl.
  pose proof (proj1 parse_represents (JArr js) h0) as Hpr. simpl in Hpr.
  rewrite Hp in Hpr. specialize (Hpr _ _ Hnormal eq_refl).
  destruct Hpr as (l & es' & [= <-] & Hl & Hes).
  rewrite lookup_insert_eq in Hl. injection Hl as <-.
  set (h2 := <[fresh (dom h1) := Arr es]> h1) in *.
  assert (Hl2 : h2 !! fresh (dom h1) = Some (Arr es)) by apply lookup_insert_eq.
  rewrite Hl2, (filter_valid_all _ _ _ Hes Hshape). unfold alloc.
  set (h3 := <[fresh (dom h2) := Arr es]> h2).
  assert (H23 : agree (dom h2) h2 h3) by apply agree_alloc.
  assert (H02 : agree (dom h0) h0 h2).
  { apply (parse_agree (JArr js) h0 h2 (VRef (fresh (dom h1)))). simpl.
    by rewrite Hp. }
  assert (H0 : agree (dom (mem w)) (mem w) h0) by apply agree_alloc.
  assert (H03 : agree (dom (mem w)) (mem w) h3).
  { eapply agree_trans; [exact H0|]. eapply agree_trans; [exact H02|done]. }
  eexists _, _. split_and!; [done | done | | |done].
  - simpl. exists (fresh (dom h2)), es. split_and!; [done | apply lookup_insert_eq |].
    by apply (proj1 (proj2 (represents_agree h2 h3 H23))).
  - intros l [= <-]. apply not_elem_of_dom. intros Hin.
    apply (is_fresh (dom h2)).
    by apply (agree_dom h0 h2), (agree_dom (mem w) h0).
Qed.

End LoadFacts.

(** *** Numbers that JSON cannot write *)

Lemma parse_members_null ms h acc h1 ps k :
  NoDup (mkeys ms) → mlookup k ms = Some JNull →
  parse_members ms h acc = (h1, ps) →
  prop_lookup k ps = Some VNull.
Proof.
  revert h acc. induction ms as [|k0 j0 ms IH]; intros h acc; simpl; [done|].
  intros [Hout Hnd]%NoDup_cons. destruct (decide (k = k0)) as [->|Hne].
  - intros [= ->]. simpl. intros Hp.
    rewrite (parse_members_keeps _ _ _ _ _ _ Hout Hp). apply prop_lookup_store_eq.
  - intros Hk. destruct (parse j0 h) as [h0 v0]. by apply IH.
Qed.

Section NumberFacts.

Variable accepts : localStorage → string → text → bool.

(** X23. An amount that is NaN or infinite does not survive the storage:
    JSON has no text for such a number and writes [null], so that the copy
    that [get] returns of a record written by [set] with such an amount
    fails the test of [_validateExpenses], whatever the other members of
    the record are.  (This is about a record that [JSON.stringify] writes
    itself: for a record that holds a callable [toJSON], [set] does not end
    with [true] here, since what is written is then up to that
    function.) *)
Theorem nonfinite_amount_fails_after_roundtrip key l ps x w w1 d w2 v :
  mem w !! l = Some (Obj ps) → NoDup ps.*1 →
  prop_lookup "amount" ps = Some (VNum x) → number_to_json x = JNull →
  set accepts key (VRef l) w = Done (w1, true) →
  get key d w1 = (w2, v) →
  valid_expense (mem w2) v = false.
Proof.
  intros Hl Hnd Hamount Hx. unfold set, setItem, stringify, get.
  rewrite serialize_ref, Hl.
  destruct (toJSON_of (Obj ps)); [done|].
  rewrite decide_False by apply not_elem_of_nil.
  destruct (size (mem w)) as [|fuel]; [done|].
  destruct (serialize_props (serialize fuel (mem w) [l]) ps) as [ms| | | |f0 t0] eqn:Hms;
    try done.
  simpl. destruct (accepts (store w) key (Json (JObj ms))); [|done].
  intros [= <-]. simpl. rewrite lookup_insert_eq. simpl.
  destruct (parse_members ms (mem w) []) as [h1 ps'] eqn:Hp.
  intros [= <- <-]. simpl.
  assert (Hnull : mlookup "amount" ms = Some JNull).
  { apply (serialize_props_lookup _ _ _ _ _ _ Hms Hamount).
    rewrite <- Hx. by destruct fuel. }
  assert (Hkeys : NoDup (mkeys ms)).
  { apply (sublist_NoDup _ _ Hnd (serialize_props_keys _ _ _ Hms)). }
  unfold valid_expense, field, get_prop. rewrite lookup_insert_eq.
  rewrite (parse_members_null _ _ _ _ _ _ Hkeys Hnull Hp). simpl.
  by rewrite !andb_false_r.
Qed.

End NumberFacts.

(** *** exportCSV *)

(** The double quote and the line feed. *)
Definition dquote : ascii := ascii_of_nat 34.
Definition line_feed : string := String (ascii_of_nat 10) EmptyString.

(** The [replace] of the description: every double quote is doubled. *)
Fixpoint double_quotes (s : string) : string :=
  match s with
  | EmptyString => EmptyString
  | String c s' =>
      if Ascii.eqb c dquote then String dquote (String dquote (double_quotes s'))
      else String c (double_quotes s')
  end.

(** The template literal around it: the field between double quotes. *)
Definition quoted (s : string) : string :=
  String dquote (double_quotes s +:+ String dquote EmptyString).

(** [l.join(sep)] *)
Definition join (sep : string) (l : list string) : string := String.concat sep l.

Section CsvHost.

(** [new Date(s).toLocaleDateString()] and [x.toFixed(2)], which depend on
    the locale and the time zone of the host. *)
Variable toLocaleDateString : string → string.
Variable toFixed2 : float → string.

Definition headers : list string := ["Date"; "Category"; "Description"; "Amount"].

(** The row of an expense; the record has a string as its description, as
    the expenses the form creates have. *)
Definition row (exp : Query.Expense) : list string :=
  [ toLocaleDateString (Query.date exp);
    Query.category exp;
    quoted (Query.description exp);
    toFixed2 (Query.amount exp) ].

(** [expenseStorage.exportCSV(expenses)] *)
Definition exportCSV (expenses : list Query.Expense) : string :=
  join line_feed (join "," headers :: map (λ r, join "," r) (map row expenses)).

End CsvHost.

(** How a reader of CSV takes a quoted field off the head of a text: up to
    the first double quote that is not followed by another, a pair of
    double quotes standing for one.  It gives the field and the text that
    follows it. *)
Fixpoint read_quoted_body (s : string) : option (string * string) :=
  match s with
  | EmptyString => None
  | String c s' =>
      if Ascii.eqb c dquote then
        match s' with
        | String c' s'' =>
            if Ascii.eqb c' dquote then
              match read_quoted_body s'' with
              | Some (field, rest) => Some (String dquote field, rest)
              | None => None
              end
            else Some (EmptyString, s')
        | EmptyString => Some (EmptyString, EmptyString)
        end
      else
        match read_quoted_body s' with
        | Some (field, rest) => Some (String c field, rest)
        | None => None
        end
  end.

Definition read_quoted (s : string) : option (string * string) :=
  match s with
  | String c s' => if Ascii.eqb c dquote then read_quoted_body s' else None
  | EmptyString => None
  end.

(** A text that does not start with a double quote. *)
Definition no_quote_ahead (s : string) : Prop :=
  match s with
  | String c _ => Ascii.eqb c dquote = false
  | EmptyString => True
  end.

Lemma append_cons c s1 s2 : String c s1 +:+ s2 = String c (s1 +:+ s2).
Proof. done. Qed.

Lemma append_nil_l s : EmptyString +:+ s = s.
Proof. done. Qed.

Lemma double_quotes_cons c s :
  double_quotes (String c s) =
  if Ascii.eqb c dquote then String dquote (String dquote (double_quotes s))
  else String c (double_quotes s).
Proof. done. Qed.

Lemma read_quoted_body_cons c s' :
  read_quoted_body (String c s') =
  if Ascii.eqb c dquote then
    match s' with
    | String c' s'' =>
        if Ascii.eqb c' dquote then
          match read_quoted_body s'' with
          | Some (field, rest) => Some (String dquote field, rest)
          | None => None
          end
        else Some (EmptyString, s')
    | EmptyString => Some (EmptyString, EmptyString)
    end
  else
    match read_quoted_body s' with
    | Some (field, rest) => Some (String c field, rest)
    | None => None
    end.
Proof. done. Qed.

Lemma read_quoted_body_double s rest :
  no_quote_ahead rest →
  read_quoted_body ((double_quotes s +:+ String dquote EmptyString) +:+ rest)
  = Some (s, rest).
Proof.
  intros Hrest. induction s as [|c s IH].
  - change (double_quotes EmptyString) with EmptyString.
    rewrite append_nil_l, append_cons, append_nil_l, read_quoted_body_cons.
    rewrite Ascii.eqb_refl. destruct rest as [|c' rest]; [done|].
    simpl in Hrest. by rewrite Hrest.
  - rewrite double_quotes_cons. destruct (Ascii.eqb c dquote) eqn:Hc.
    + apply Ascii.eqb_eq in Hc as ->.
      rewrite !append_cons, read_quoted_body_cons, !Ascii.eqb_refl. by rewrite IH.
    + rewrite !append_cons, read_quoted_body_cons, Hc. by rewrite IH.
Qed.

(** X22. [exportCSV] writes the description so that a reader of CSV gets it
    back, whatever it holds (commas, double quotes, line feeds): the row of
    an expense is the date, the category, the quoted description and the
    amount, joined by commas, and reading a quoted field where the
    description starts gives the description and leaves the comma and the
    amount. *)
Theorem exportCSV_description_roundtrip toLocaleDateString toFixed2 exp :
  let tail := "," +:+ toFixed2 (Query.amount exp) in
  join "," (row toLocaleDateString toFixed2 exp) =
    toLocaleDateString (Query.date exp) +:+ "," +:+ Query.category exp +:+ ","
    +:+ quoted (Query.description exp) +:+ tail ∧
  read_quoted (quoted (Query.description exp) +:+ tail)
    = Some (Query.description exp, tail).
Proof.
  intros tail. split.
  - reflexivity.
  - unfold quoted, read_quoted. rewrite append_cons, Ascii.eqb_refl.
    by apply read_quoted_body_double.
Qed.

Lemma demo_represents :
  represents demo_heap (VRef 2%positive) (JArr (ICons demo_expense INil)).
Proof.
  exists 2%positive, [VRef 1%positive]. split_and!; [done | done |].
  eexists _, _. split_and!; [done | | done].
  eexists 1%positive, _. split_and!; [done | done | |].
  - apply (bool_decide_unpack _). vm_compute. exact I.
  - repeat (eexists _, _; split_and!; [done | first [done | by split] |]). done.
Qed.

Lemma demo_closed : closed demo_heap.
Proof.
  intros l o l' Hl Hin. unfold demo_heap in Hl.
  rewrite !lookup_insert in Hl.
  repeat (destruct (decide _) as [<-|_] in Hl;
          [injection Hl as <-; simpl in Hin;
           repeat (apply elem_of_cons in Hin as [Hin|Hin];
                   [first [discriminate | injection Hin as ->; by eexists]|]);
           by apply elem_of_nil in Hin |]).
  done.
Qed.

Lemma set_get_roundtrip_witness :
  ∃ w1, set roomy EXPENSES (VRef 2%positive) (World ∅ demo_heap) = Done (w1, true) ∧
        store w1 !! EXPENSES = Some (Json (JArr (ICons demo_expense INil))).
Proof.
  destruct (set_get_roundtrip roomy EXPENSES (VRef 2%positive)
              (JArr (ICons demo_expense INil)) (World ∅ demo_heap))
    as (w1 & Hset & _ & Hstore & _).
  - exact demo_represents.
  - reflexivity.
  - exists w1. split; [exact Hset|]. rewrite Hstore. apply lookup_insert_eq.
Defined.

Lemma set_undefined_reads_default_witness :
  ∃ w1, set roomy SETTINGS VUndef (World ∅ ∅) = Done (w1, true) ∧
        get SETTINGS VNull w1 = (w1, VNull).
Proof.
  destruct (set_undefined_reads_default roomy SETTINGS VUndef (World ∅ ∅))
    as (w1 & Hset & Hget).
  - by left.
  - reflexivity.
  - exists w1. split; [exact Hset | apply Hget].
Defined.

Lemma set_returns_boolean_witness :
  ∃ w1 b, set roomy BUDGETS (VRef 3%positive) (World ∅ demo_heap) = Done (w1, b).
Proof.
  destruct (set_returns_boolean roomy BUDGETS (VRef 3%positive) (World ∅ demo_heap))
    as [[(w1 & b & Hset & _)|(f & l & o & Hcalls & _)] _].
  - exact demo_closed.
  - intros l [= <-]. by eexists.
  - by exists w1, b.
  - vm_compute in Hcalls. discriminate.
Defined.

Lemma load_gives_valid_array_witness :
  ∃ w', load (World {[ EXPENSES := NotJson "corrupt" ]} demo_heap) = (w', VRef 5%positive) ∧
        mem w' !! 5%positive = Some (Arr []).
Proof.
  set (r := load (World {[ EXPENSES := NotJson "corrupt" ]} demo_heap)).
  destruct (load_gives_valid_array (World {[ EXPENSES := NotJson "corrupt" ]} demo_heap)
              r.1 r.2) as (l & es & _).
  - exact (surjective_pairing r).
  - exists r.1. vm_compute. split; reflexivity.
Defined.

Lemma save_load_roundtrip_witness :
  ∃ w1 w2 r, save roomy (VRef 2%positive) (World ∅ demo_heap) = Done w1 ∧
             load w1 = (w2, r) ∧
             represents (mem w2) r (JArr (ICons demo_expense INil)).
Proof.
  destruct (save_load_roundtrip roomy (VRef 2%positive) (ICons demo_expense INil)
              (World ∅ demo_heap)) as (w1 & w2 & r & Hsave & Hload & Hrep & _).
  - exact demo_represents.
  - vm_compute. reflexivity.
  - reflexivity.
  - by exists w1, w2, r.
Defined.

(** A record whose amount is infinite. *)
Definition endless : list (string * val) :=
  [("id", VStr "a2"); ("amount", VNum infinity); ("category", VStr "bills");
   ("date", VStr "2024-02-01")].

Lemma nonfinite_amount_fails_after_roundtrip_witness :
  valid_expense {[ 1%positive := Obj endless ]} (VRef 1%positive) = true ∧
  ∃ w1 w2 v,
    set roomy EXPENSES (VRef 1%positive) (World ∅ {[ 1%positive := Obj endless ]})
      = Done (w1, true) ∧
    get EXPENSES VNull w1 = (w2, v) ∧ valid_expense (mem w2) v = false.
Proof.
  split; [vm_compute; reflexivity|].
  set (w := World ∅ {[ 1%positive := Obj endless ]}).
  set (r1 := set roomy EXPENSES (VRef 1%positive) w).
  assert (H1 : ∃ w1, r1 = Done (w1, true)) by (eexists; vm_compute; reflexivity).
  destruct H1 as [w1 H1].
  set (r2 := get EXPENSES VNull w1).
  exists w1, r2.1, r2.2. split_and!; [exact H1 | exact (surjective_pairing r2) |].
  apply (nonfinite_amount_fails_after_roundtrip roomy EXPENSES 1%positive endless
           infinity w w1 VNull r2.1 r2.2).
  - reflexivity.
  - apply (bool_decide_unpack _). vm_compute. exact I.
  - reflexivity.
  - vm_compute. reflexivity.
  - exact H1.
  - exact (surjective_pairing r2).
Defined.

End Storage.
